(** * Document factory: the template-merge engine

    A shallow embedding of [MergeHelper.findAllTags] and [MergeHelper.merge]
    (document-factory/src/onOpen.gs.js) together with the document helpers
    they call ([findAllRanges], [getStringFromRange], [getDocumentParts]),
    over a model of the DocumentApp element tree as a store of elements
    addressed by reference. *)

From Stdlib Require Import Ascii String ZArith Lia.
From stdpp Require Import base option list gmap strings.

Open Scope list_scope.
Open Scope Z_scope.

(** JavaScript strings are modelled as lists of characters, offsets and
    lengths as integers. *)
Abbreviation text := (list ascii).

Definition T (s : string) : text := list_ascii_of_string s.

(** ** String primitives of the host language *)
Module JS.

(** [s.length] *)
Definition len (s : text) : Z := Z.of_nat (length s).

Definition clamp (s : text) (i : Z) : nat :=
  Z.to_nat (Z.min (Z.max 0 i) (len s)).

(** [s.substring(indexStart, indexEnd)]: both indices are clamped to
    [0 .. s.length] and swapped when out of order. *)
Definition substring (s : text) (indexStart indexEnd : Z) : text :=
  let a := clamp s indexStart in
  let b := clamp s indexEnd in
  take (Nat.max a b - Nat.min a b)%nat (drop (Nat.min a b) s).

(** [s.substring(indexStart)] *)
Definition substring_from (s : text) (indexStart : Z) : text :=
  substring s indexStart (len s).

(** [s.split(sep)] for a separator that consumes exactly one character
    (a one-character string, or a character class such as [/[<>]/]). *)
Fixpoint split (sep : ascii -> bool) (s : text) : list text :=
  match s with
  | [] => [[]]
  | c :: s' =>
      if sep c then [] :: split sep s'
      else match split sep s' with
           | [] => [[c]]
           | w :: ws => (c :: w) :: ws
           end
  end.

Definition newline : ascii := "010"%char.

Definition is_newline (c : ascii) : bool := Ascii.eqb c newline.

(** the character class [[<>]] *)
Definition is_angle (c : ascii) : bool :=
  Ascii.eqb c "<" || Ascii.eqb c ">".

End JS.

(** ** Regular expressions, as accepted by [findText] *)
Module Regex.

Inductive regex : Type :=
| Empty                       (* matches nothing *)
| Eps                         (* matches the empty string *)
| Lit (c : ascii)             (* a literal character *)
| NoneOf (cs : list ascii)    (* a negated class [^...] *)
| Cat (r1 r2 : regex)
| Alt (r1 r2 : regex)
| Star (r : regex).

(** [r+] and [r?] *)
Definition Plus (r : regex) : regex := Cat r (Star r).
Definition Opt (r : regex) : regex := Alt r Eps.

Definition in_class (cs : list ascii) (c : ascii) : bool :=
  existsb (Ascii.eqb c) cs.

Inductive matches : regex -> text -> Prop :=
| m_eps : matches Eps []
| m_lit c : matches (Lit c) [c]
| m_noneof cs c : in_class cs c = false -> matches (NoneOf cs) [c]
| m_cat r1 r2 s1 s2 :
    matches r1 s1 -> matches r2 s2 -> matches (Cat r1 r2) (s1 ++ s2)
| m_alt_l r1 r2 s : matches r1 s -> matches (Alt r1 r2) s
| m_alt_r r1 r2 s : matches r2 s -> matches (Alt r1 r2) s
| m_star_nil r : matches (Star r) []
| m_star_cons r s1 s2 :
    matches r s1 -> matches (Star r) s2 -> matches (Star r) (s1 ++ s2).

Fixpoint nullable (r : regex) : bool :=
  match r with
  | Empty => false
  | Eps => true
  | Lit _ => false
  | NoneOf _ => false
  | Cat r1 r2 => nullable r1 && nullable r2
  | Alt r1 r2 => nullable r1 || nullable r2
  | Star _ => true
  end.

(** Smart constructors that prune dead branches of a derivative. *)
Definition cat (r1 r2 : regex) : regex :=
  match r1, r2 with
  | Empty, _ => Empty
  | _, Empty => Empty
  | Eps, _ => r2
  | _, _ => Cat r1 r2
  end.

Definition alt (r1 r2 : regex) : regex :=
  match r1, r2 with
  | Empty, _ => r2
  | _, Empty => r1
  | _, _ => Alt r1 r2
  end.

(** Brzozowski derivative *)
Fixpoint deriv (c : ascii) (r : regex) : regex :=
  match r with
  | Empty => Empty
  | Eps => Empty
  | Lit c' => if Ascii.eqb c c' then Eps else Empty
  | NoneOf cs => if in_class cs c then Empty else Eps
  | Cat r1 r2 =>
      if nullable r1 then alt (cat (deriv c r1) r2) (deriv c r2)
      else cat (deriv c r1) r2
  | Alt r1 r2 => alt (deriv c r1) (deriv c r2)
  | Star r1 => cat (deriv c r1) (Star r1)
  end.

(** The length of the longest prefix of [s] that [r] matches. *)
Fixpoint longest (r : regex) (s : text) : option nat :=
  match s with
  | [] => if nullable r then Some 0%nat else None
  | c :: s' =>
      match longest (deriv c r) s' with
      | Some n => Some (S n)
      | None => if nullable r then Some 0%nat else None
      end
  end.

(** The leftmost match in [s]; [pos] is the absolute offset of the head
    of [s] in the text being searched.  Result: start offset and length. *)
Fixpoint search (r : regex) (s : text) (pos : nat) : option (nat * nat) :=
  match longest r s with
  | Some n => Some (pos, n)
  | None =>
      match s with
      | [] => None
      | _ :: s' => search r s' (S pos)
      end
  end.

End Regex.

(** ** The DocumentApp element tree

    Elements are objects shared by reference: a [RangeElement] found while
    scanning keeps pointing at its [Text] element while the tree around it is
    edited.  The tree is therefore a store of elements addressed by
    reference, each with its parent link and its ordered children. *)
Module DocumentApp.

Inductive ElementType : Set :=
| BODY_SECTION | HEADER_SECTION | FOOTER_SECTION | FOOTNOTE_SECTION
| PARAGRAPH | LIST_ITEM | TABLE | TABLE_ROW | TABLE_CELL
| TEXT | INLINE_IMAGE | HORIZONTAL_RULE | PAGE_BREAK.

Global Instance ElementType_eq_dec : EqDecision ElementType.
Proof. solve_decision. Defined.

Inductive GlyphType : Set :=
| BULLET | HOLLOW_BULLET | SQUARE_BULLET | NUMBER
| LATIN_UPPER | LATIN_LOWER | ROMAN_UPPER | ROMAN_LOWER.

Global Instance GlyphType_eq_dec : EqDecision GlyphType.
Proof. solve_decision. Defined.

Abbreviation ref := nat.

Record Element : Type := mkElement {
  e_type : ElementType;
  e_parent : option ref;        (* [getParent()], [None] for null *)
  e_children : list ref;        (* [getChild(i)] *)
  e_text : text;                (* characters of a TEXT element *)
  e_glyph : option GlyphType    (* glyph of a LIST_ITEM *)
}.

Definition with_text (e : Element) (s : text) : Element :=
  mkElement (e_type e) (e_parent e) (e_children e) s (e_glyph e).
Definition with_children (e : Element) (cs : list ref) : Element :=
  mkElement (e_type e) (e_parent e) cs (e_text e) (e_glyph e).
Definition with_parent (e : Element) (p : option ref) : Element :=
  mkElement (e_type e) p (e_children e) (e_text e) (e_glyph e).
Definition with_glyph (e : Element) (g : option GlyphType) : Element :=
  mkElement (e_type e) (e_parent e) (e_children e) (e_text e) g.

Abbreviation heap := (list Element).

Record Footnote : Type := mkFootnote { getFootnoteContents : ref }.

Record Document : Type := mkDocument {
  getHeader : option ref;
  getBody : option ref;
  getFooter : option ref;
  getFootnotes : list Footnote
}.

Record RangeElement : Type := mkRange {
  getElement : ref;
  getStartOffset : Z;
  getEndOffsetInclusive : Z;
  isPartial : bool
}.

(** *** Computations on the document: state and exceptions

    [None] stands for a thrown exception, which aborts the script. *)
Definition M (A : Type) : Type := heap -> option (A * heap).

Global Instance M_ret : MRet M := fun A a h => Some (a, h).
Global Instance M_bind : MBind M := fun A B f m h =>
  match m h with
  | Some (a, h') => f a h'
  | None => None
  end.

Definition throw {A : Type} : M A := fun _ => None.
Definition read {A : Type} (f : heap -> option A) : M A :=
  fun h => match f h with Some a => Some (a, h) | None => None end.
Definition modify (r : ref) (f : Element -> Element) : M unit :=
  fun h => match h !! r with
           | Some e => Some (tt, <[r := f e]> h)
           | None => None
           end.
(** dereferencing a possibly null reference *)
Definition nonnull {A : Type} (o : option A) : M A :=
  match o with Some a => mret a | None => throw end.

(** *** Reading *)

Definition getType (r : ref) : M ElementType :=
  read (fun h => e_type <$> h !! r).
Definition getParent (r : ref) : M (option ref) :=
  read (fun h => e_parent <$> h !! r).
Definition getGlyphType (r : ref) : M (option GlyphType) :=
  read (fun h => e_glyph <$> h !! r).
Definition getNumChildren (r : ref) : M Z :=
  read (fun h => (fun e => Z.of_nat (length (e_children e))) <$> h !! r).

Definition join_lines (l : list text) : text :=
  match l with
  | [] => []
  | s :: l' => s ++ concat (map (fun s' => JS.newline :: s') l')
  end.

(** [asText().getText()]: the characters of a TEXT element; for a paragraph
    or list item the concatenation of its children's text; for a container
    of blocks, rows or cells its children's text separated by newlines.
    The recursion follows child references; [fuel] bounds its depth. *)
Fixpoint text_of (fuel : nat) (h : heap) (r : ref) : option text :=
  match fuel with
  | O => None
  | S fuel' =>
      match h !! r with
      | None => None
      | Some e =>
          match e_type e with
          | TEXT => Some (e_text e)
          | PARAGRAPH | LIST_ITEM =>
              (fun l => concat l) <$> mapM (text_of fuel' h) (e_children e)
          | _ => join_lines <$> mapM (text_of fuel' h) (e_children e)
          end
      end
  end.

Definition getText (r : ref) : M text :=
  read (fun h => text_of (length h) h r).

(** The TEXT elements below [r], in document order. *)
Fixpoint text_elements (fuel : nat) (h : heap) (r : ref) : option (list ref) :=
  match fuel with
  | O => None
  | S fuel' =>
      match h !! r with
      | None => None
      | Some e =>
          match e_type e with
          | TEXT => Some [r]
          | _ => (fun l => concat l) <$> mapM (text_elements fuel' h) (e_children e)
          end
      end
  end.

Definition content (h : heap) (r : ref) : text :=
  match h !! r with Some e => e_text e | None => [] end.

(** position of the first occurrence of [x] *)
Definition index_of (x : ref) (l : list ref) : option nat :=
  fst <$> list_find (fun y => y = x) l.

(** The range of the [n] characters from offset [st] of the text [s] of
    the element [e]. *)
Definition range_at (s : text) (e : ref) (st n : nat) : RangeElement :=
  mkRange e (Z.of_nat st) (Z.of_nat st + Z.of_nat n - 1)
    (negb ((st =? 0)%nat && (n =? length s)%nat)).

(** The first match of [pattern] in the elements [es]: the first element
    is searched from offset [off], the following ones from their start. *)
Fixpoint find_first (h : heap) (pattern : Regex.regex) (es : list ref)
    (off : nat) : option RangeElement :=
  match es with
  | [] => None
  | e :: es' =>
      let s := content h e in
      match Regex.search pattern (drop off s) off with
      | Some (st, n) => Some (range_at s e st n)
      | None => find_first h pattern es' 0
      end
  end.

(** [docPart.findText(pattern)] and [docPart.findText(pattern, from)]:
    the search resumes right after the end of [from]. *)
Definition findText (h : heap) (docPart : ref) (pattern : Regex.regex)
    (from : option RangeElement) : option (option RangeElement) :=
  es ← text_elements (length h) h docPart;
  match from with
  | None => Some (find_first h pattern es 0)
  | Some rg =>
      i ← index_of (getElement rg) es;
      Some (find_first h pattern (drop i es)
              (Z.to_nat (getEndOffsetInclusive rg + 1)))
  end.

(** *** Editing text *)

(** [text.deleteText(startOffset, endOffsetInclusive)] *)
Definition deleteText (element : ref) (startOffset endOffsetInclusive : Z) : M unit :=
  fun h =>
    match h !! element with
    | Some e =>
        if (0 <=? startOffset) && (startOffset <=? endOffsetInclusive)
           && (endOffsetInclusive <? JS.len (e_text e))
        then Some (tt, <[element := with_text e
               (take (Z.to_nat startOffset) (e_text e)
                ++ drop (Z.to_nat (endOffsetInclusive + 1)) (e_text e))]> h)
        else None
    | None => None
    end.

(** [text.insertText(offset, s)] *)
Definition insertText (element : ref) (offset : Z) (s : text) : M unit :=
  fun h =>
    match h !! element with
    | Some e =>
        if (0 <=? offset) && (offset <=? JS.len (e_text e))
        then Some (tt, <[element := with_text e
               (take (Z.to_nat offset) (e_text e) ++ s
                ++ drop (Z.to_nat offset) (e_text e))]> h)
        else None
    | None => None
    end.

(** *** Editing the tree *)

(** [container.getChildIndex(child)]; raises "Element does not contain the
    specified child element" when [child] is not a child of [container]. *)
Definition getChildIndex (container child : ref) : M Z :=
  read (fun h => e ← h !! container;
                 i ← index_of child (e_children e);
                 Some (Z.of_nat i)).

(** [row.getCell(j)] *)
Definition getCell (row : ref) (j : Z) : M ref :=
  read (fun h => e ← h !! row;
                 if 0 <=? j then e_children e !! Z.to_nat j else None).

Definition getNumCells (row : ref) : M Z := getNumChildren row.

(** [row.getParentTable()] *)
Definition getParentTable (row : ref) : M (option ref) := getParent row.

Definition alloc (e : Element) : M ref :=
  fun h => Some (length h, h ++ [e]).

(** [part.insertListItem(childIndex, s)]: creates a list item holding the
    text [s] and makes it the child number [childIndex] of [part]. *)
Definition insertListItem (part : ref) (childIndex : Z) (s : text) : M ref :=
  n ← getNumChildren part;
  if (0 <=? childIndex) && (childIndex <=? n) then
    item ← alloc (mkElement LIST_ITEM (Some part) [] [] None);
    txt ← alloc (mkElement TEXT (Some item) [] s None);
    modify item (fun e => with_children e [txt]);;
    modify part (fun e => with_children e
      (take (Z.to_nat childIndex) (e_children e) ++ item
       :: drop (Z.to_nat childIndex) (e_children e)));;
    mret item
  else throw.

Definition setGlyphType (item : ref) (g : option GlyphType) : M unit :=
  modify item (fun e => with_glyph e g).

(** [element.removeFromParent()] *)
Definition removeFromParent (r : ref) : M unit :=
  p ← getParent r;
  match p with
  | None => mret tt
  | Some p =>
      modify p (fun e => with_children e
                  (filter (fun c => c ≠ r) (e_children e)));;
      modify r (fun e => with_parent e None)
  end.

(** [table.removeRow(rowIndex)] *)
Definition removeRow (table : ref) (rowIndex : Z) : M unit :=
  n ← getNumChildren table;
  if (0 <=? rowIndex) && (rowIndex <? n) then
    row ← read (fun h => e ← h !! table; e_children e !! Z.to_nat rowIndex);
    modify table (fun e => with_children e
                    (delete (Z.to_nat rowIndex) (e_children e)));;
    modify row (fun e => with_parent e None)
  else throw.

End DocumentApp.

Import DocumentApp.

(** ** Library of functions handling text documents *)

(** An upper bound on the number of matches a search can report: every
    match covers at least one character of the part. *)
Definition search_fuel (h : heap) (docPart : ref) : nat :=
  match text_elements (length h) h docPart with
  | Some es => S (sum_list (map (fun e => length (content h e)) es))
  | None => O
  end.

(** The [while (range != null)] loop of [findAllRanges]. *)
Fixpoint findAllRanges_loop (fuel : nat) (h : heap) (docPart : ref)
    (pattern : Regex.regex) (range : option RangeElement)
    (res : list RangeElement) : option (list RangeElement) :=
  match range with
  | None => Some res
  | Some rg =>
      match fuel with
      | O => None
      | S fuel' =>
          range' ← findText h docPart pattern (Some rg);
          findAllRanges_loop fuel' h docPart pattern range' (res ++ [rg])
      end
  end.

Definition findAllRanges (h : heap) (docPart : ref) (pattern : Regex.regex)
    : option (list RangeElement) :=
  range ← findText h docPart pattern None;
  findAllRanges_loop (search_fuel h docPart) h docPart pattern range [].

Definition getStringFromRange (h : heap) (range : RangeElement) : option text :=
  str ← text_of (length h) h (getElement range);
  if isPartial range
  then Some (JS.substring str (getStartOffset range)
               (getEndOffsetInclusive range + 1))
  else Some str.

Definition getDocumentParts (document : Document) : list ref :=
  let parts := [] in
  let parts := match getHeader document with
               | Some p => parts ++ [p] | None => parts end in
  let parts := match getBody document with
               | Some p => parts ++ [p] | None => parts end in
  let parts := match getFooter document with
               | Some p => parts ++ [p] | None => parts end in
  foldl (fun parts f => parts ++ [getFootnoteContents f]) parts
    (getFootnotes document).

(** ** Library of DocMerge-specific functions *)
Module MergeHelper.

(** [<[^<>]*<[^<>\?]+\??>[^<>]*>] *)
Definition pattern : Regex.regex :=
  let open := Regex.Lit "<" in
  let close := Regex.Lit ">" in
  let no_angle := Regex.NoneOf ["<"; ">"]%char in
  Regex.Cat open
    (Regex.Cat (Regex.Star no_angle)
       (Regex.Cat open
          (Regex.Cat (Regex.Plus (Regex.NoneOf ["<"; ">"; "?"]%char))
             (Regex.Cat (Regex.Opt (Regex.Lit "?"))
                (Regex.Cat close
                   (Regex.Cat (Regex.Star no_angle) close)))))).

(** One entry of the array returned by [findAllTags]; the fields are the
    slots 0 to 6 of the source's array. *)
Record Tag : Type := mkTag {
  t_match : text;          (* "<text1<tag>text2>" *)
  t_range : RangeElement;
  t_text1 : text;
  t_tag : text;
  t_text2 : text;
  t_opt : bool;            (* true if the tag name is followed by a "?" *)
  t_part : ref
}.

(** The body of the decomposition loop.  An undefined segment of the split
    is a failure here, where the source would fail on its first use. *)
Definition decompose (h : heap) (docPart : ref) (range : RangeElement)
    : option Tag :=
  match_ ← getStringFromRange h range;
  let inner := JS.substring match_ 1 (JS.len match_ - 1) in
  let a := JS.split JS.is_angle inner in
  a0 ← a !! 0%nat;
  a1 ← a !! 1%nat;
  a2 ← a !! 2%nat;
  let opt := bool_decide (JS.substring_from a1 (JS.len a1 - 1) = ["?"%char]) in
  let tag := if opt then JS.substring a1 0 (JS.len a1 - 1) else a1 in
  Some (mkTag match_ range a0 tag a2 opt docPart).

Definition findAllTags (h : heap) (docPart : ref) : option (list Tag) :=
  ranges ← findAllRanges h docPart pattern;
  mapM (decompose h docPart) ranges.

(** The value to substitute to the tag, [None] when the replacement is
    skipped. *)
Definition resolve (map : gmap text text) (tag : Tag) : option text :=
  let opt := t_opt tag in
  let tagName := t_tag tag in
  let tagIsKnown := bool_decide (is_Some (map !! tagName)) in
  if negb tagIsKnown then
    if opt then Some [] else None
  else map !! tagName.

(** Are we in the special case where extra list items must be created? *)
Definition newItemsCase (tag : Tag) (tagValue : text) : M bool :=
  let element := getElement (t_range tag) in
  elementText ← getText element;
  let isFullRep := bool_decide (t_match tag = elementText)
                   && bool_decide (t_text1 tag = [])
                   && bool_decide (t_text2 tag = []) in
  parent ← getParent element;
  parent ← nonnull parent;
  parentType ← getType parent;
  let isItem := bool_decide (parentType = LIST_ITEM) in
  let lines := JS.split JS.is_newline tagValue in
  mret (isItem && isFullRep && (0 <? Z.of_nat (length lines))).

(** [lines.shift()]: the first line, and the lines left in the array. *)
Definition shift (lines : list text) : option text * list text :=
  match lines with
  | [] => (None, [])
  | l :: ls => (Some l, ls)
  end.

(** The replacement of the tag inside its text element. *)
Definition replace (tag : Tag) (tagValue : text) : M unit :=
  let range := t_range tag in
  let element := getElement range in
  let text1 := t_text1 tag in
  let text2 := t_text2 tag in
  let first := getStartOffset range in
  let last := getEndOffsetInclusive range in
  let replaceTxt := if 0 <? JS.len tagValue
                    then text1 ++ tagValue ++ text2 else [] in
  if 0 <? JS.len replaceTxt then
    let op_size := 1 in
    let tag_pos := first + op_size + JS.len text1 + 1 in
    deleteText element (last - op_size + 1) last;;
    deleteText element tag_pos (last - op_size - JS.len text2);;
    insertText element tag_pos tagValue;;
    deleteText element (tag_pos - op_size) (tag_pos - 1);;
    deleteText element first (first + op_size - 1)
  else
    deleteText element first last.

(** [for (var i in lines)]: one new list item per remaining line. *)
Fixpoint insertLines (part : ref) (index : Z) (glyph : option GlyphType)
    (lines : list text) : M unit :=
  match lines with
  | [] => mret tt
  | line :: lines' =>
      let index := index + 1 in
      item ← insertListItem part index line;
      setGlyphType item glyph;;
      insertLines part index glyph lines'
  end.

(** Create the new items with the remaining lines. *)
Definition newItems (tag : Tag) (lines : list text) : M unit :=
  let element := getElement (t_range tag) in
  parent ← getParent element;
  parent ← nonnull parent;
  let part := t_part tag in
  index ← getChildIndex part parent;
  glyph ← getGlyphType parent;
  insertLines part index glyph lines.

(** The loop over the cells of a row: are the cells [j], ..., [j + n - 1]
    all empty? *)
Fixpoint allEmpty_loop (r : ref) (j : Z) (n : nat) : M bool :=
  match n with
  | O => mret true
  | S n' =>
      label ← getCell r j;
      labelType ← getType label;
      if bool_decide (labelType = TABLE_CELL) then
        txt ← getText label;
        let isEmpty := (JS.len txt =? 0) in
        if isEmpty then allEmpty_loop r (j + 1) n' else mret false
      else allEmpty_loop r (j + 1) n'
  end.

(** Detect an empty table row: when [cell], the former parent of a removed
    paragraph, is a table cell and the cells of its row are all empty, the
    row is removed from its table. *)
Definition detectEmptyRow (cell : option ref) : M unit :=
  match cell with
  | None => mret tt
  | Some cell =>
      cellType ← getType cell;
      if bool_decide (cellType = TABLE_CELL) then
        r ← getParent cell;
        match r with
        | None => mret tt
        | Some r =>
            rType ← getType r;
            if bool_decide (rType = TABLE_ROW) then
              numCells ← getNumCells r;
              allEmpty ← allEmpty_loop r 0 (Z.to_nat numCells);
              if (allEmpty : bool) then
                table ← getParentTable r;
                table ← nonnull table;
                row_index ← getChildIndex table r;
                removeRow table row_index
              else mret tt
            else mret tt
        end
      else mret tt
  end.

(** If the replacement ends up creating an empty paragraph, item or table
    row, it is deleted. *)
Definition cleanup (element : ref) : M unit :=
  pg ← getParent element;
  pg ← nonnull pg;
  _ ← getType pg;
  pgText ← getText pg;
  if JS.len pgText =? 0 then
    (* backup the parent, which might be a TableCell *)
    cell ← getParent pg;
    removeFromParent pg;;
    detectEmptyRow cell
  else mret tt.

(** The body of the replacement loop for one tag. *)
Definition processTag (map : gmap text text) (tag : Tag) : M unit :=
  match resolve map tag with
  | None => mret tt      (* [continue]: the pattern stays as-is *)
  | Some tagValue =>
      let lines := JS.split JS.is_newline tagValue in
      isNewItemsCase ← newItemsCase tag tagValue;
      '(tagValue, lines) ←
        ((if (isNewItemsCase : bool)
          then (let '(l, ls) := shift lines in
                l ← nonnull l; mret (l, ls))
          else mret (tagValue, lines)) : M (text * list text));
      replace tag tagValue;;
      ((if (isNewItemsCase : bool) then newItems tag lines else mret tt)
         : M unit);;
      cleanup (getElement (t_range tag))
  end.

(** Massive search-replace, starting from the end: the tags [t - 1], ...,
    [0] are processed in this order. *)
Fixpoint merge_loop (map : gmap text text) (tags : list Tag) (t : nat)
    : M unit :=
  match t with
  | O => mret tt
  | S t' =>
      tag ← nonnull (tags !! t');
      processTag map tag;;
      merge_loop map tags t'
  end.

(** Look for tag constructs in all parts of the document. *)
Definition collectTags (h : heap) (parts : list ref) : option (list Tag) :=
  foldl (fun tags part =>
           tags ← tags;
           arr ← findAllTags h part;
           Some (tags ++ arr))
        (Some []) parts.

Definition merge (document : Document) (map : gmap text text) : M unit :=
  let parts := getDocumentParts document in
  tags ← read (fun h => collectTags h parts);
  merge_loop map tags (length tags).

End MergeHelper.

(** ** Notions used to state the properties *)

Import MergeHelper.

(** characters other than [<] and [>], and characters of a tag name *)
Definition no_angle (c : ascii) : bool := negb (JS.is_angle c).
Definition name_char (c : ascii) : bool :=
  no_angle c && negb (Ascii.eqb c "?").

(** the text [<p<t o>q>] of a tag construct *)
Definition tag_text (p t o q : text) : text :=
  "<"%char :: p ++ "<"%char :: t ++ o ++ ">"%char :: q ++ [">"%char].

Global Arguments tag_text : simpl never.

(** the optional marker after a tag name *)
Definition marker (opt : bool) : text := if opt then ["?"%char] else [].

(** the three texts of a tag construct are well-formed: no bracket in the
    surrounding texts, a non-empty name without bracket or question mark *)
Definition tag_parts (p t q : text) : Prop :=
  forallb no_angle p = true ∧ forallb name_char t = true ∧ t ≠ []
  ∧ forallb no_angle q = true.

(** All the matches of [r] in [s], from left to right and without overlap:
    [pos] is the offset of the head of [s], and the first [skip] characters
    of [s] still belong to the last match reported. *)
Fixpoint scan (r : Regex.regex) (s : text) (pos skip : nat)
    : list (nat * nat) :=
  match s with
  | [] => []
  | _ :: s' =>
      match skip with
      | S k => scan r s' (S pos) k
      | O =>
          match Regex.longest r s with
          | Some n => (pos, n) :: scan r s' (S pos) (n - 1)
          | None => scan r s' (S pos) 0
          end
      end
  end.

(** the matches in the text of the element [e], from offset [off] on *)
Definition ranges_in (h : heap) (r : Regex.regex) (e : ref) (off : nat)
    : list RangeElement :=
  map (fun m => range_at (content h e) e m.1 m.2)
      (scan r (drop off (content h e)) off 0).

(** the matches in the elements [es], the first one taken from [off] on *)
Definition ranges_from (h : heap) (r : Regex.regex) (es : list ref)
    (off : nat) : list RangeElement :=
  match es with
  | [] => []
  | e :: es' => ranges_in h r e off ++ flat_map (fun e' => ranges_in h r e' 0) es'
  end.

(** every match starts at or after [lo] and ends before the next one *)
Fixpoint ordered_from (lo : nat) (l : list (nat * nat)) : Prop :=
  match l with
  | [] => True
  | (st, n) :: l' => (lo ≤ st)%nat ∧ (0 < n)%nat ∧ ordered_from (st + n) l'
  end.

(** What a tag records about itself is coherent: the matched text is the
    tag construct made of its three texts and its marker, and the range
    covers as many characters as the matched text. *)
Definition tag_wf (tag : Tag) : Prop :=
  tag_parts (t_text1 tag) (t_tag tag) (t_text2 tag)
  ∧ t_match tag
    = tag_text (t_text1 tag) (t_tag tag) (marker (t_opt tag)) (t_text2 tag)
  ∧ 0 ≤ getStartOffset (t_range tag)
  ∧ getEndOffsetInclusive (t_range tag)
    = getStartOffset (t_range tag) + JS.len (t_match tag) - 1.

(** The recorded offsets of the tag still delimit its matched text in the
    text element it points to: the element's text is [pre], the matched
    text, then [post]. *)
Definition located (h : heap) (tag : Tag) (pre post : text) : Prop :=
  ∃ el, h !! getElement (t_range tag) = Some el
        ∧ e_type el = TEXT
        ∧ e_text el = pre ++ t_match tag ++ post
        ∧ JS.len pre = getStartOffset (t_range tag).

(** the range is a match of [r] in a text element of the store *)
Definition valid_range (h : heap) (r : Regex.regex) (rg : RangeElement)
    : Prop :=
  ∃ el st n, h !! getElement rg = Some el ∧ e_type el = TEXT
             ∧ rg = range_at (e_text el) (getElement rg) st n
             ∧ Regex.longest r (drop st (e_text el)) = Some n.

(** the store [h] where the text of the element [e] is [s] *)
Definition set_text (h : heap) (e : ref) (s : text) : heap :=
  match h !! e with
  | Some el => <[e := with_text el s]> h
  | None => h
  end.

(** the text that replaces a tag construct, given the value substituted *)
Definition replacement (tag : Tag) (tagValue : text) : text :=
  match tagValue with
  | [] => []
  | _ => t_text1 tag ++ tagValue ++ t_text2 tag
  end.

(** what the merge reads of an element when it scans and edits text *)
Definition shape (el : Element) : ElementType * text := (e_type el, e_text el).

(** [h'] keeps the type and text of every element of [h], and holds new
    elements whose texts satisfy [P] *)
Definition grows (P : text → Prop) (h h' : heap) : Prop :=
  ∃ k, map shape h' = map shape h ++ k ∧ Forall (fun x => P x.2) k.

(** every run of the computation [m] relates the store it starts from to
    the store it ends with by [R] *)
Definition preserves {A : Type} (R : heap → heap → Prop) (m : M A) : Prop :=
  ∀ h a h', m h = Some (a, h') → R h h'.

(** the value written in place of the tag: its first line in the special
    case of new list items, the value itself otherwise *)
Definition inPlaceValue (isNewItemsCase : bool) (tagValue : text) : text :=
  if isNewItemsCase then hd [] (JS.split JS.is_newline tagValue)
  else tagValue.

(** the texts of the elements created for a value: the empty text of a
    list item, or a line of the value *)
Definition line_of (tagValue s : text) : Prop :=
  s = [] ∨ s ∈ JS.split JS.is_newline tagValue.

(** ** Sample documents *)

Definition elem (ty : ElementType) (parent : option ref) (children : list ref)
    : Element :=
  mkElement ty parent children [] None.

Definition text_elem (parent : ref) (s : string) : Element :=
  mkElement TEXT (Some parent) [] (T s) None.

(** a document made of a body only, stored at reference 0 *)
Definition body_only : Document := mkDocument None (Some 0%nat) None [].

(** a body with the single paragraph "Hello <<Name>> World" *)
Definition hello_heap : heap :=
  [ elem BODY_SECTION None [1%nat];
    elem PARAGRAPH (Some 0%nat) [2%nat];
    text_elem 1 "Hello <<Name>> World" ].

Definition hello_map : gmap text text := {[ T "Name" := T "Bob" ]}.

Definition hello_tag : Tag :=
  mkTag (T "<<Name>>") (mkRange 2 6 13 true) [] (T "Name") [] false 0.

(** a body with a numbered list item "<<F>>" followed by a paragraph *)
Definition item_heap : heap :=
  [ elem BODY_SECTION None [1%nat; 3%nat];
    mkElement LIST_ITEM (Some 0%nat) [2%nat] [] (Some NUMBER);
    text_elem 1 "<<F>>";
    elem PARAGRAPH (Some 0%nat) [4%nat];
    text_elem 3 "end" ].

Definition item_tag : Tag :=
  mkTag (T "<<F>>") (mkRange 2 0 4 false) [] (T "F") [] false 0.

Definition lines_AB : text := T "A" ++ [JS.newline] ++ T "B".

Definition item_map : gmap text text := {[ T "F" := lines_AB ]}.

(** a body with the single paragraph "<a<>b>", a construct without tag name *)
Definition empty_name_heap : heap :=
  [ elem BODY_SECTION None [1%nat];
    elem PARAGRAPH (Some 0%nat) [2%nat];
    text_elem 1 "<a<>b>" ].

(** a body whose paragraph holds a construct with an empty name between two
    tags *)
Definition beside_heap : heap :=
  [ elem BODY_SECTION None [1%nat];
    elem PARAGRAPH (Some 0%nat) [2%nat];
    text_elem 1 "<<A>> <a<>b> <<C>>" ].

(** the text elements of the parts of a document, in the order of the scan *)
Definition all_text_elements (h : heap) (parts : list ref)
    : option (list ref) :=
  (fun l => concat l) <$> mapM (text_elements (length h) h) parts.

(** a body with two paragraphs, "<<A>> and <x<B?>y> or <<D>>" and "<<C>>" *)
Definition two_par_heap : heap :=
  [ elem BODY_SECTION None [1%nat; 3%nat];
    elem PARAGRAPH (Some 0%nat) [2%nat];
    text_elem 1 "<<A>> and <x<B?>y> or <<D>>";
    elem PARAGRAPH (Some 0%nat) [4%nat];
    text_elem 3 "<<C>>" ].

(** The states of the replacement loop started in the store [h0]:
    [loop_state map tags h0 t h] when the loop reaches the store [h] with
    [t] tags left to process, the tags [t], [t + 1], ... being done. *)
Inductive loop_state (map : gmap text text) (tags : list Tag) (h0 : heap)
    : nat → heap → Prop :=
| loop_start : loop_state map tags h0 (length tags) h0
| loop_step t tag h h' :
    loop_state map tags h0 (S t) h →
    tags !! t = Some tag →
    processTag map tag h = Some (tt, h') →
    loop_state map tags h0 t h'.

(** the offset behind the last character of the match of a tag *)
Definition upto (tag : Tag) : nat :=
  Z.to_nat (getEndOffsetInclusive (t_range tag) + 1).

(** of two tags in the same text element, the first of the list ends
    before the second starts *)
Definition sorted_tags (tags : list Tag) : Prop :=
  ∀ i j ti tj,
    (i < j)%nat → tags !! i = Some ti → tags !! j = Some tj →
    getElement (t_range ti) = getElement (t_range tj) →
    getEndOffsetInclusive (t_range ti) < getStartOffset (t_range tj).

(** the text of the element of each of the first [t] tags starts as it did
    in [h0], up to the end of the match of the tag *)
Definition prefixes_kept (tags : list Tag) (h0 : heap) (t : nat) (h : heap)
    : Prop :=
  ∀ i tag, (i < t)%nat → tags !! i = Some tag →
    ∃ el post,
      h !! getElement (t_range tag) = Some el ∧ e_type el = TEXT
      ∧ e_text el
        = take (upto tag) (content h0 (getElement (t_range tag))) ++ post.

Definition abc_map : gmap text text := {[ T "A" := T "1"; T "C" := T "3" ]}.

(** A text in which every tag construct is one that the merge skips: it is
    made of characters other than brackets and of tag constructs that are
    not optional and whose name the field map lacks. *)
Inductive settled (map : gmap text text) : text → Prop :=
| settled_nil : settled map []
| settled_char c s :
    no_angle c = true → settled map s → settled map (c :: s)
| settled_tag p t q s :
    tag_parts p t q → map !! t = None → settled map s →
    settled map (tag_text p t [] q ++ s).

(** the end of the last match that the tags [tags] have in the element [e] *)
Definition frontier (tags : list Tag) (e : ref) : nat :=
  foldr (fun tag acc =>
           if bool_decide (getElement (t_range tag) = e)
           then Nat.max (upto tag) acc else acc)
        0%nat tags.

(** the character [k] of the element [e] lies in the match of a tag *)
Definition covered (tags : list Tag) (e : ref) (k : nat) : bool :=
  existsb (fun tag =>
             bool_decide (getElement (t_range tag) = e)
             && (getStartOffset (t_range tag) <=? Z.of_nat k)
             && (Z.of_nat k <=? getEndOffsetInclusive (t_range tag)))
          tags.

(** every bracket of the text [s], whose first character has offset [k] in
    the element [e], lies in the match of a tag *)
Fixpoint text_covered (tags : list Tag) (e : ref) (s : text) (k : nat)
    : bool :=
  match s with
  | [] => true
  | c :: s' =>
      (no_angle c || covered tags e k) && text_covered tags e s' (S k)
  end.

(** every bracket of every text element of the store [h], whose first
    element has reference [e], lies in the match of a tag *)
Fixpoint heap_covered (tags : list Tag) (h : heap) (e : ref) : bool :=
  match h with
  | [] => true
  | el :: h' =>
      (if bool_decide (e_type el = TEXT)
       then text_covered tags e (e_text el) 0 else true)
      && heap_covered tags h' (S e)
  end.

(** the text of every text element is the text it had in [h0] up to the end
    of the last match of the first [t] tags, followed by a settled text *)
Definition tails_settled (map : gmap text text) (tags : list Tag)
    (h0 : heap) (t : nat) (h : heap) : Prop :=
  (length h0 ≤ length h)%nat
  ∧ ∀ e el, h !! e = Some el → e_type el = TEXT →
      ∃ post,
        e_text el = take (frontier (take t tags) e) (content h0 e) ++ post
        ∧ settled map post.

(** a body whose paragraph "<<A>>" is filled with a value that is itself a
    tag construct *)
Definition loop_heap : heap :=
  [ elem BODY_SECTION None [1%nat];
    elem PARAGRAPH (Some 0%nat) [2%nat];
    text_elem 1 "<<A>>" ].

Definition loop_map : gmap text text := {[ T "A" := T "<<A>>" ]}.

Definition loop_tag : Tag :=
  mkTag (T "<<A>>") (mkRange 2 0 4 false) [] (T "A") [] false 0.

(** the tags of the two paragraphs, and the store after their merge with
    the values of [abc_map] *)
Definition two_par_tags : list Tag :=
  Eval vm_compute in
    default [] (collectTags two_par_heap (getDocumentParts body_only)).

Definition two_par_merged : heap :=
  Eval vm_compute in
    match merge body_only abc_map two_par_heap with
    | Some (_, h) => h
    | None => []
    end.

(** ** Well-formed stores *)

(** the type of the parent of an element *)
Definition parent_type (h : heap) (el : Element) : option ElementType :=
  p ← e_parent el; e_type <$> h !! p.

(** a text belongs to a paragraph or a list item, a table cell to a table
    row, a table row to a table *)
Definition type_ok (h : heap) (el : Element) : bool :=
  match e_type el, parent_type h el with
  | TEXT, Some ty => bool_decide (ty = PARAGRAPH ∨ ty = LIST_ITEM)
  | TABLE_CELL, Some ty => bool_decide (ty = TABLE_ROW)
  | TABLE_ROW, Some ty => bool_decide (ty = TABLE)
  | _, _ => true
  end.

(** The element [el] stored at [r] is well linked: its parent, if any, is
    another element that lists it as a child; its children are distinct
    elements whose parent it is; its text is defined, the tree below it
    being finite; and the types above it are as [type_ok] says. *)
Definition wf_element (h : heap) (r : ref) (el : Element) : bool :=
  match e_parent el with
  | None => true
  | Some p =>
      bool_decide (p ≠ r)
      && match h !! p with
         | Some pE => bool_decide (r ∈ e_children pE)
         | None => false
         end
  end
  && forallb (fun c => match h !! c with
                       | Some cE => bool_decide (e_parent cE = Some r)
                       | None => false
                       end) (e_children el)
  && bool_decide (NoDup (e_children el))
  && bool_decide (is_Some (text_of (length h) h r))
  && type_ok h el.

Fixpoint wf_from (h l : heap) (r : ref) : bool :=
  match l with
  | [] => true
  | el :: l' => wf_element h r el && wf_from h l' (S r)
  end.

Definition wf_heap (h : heap) : bool := wf_from h h 0.

(** the table row of the cell that holds the paragraph or list item [pgE],
    when it is held by a table cell *)
Definition row_of (h : heap) (pgE : Element) : option ref :=
  cell ← e_parent pgE;
  cellE ← h !! cell;
  if bool_decide (e_type cellE = TABLE_CELL) then e_parent cellE else None.

(** all the cells of the row [rE] are empty in the store [h] *)
Definition row_empty (h : heap) (rE : Element) : Prop :=
  ∀ c cE, c ∈ e_children rE → h !! c = Some cE → e_type cE = TABLE_CELL →
    text_of (length h) h c = Some [].

(** [h1] has the elements of [h], with the same types and texts and with
    some children removed *)
Definition sub_heap (h1 h : heap) : Prop :=
  length h1 = length h
  ∧ ∀ r el, h !! r = Some el →
      ∃ el1, h1 !! r = Some el1 ∧ e_type el1 = e_type el
             ∧ e_text el1 = e_text el
             ∧ e_children el1 `sublist_of` e_children el.

(** ** New list items *)

(** the elements that [insertLines] adds to a store of [base] elements, one
    list item and its text for each line, and the references of the items *)
Fixpoint new_elements (part : ref) (glyph : option GlyphType) (base : nat)
    (lines : list text) : list Element :=
  match lines with
  | [] => []
  | line :: lines' =>
      mkElement LIST_ITEM (Some part) [S base] [] glyph
      :: mkElement TEXT (Some base) [] line None
      :: new_elements part glyph (S (S base)) lines'
  end.

Fixpoint new_refs (base : nat) (lines : list text) : list ref :=
  match lines with
  | [] => []
  | _ :: lines' => base :: new_refs (S (S base)) lines'
  end.

(** the number of list items among the children of [part] *)
Definition count_items (h : heap) (part : ref) : nat :=
  match h !! part with
  | Some partE =>
      length (filter (fun c => e_type <$> h !! c = Some LIST_ITEM)
                (e_children partE))
  | None => 0
  end.

(** The store after the processing of a tag that fills the list item
    [item], child of [part] between [before] and [after], with a value whose
    lines are [firstLine :: rest]: the text of the item is the first line,
    the new items stand behind it, and an emptied item is removed. *)
Definition expanded (h : heap) (part item element : ref)
    (partE itemE : Element) (before after : list ref) (firstLine : text)
    (rest : list text) : heap :=
  let news := new_refs (length h) rest in
  let h2 := <[part := with_children partE (before ++ item :: news ++ after)]>
              (set_text h element firstLine)
            ++ new_elements part (e_glyph itemE) (length h) rest in
  match firstLine with
  | [] => <[item := with_parent itemE None]>
            (<[part := with_children partE (before ++ news ++ after)]> h2)
  | _ => h2
  end.

(** The tag [tag] is the whole content of the list item [item]: its text
    element is the only child of the item and the match is all its text,
    without literal prefix or suffix. *)
Definition fills_item (h : heap) (tag : Tag) (item : ref) (itemE : Element)
    : Prop :=
  let element := getElement (t_range tag) in
  ∃ el, h !! element = Some el ∧ e_type el = TEXT
        ∧ e_text el = t_match tag
        ∧ t_text1 tag = [] ∧ t_text2 tag = []
        ∧ getStartOffset (t_range tag) = 0
        ∧ e_parent el = Some item
        ∧ h !! item = Some itemE ∧ e_type itemE = LIST_ITEM
        ∧ e_children itemE = [element].

(** The list item [itemE] is a child of the document part in which [tag]
    was found, a section of the document. *)
Definition item_of_part (h : heap) (tag : Tag) (itemE partE : Element)
    : Prop :=
  e_parent itemE = Some (t_part tag)
  ∧ h !! t_part tag = Some partE
  ∧ e_type partE ≠ TABLE_CELL ∧ e_type partE ≠ TEXT.


(** a body with a table of one cell, which holds the bulleted list item
    "<<F>>" *)
Definition nested_item_heap : heap :=
  [ elem BODY_SECTION None [1%nat];
    elem TABLE (Some 0%nat) [2%nat];
    elem TABLE_ROW (Some 1%nat) [3%nat];
    elem TABLE_CELL (Some 2%nat) [4%nat];
    mkElement LIST_ITEM (Some 3%nat) [5%nat] [] (Some BULLET);
    text_elem 4 "<<F>>" ].

Definition single_map : gmap text text := {[ T "F" := T "x" ]}.

(** the field map of a row whose cell "F" is empty *)
Definition empty_value_map : gmap text text := {[ T "F" := [] ]}.

(** a body with a table of two rows: the cells of the first row hold an empty
    paragraph and a paragraph with an emptied text, the cell of the second
    row holds some text *)
Definition table_heap : heap :=
  [ elem BODY_SECTION None [1%nat];
    elem TABLE (Some 0%nat) [2%nat; 8%nat];
    elem TABLE_ROW (Some 1%nat) [3%nat; 5%nat];
    elem TABLE_CELL (Some 2%nat) [4%nat];
    elem PARAGRAPH (Some 3%nat) [];
    elem TABLE_CELL (Some 2%nat) [6%nat];
    elem PARAGRAPH (Some 5%nat) [7%nat];
    text_elem 6 "";
    elem TABLE_ROW (Some 1%nat) [9%nat];
    elem TABLE_CELL (Some 8%nat) [10%nat];
    elem PARAGRAPH (Some 9%nat) [11%nat];
    text_elem 10 "Du texte." ].

(** the tag of the list item of [nested_item_heap] *)
Definition nested_tag : Tag :=
  mkTag (T "<<F>>") (mkRange 5 0 4 false) [] (T "F") [] false 0.

(** a text without line break *)
Definition single_line (s : text) : bool :=
  forallb (fun c => negb (JS.is_newline c)) s.

(** the same table, the first cell of the first row now holding "x" *)
Definition table_kept_heap : heap :=
  <[4%nat := elem PARAGRAPH (Some 3%nat) [12%nat]]> table_heap
  ++ [text_elem 4 "x"].

(** * The code around the merge engine

    The other helpers of the document library ([findAll]), the general
    purpose functions of the shared library (libfactory/src/LibMisc.js) that
    prepare the field map handed to [merge], and the range helpers
    (libfactory/src/LibGoogleApi.js) with which the data table that holds
    the rows to merge is addressed. *)

(** ** Library of functions handling text documents, continued *)

(** [findAll(docPart, pattern, unique)]: the strings matching a pattern in a
    document part, without repetition when [unique] is set. *)
Definition findAll (h : heap) (docPart : ref) (pattern : Regex.regex)
    (unique : bool) : option (list text) :=
  ranges ← findAllRanges h docPart pattern;
  foldl (fun res range =>
           res ← res;
           str ← getStringFromRange h range;
           Some (if negb unique || bool_decide (str ∉ res)
                 then res ++ [str] else res))
        (Some []) ranges.

(** ** Built-in methods of strings and arrays *)
Module Str.

(** The characters below 256 that [\s] and [trim] take for white space:
    tab, line feed, vertical tab, form feed, carriage return, space and
    no-break space. *)
Definition is_space (c : ascii) : bool :=
  existsb (Ascii.eqb c)
    ["009"; "010"; "011"; "012"; "013"; " "; "160"]%char.

Fixpoint trimStart (s : text) : text :=
  match s with
  | [] => []
  | c :: s' => if is_space c then trimStart s' else s
  end.

Definition trimEnd (s : text) : text := reverse (trimStart (reverse s)).

(** [s.trim()] *)
Definition trim (s : text) : text := trimEnd (trimStart s).

(** [a.join(separator)] *)
Fixpoint join (separator : text) (a : list text) : text :=
  match a with
  | [] => []
  | x :: a' =>
      match a' with
      | [] => x
      | _ :: _ => x ++ separator ++ join separator a'
      end
  end.

(** [s.split(re)] for a regular expression [re] of the form [[...]+], a
    non-empty run of characters of the class [sep]: the pieces of [s]
    between the maximal runs of separators, an empty piece standing before a
    leading run and after a trailing one.  [in_sep] tells that the previous
    character was a separator. *)
Fixpoint split_plus (sep : ascii → bool) (in_sep : bool) (s : text)
    : list text :=
  match s with
  | [] => [[]]
  | c :: s' =>
      if sep c then
        if in_sep then split_plus sep true s'
        else [] :: split_plus sep true s'
      else
        match split_plus sep false s' with
        | [] => [[c]]
        | w :: ws => (c :: w) :: ws
        end
  end.

End Str.

(** ** Library of general purpose functions (LibMisc.js)

    A [Map] with string keys is a finite map; the order of its entries,
    which none of these functions depends on, is not kept. *)
Module LF.

(** [mapDiff(m1, m2)]: the items of the second map that are new with respect
    to the first one.  The loop runs over [m2] and deletes from a copy of
    it. *)
Definition mapDiff (m1 m2 : gmap text text) : gmap text text :=
  map_fold (fun k v m =>
              if bool_decide (m1 !! k = Some v) then delete k m else m)
           m2 m2.

(** [getValue(key, map)]: the non-empty value of [key], [None] standing
    for [false]. *)
Definition getValue (key : text) (map : gmap text text) : option text :=
  match map !! key with
  | None => None
  | Some v => if JS.len v =? 0 then None else Some v
  end.

(** [inc(map, key, delta)], on integer counters.  The numbers of the code
    are doubles, which hold the integers up to 2^53 in absolute value and add
    them exactly as long as the sum stays in this range: the counters are
    modelled in this range, that of the counts of [run]. *)
Definition inc (map : gmap text Z) (key : text) (delta : Z) : gmap text Z :=
  let map := if bool_decide (is_Some (map !! key)) then map
             else <[key := 0]> map in
  match map !! key with
  | Some c => <[key := c + delta]> map
  | None => map
  end.

(** [trimStringsInMap(map)]: every value of the map, a string or
    [undefined] ([None]), is replaced by its trimmed string. *)
Definition trimStringsInMap (map : gmap text (option text))
    : gmap text text :=
  (fun v => match v with
            | None => []
            | Some s => Str.trim s
            end) <$> map.

(** [stringToRegex(s)]: a backslash is put before each special character. *)
Definition is_special (c : ascii) : bool :=
  existsb (Ascii.eqb c)
    ["-"; "/"; "\"; "^"; "$"; "*"; "+"; "?"; "."; "("; ")"; "|";
     "["; "]"; "{"; "}"]%char.

Definition stringToRegex (s : text) : text :=
  flat_map (fun c => if is_special c then ["\"%char; c] else [c]) s.

(** [itemsInString(s, regexp)] for a regular expression [[...]+] given by
    its class of characters, the form in which its callers use it *)
Definition itemsInString (s : text) (regexp : ascii → bool) : list text :=
  let a := Str.split_plus regexp false s in
  filter (fun e => e ≠ []) a.

(** [quotedItemsInString(s, quote)]; the separator is the double quote,
    whatever [quote] is. *)
Definition quotedItemsInString (s : text) (quote : text) : list text :=
  let a := JS.split (fun c => Ascii.eqb c "034"%char) s in
  snd <$> filter (fun p => (p.1 mod 2 = 1)%nat ∧ p.2 ≠ []) (imap pair a).

(** the separator used to generate a list as a string *)
Definition DATATABLE_LIST_SEPARATOR : text := T " ".

(** the class of ["[\\s,;]+"] *)
Definition list_separator (c : ascii) : bool :=
  Str.is_space c || Ascii.eqb c ","%char || Ascii.eqb c ";"%char.

(** [DataTable.getValueAsList(label, m)] *)
Definition getValueAsList (label : text) (m : gmap text text) : list text :=
  match getValue label m with
  | Some v => itemsInString v list_separator
  | None => []
  end.

End LF.

(** ** Ranges of cells (SpreadsheetApp)

    A range is a rectangle of cells of a sheet, given by its top left cell
    and its numbers of rows and columns. *)
Module SpreadsheetApp.

Record Range : Type := mkCells {
  getSheet : nat;
  getRow : Z;
  getColumn : Z;
  getNumRows : Z;
  getNumColumns : Z
}.

Definition getLastRow (r : Range) : Z := getRow r + getNumRows r - 1.

Definition getLastColumn (r : Range) : Z := getColumn r + getNumColumns r - 1.

(** [sheet.getRange(row, column, numRows, numColumns)] *)
Definition getRange (sheet : nat) (row column numRows numColumns : Z)
    : Range :=
  mkCells sheet row column numRows numColumns.

(** [r.offset(rowOffset, columnOffset, numRows)] *)
Definition offset3 (r : Range) (rowOffset columnOffset numRows : Z) : Range :=
  mkCells (getSheet r) (getRow r + rowOffset) (getColumn r + columnOffset)
    numRows (getNumColumns r).

(** [r.offset(rowOffset, columnOffset, numRows, numColumns)] *)
Definition offset4 (r : Range) (rowOffset columnOffset numRows numColumns : Z)
    : Range :=
  mkCells (getSheet r) (getRow r + rowOffset) (getColumn r + columnOffset)
    numRows numColumns.

(** the values of the cells of a sheet, by row and column *)
Definition Values : Type := Z → Z → text.

(** [r.getValues()]: the values of the range, row by row *)
Definition getValues (r : Range) (s : Values) : list (list text) :=
  (fun i => (fun j => s (getRow r + i) (getColumn r + j))
              <$> seqZ 0 (getNumColumns r))
    <$> seqZ 0 (getNumRows r).

(** [r.getCell(row, column)]: a cell given by its position in the range *)
Definition getCell (r : Range) (row column : Z) : Range :=
  mkCells (getSheet r) (getRow r + row - 1) (getColumn r + column - 1) 1 1.

(** [r.setValue(v)]: every cell of the range takes the value *)
Definition setValue (r : Range) (v : text) (s : Values) : Values :=
  fun i j =>
    if (getRow r <=? i) && (i <=? getLastRow r)
       && (getColumn r <=? j) && (j <=? getLastColumn r)
    then v else s i j.

(** [r.getValue()]: the value of the top left cell *)
Definition getValue (r : Range) (s : Values) : text :=
  s (getRow r) (getColumn r).

End SpreadsheetApp.

(** ** Class SheetHelper (LibGoogleApi.js) *)
Module SheetHelper.
Import SpreadsheetApp.

(** Return true if two ranges intersect. *)
Definition rangeIntersect (r1 r2 : Range) : bool :=
  (getLastRow r1 >=? getRow r2) && (getLastRow r2 >=? getRow r1)
  && (getLastColumn r1 >=? getColumn r2)
  && (getLastColumn r2 >=? getColumn r1).

(** Returns a range which is the first n rows of r. *)
Definition getFirstRows (r : Range) (n : Z) : Range :=
  getRange (getSheet r) (getRow r) (getColumn r) n (getNumColumns r).

(** Returns a range which is the last n rows of r, as the comment of the
    function has it; the third argument of [getRange] is a number of
    rows. *)
Definition getLastRows (r : Range) (n : Z) : Range :=
  getRange (getSheet r) (getLastRow r - n) (getColumn r) (getLastRow r)
    (getNumColumns r).

(** Returns a range which is made of n rows just below r. *)
Definition getRowsBelow (r : Range) (n : Z) : Range :=
  getRange (getSheet r) (getRow r + 1) (getColumn r) n (getNumColumns r).

(** Returns a range which is made of column number n in r. *)
Definition getColumn (r : Range) (n : Z) : Range :=
  getRange (getSheet r) (getRow r) (SpreadsheetApp.getColumn r + n - 1)
    (getNumRows r) 1.

End SheetHelper.

(** ** Class DataTable (LibMisc.js): the ranges of a table

    A data table is a range whose first row is the header.  A failed
    assertion raises an exception: [None]. *)
Module DataTable.
Import SpreadsheetApp.

Section table.

Variable r : Range.

Definition getNumRows : Z := SpreadsheetApp.getNumRows r - 1.

Definition isEmpty : bool := getNumRows =? 0.

Definition getNumColumns : Z := SpreadsheetApp.getNumColumns r.

Definition getHeader : Range := offset3 r 0 0 1.

Definition getRows (i nb : Z) : option Range :=
  let n := getNumRows in
  if (1 <=? i) && (i + nb - 1 <=? n)
  then Some (offset3 getHeader i 0 nb)
  else None.

Definition getRow (i : Z) : option Range := getRows i 1.

Definition getLastRow : option Range := getRow getNumRows.

Definition getColumns (j nb : Z) : option Range :=
  let n := getNumColumns in
  if (1 <=? j) && (j + nb - 1 <=? n)
  then Some (offset4 r 0 (j - 1) (SpreadsheetApp.getNumRows r) nb)
  else None.

Definition getColumn (j : Z) : option Range := getColumns j 1.

(** the data part, [Some None] standing for [null] *)
Definition getData : option (option Range) :=
  let n := getNumRows in
  if n =? 0 then Some None else Some <$> getRows 1 n.

(** *** The values of a table, in the sheet [s] *)

Variable s : Values.

Definition getHeaderAsVector : list text :=
  default [] (head (getValues getHeader s)).

Definition getRowAsVector (i : Z) : option (list text) :=
  rows ← getRows i 1;
  head (getValues rows s).

(** The map of column label to column index, from 1.  It is computed at
    its first use and kept: [s] is the sheet at that time. *)
Definition getMap : gmap text Z :=
  foldl (fun map p => <[p.2 := p.1 + 1]> map) ∅
    (imap (fun j label => (Z.of_nat j, label)) getHeaderAsVector).

Definition has (label : text) : bool :=
  bool_decide (is_Some (getMap !! label)).

(** the map of column label to cell value of a row; [None] stands for
    [undefined] *)
Definition getRowAsMap (i : Z) : option (gmap text (option text)) :=
  vec ← getRowAsVector i;
  Some ((fun j => vec !! Z.to_nat (j - 1)) <$> getMap).

(** [getRowsAsMaps(i, nb)]: the maps of the rows [i] to [i + nb - 1], by
    row number *)
Definition getRowsAsMaps (i nb : Z)
    : option (gmap Z (gmap text (option text))) :=
  foldl (fun m k =>
           m ← m;
           row ← getRowAsMap k;
           Some (<[k := row]> m))
        (Some ∅) (seqZ i nb).

Definition getDataAsMaps : option (gmap Z (gmap text (option text))) :=
  getRowsAsMaps 1 getNumRows.

Definition getCell (i : Z) (label : text) : option Range :=
  if has label then
    row ← getRow i;
    j ← getMap !! label;
    Some (SpreadsheetApp.getCell row 1 j)
  else None.

(** [setRowFromMap(i, m)], on the values [s'] of the sheet *)
Definition setRowFromMap (i : Z) (m : gmap text text) (s' : Values)
    : option Values :=
  map_fold (fun k v acc =>
              s' ← acc;
              if has k then
                c ← getCell i k;
                Some (setValue c v s')
              else Some s')
           (Some s') m.

(** [updateRowDataFromMap(i, m, updateColor)], on the values of the sheet;
    the font colour is not part of the values *)
Definition updateRowDataFromMap (i : Z) (m : gmap text text)
    (updateColor : option text) (s' : Values) : option Values :=
  map_fold (fun k v acc =>
              s' ← acc;
              if has k then
                c ← getCell i k;
                match updateColor with
                | None => Some (setValue c v s')
                | Some _ =>
                    if bool_decide (getValue c s' ≠ v)
                    then Some (setValue c v s') else Some s'
                end
              else Some s')
           (Some s') m.

End table.

(** a value that [applyDefaultsToMap] replaces: missing, undefined or
    blank *)
Definition unset (v : option (option text)) : bool :=
  match v with
  | Some (Some x) => bool_decide (Str.trim x = [])
  | _ => true
  end.

(** [applyDefaultsToMap(row)], for the defaults [defaults] of the table
    ([None] for [null]) *)
Definition applyDefaultsToMap (defaults : option (gmap text text))
    (row : gmap text (option text)) : gmap text (option text) :=
  match defaults with
  | None => row
  | Some d =>
      map_fold (fun label defaultValue row =>
                  if unset (row !! label)
                  then <[label := Some defaultValue]> row else row)
               row d
  end.

(** The loop of [locateFromLabel] that keeps the regions that do not
    overlap: the regions of [rs1] are popped from the last to the first, and
    one is put in front of [rs2] when it intersects none of those still in
    [rs1]. *)
Fixpoint keep_loop (fuel : nat) (rs1 rs2 : list Range) : list Range :=
  match fuel with
  | O => rs2
  | S fuel' =>
      match last rs1 with
      | None => rs2
      | Some q =>
          let rs1 := removelast rs1 in
          keep_loop fuel' rs1
            (if existsb (fun r => SheetHelper.rangeIntersect r q) rs1
             then rs2 else q :: rs2)
      end
  end.

(** The end of [locateFromLabel], from the sorted candidate regions [rs1]
    and the current cell [c]: the region that intersects the current cell,
    or the first one, among the regions kept. *)
Definition locate_among (rs1 : list Range) (c : Range) : option Range :=
  let rs2 := keep_loop (length rs1) rs1 [] in
  let ri := List.find (fun r => SheetHelper.rangeIntersect r c) rs2 in
  match rs2 with
  | [] => None
  | r0 :: _ => match ri with Some r => Some r | None => Some r0 end
  end.

End DataTable.

(** ** Properties stated about this code *)

(** the cell at [row], [col] of the sheet of the range belongs to the
    range *)
Definition in_range (r : SpreadsheetApp.Range) (row col : Z) : Prop :=
  SpreadsheetApp.getRow r ≤ row ≤ SpreadsheetApp.getLastRow r
  ∧ SpreadsheetApp.getColumn r ≤ col ≤ SpreadsheetApp.getLastColumn r.

(** the cell at [row], [col] of the sheet [sheet] belongs to the range *)
Definition has_cell (r : SpreadsheetApp.Range) (sheet : nat) (row col : Z)
    : Prop :=
  sheet = SpreadsheetApp.getSheet r ∧ in_range r row col.

(** an integer that a number of the code holds exactly: the sum of two such
    integers is computed exactly when it is one of them *)
Definition safe_integer (z : Z) : Prop := - 2 ^ 53 ≤ z ≤ 2 ^ 53.

(** a range has at least one cell *)
Definition proper (r : SpreadsheetApp.Range) : Prop :=
  1 ≤ SpreadsheetApp.getNumRows r ∧ 1 ≤ SpreadsheetApp.getNumColumns r.

(** The syntax characters of a regular expression, which stand for
    themselves in a pattern only behind a backslash:
    [^ $ \ . * + ? ( ) [ ] { } |] *)
Definition syntax_character (c : ascii) : bool :=
  existsb (Ascii.eqb c)
    ["^"; "$"; "\"; "."; "*"; "+"; "?"; "("; ")"; "["; "]"; "{"; "}";
     "|"]%char.

(** a character that stands for itself behind a backslash, in a pattern
    without the Unicode flag: one below 128 that is neither a letter, a
    digit nor the underscore (behind a backslash these have a meaning of
    their own, or none) *)
Definition identity_escape (c : ascii) : bool :=
  let n := nat_of_ascii c in
  (n <? 128)%nat
  && negb ((48 <=? n)%nat && (n <=? 57)%nat
           || (65 <=? n)%nat && (n <=? 90)%nat
           || (97 <=? n)%nat && (n <=? 122)%nat
           || (n =? 95)%nat).

(** The reading of a pattern as the one text it matches, when it is made of
    characters that stand for themselves: characters other than the syntax
    characters, and characters escaped by a backslash;
    [None] when a syntax character stands unescaped or when a backslash does
    not make the next character stand for itself. *)
Fixpoint literal_of (s : text) : option text :=
  match s with
  | [] => Some []
  | c :: s' =>
      if Ascii.eqb c "\"%char then
        match s' with
        | [] => None
        | c' :: s'' =>
            if identity_escape c' then (fun l => c' :: l) <$> literal_of s''
            else None
        end
      else if syntax_character c then None
      else (fun l => c :: l) <$> literal_of s'
  end.

(** an item of a list kept in a cell: not empty and without separator *)
Definition list_item (e : text) : Prop :=
  e ≠ [] ∧ forallb (fun c => negb (LF.list_separator c)) e = true.

(** A document of plain paragraphs: every text element belongs to a
    paragraph made of text elements, which is detached or belongs to an
    element that is neither a table cell nor a text. *)
Definition plain_text (h : heap) (e : ref) : Prop :=
  ∃ el pg pgE,
    h !! e = Some el ∧ e_type el = TEXT
    ∧ e_parent el = Some pg ∧ h !! pg = Some pgE
    ∧ e_type pgE = PARAGRAPH
    ∧ Forall (fun c => ∃ cE, h !! c = Some cE ∧ e_type cE = TEXT)
        (e_children pgE)
    ∧ match e_parent pgE with
      | None => True
      | Some p => p ≠ pg ∧ ∃ pE, h !! p = Some pE
                    ∧ e_type pE ≠ TABLE_CELL ∧ e_type pE ≠ TEXT
      end.

(** a text that does not start with white space, and one with white space
    at neither end *)
Definition starts_clean (s : text) : Prop :=
  match s with
  | [] => True
  | c :: _ => Str.is_space c = false
  end.

Definition trimmed (s : text) : Prop :=
  starts_clean s ∧ starts_clean (reverse s).

(** the double quote, and a text without it *)
Definition is_quote (c : ascii) : bool := Ascii.eqb c "034"%char.

Definition unquoted (s : text) : bool :=
  forallb (fun c => negb (is_quote c)) s.

(** no region of the list intersects one that stands after it *)
Definition non_overlapping (l : list SpreadsheetApp.Range) : Prop :=
  ∀ i j a b, (i < j)%nat → l !! i = Some a → l !! j = Some b →
             SheetHelper.rangeIntersect a b = false.

(** [h1] has the elements of [h] with their types; an element that is not a
    text may have lost its parent, and any element some of its children *)
Definition pruned (h h1 : heap) : Prop :=
  length h1 = length h
  ∧ ∀ r el, h !! r = Some el →
      ∃ el1, h1 !! r = Some el1 ∧ e_type el1 = e_type el
             ∧ (e_parent el1 = e_parent el
                ∨ e_parent el1 = None ∧ e_type el ≠ TEXT)
             ∧ ∀ c, c ∈ e_children el1 → c ∈ e_children el.

(** what stands in place of a tag after the merge: its replacement, or the
    tag itself when the merge skips it *)
Definition written (map : gmap text text) (tag : Tag) : text :=
  match MergeHelper.resolve map tag with
  | Some tagValue => replacement tag tagValue
  | None => MergeHelper.t_match tag
  end.

(** The text [s] of the element [e] from offset [pos] on, with the match of
    each of the tags that point into [e] replaced by what is written for
    the tag; the tags are in the order of their offsets. *)
Fixpoint subst_tags (map : gmap text text) (s : text) (e : ref) (pos : nat)
    (tags : list MergeHelper.Tag) : text :=
  match tags with
  | [] => drop pos s
  | tag :: tags' =>
      if bool_decide (getElement (MergeHelper.t_range tag) = e) then
        take (Z.to_nat (getStartOffset (MergeHelper.t_range tag)) - pos)
             (drop pos s)
        ++ written map tag
        ++ subst_tags map s e (upto tag) tags'
      else subst_tags map s e pos tags'
  end.

(** a sheet whose first row holds the labels "Name" and "Age", and the
    table of its first three rows and two columns *)
Definition people_values : SpreadsheetApp.Values :=
  fun row col =>
    if (row =? 1) && (col =? 1) then T "Name"
    else if (row =? 1) && (col =? 2) then T "Age"
    else [].

Definition people_table : SpreadsheetApp.Range :=
  SpreadsheetApp.mkCells 0 1 1 3 2.

(** ** Regular expressions: derivatives and the longest match *)
Section regex_facts.
Import Regex.

Lemma matches_Empty s : ¬ matches Empty s.
Proof. inversion 1. Qed.

Lemma matches_Eps s : matches Eps s ↔ s = [].
Proof. split; [by inversion 1 | intros ->; constructor]. Qed.

Lemma matches_Cat r1 r2 s :
  matches (Cat r1 r2) s ↔
  ∃ s1 s2, s = s1 ++ s2 ∧ matches r1 s1 ∧ matches r2 s2.
Proof.
  split.
  - inversion 1; subst; eauto.
  - intros (s1 & s2 & -> & H1 & H2). by constructor.
Qed.

Lemma matches_Alt r1 r2 s :
  matches (Alt r1 r2) s ↔ matches r1 s ∨ matches r2 s.
Proof.
  split.
  - inversion 1; subst; eauto.
  - intros [H|H]; [by apply m_alt_l | by apply m_alt_r].
Qed.

Lemma matches_cat r1 r2 s : matches (cat r1 r2) s ↔ matches (Cat r1 r2) s.
Proof.
  assert (HE1 : ∀ r, matches (Cat Empty r) s ↔ matches Empty s).
  { intros r. rewrite matches_Cat. split.
    - by intros (? & ? & _ & ?%matches_Empty & _).
    - by intros ?%matches_Empty. }
  assert (HE2 : ∀ r, matches (Cat r Empty) s ↔ matches Empty s).
  { intros r. rewrite matches_Cat. split.
    - by intros (? & ? & _ & _ & ?%matches_Empty).
    - by intros ?%matches_Empty. }
  assert (HEps : ∀ r, matches (Cat Eps r) s ↔ matches r s).
  { intros r. rewrite matches_Cat. split.
    - by intros (? & ? & -> & ->%matches_Eps & ?).
    - intros H. exists [], s. repeat split; [constructor | done]. }
  destruct r1, r2; simpl; rewrite ?HE1, ?HE2, ?HEps; done.
Qed.

Lemma matches_alt r1 r2 s : matches (alt r1 r2) s ↔ matches (Alt r1 r2) s.
Proof.
  rewrite matches_Alt.
  destruct r1, r2; simpl; rewrite ?matches_Alt; try tauto;
    split; try tauto; intros [H|H]; try done; by apply matches_Empty in H.
Qed.

Lemma nullable_matches r : nullable r = true ↔ matches r [].
Proof.
  induction r; simpl.
  - split; [done | by intros ?%matches_Empty].
  - split; [constructor | done].
  - split; [done | inversion 1].
  - split; [done | inversion 1].
  - rewrite andb_true_iff, IHr1, IHr2, matches_Cat. split.
    + intros [? ?]. by exists [], [].
    + intros (s1 & s2 & Heq & ? & ?).
      destruct s1, s2; try discriminate. done.
  - by rewrite orb_true_iff, IHr1, IHr2, matches_Alt.
  - split; [constructor | done].
Qed.

Lemma matches_Star_cons r c s :
  matches (Star r) (c :: s) →
  ∃ s1 s2, s = s1 ++ s2 ∧ matches r (c :: s1) ∧ matches (Star r) s2.
Proof.
  intros H. remember (Star r) as r' eqn:Hr. remember (c :: s) as s' eqn:Hs.
  revert s Hs. induction H; intros s0 Hs; try discriminate.
  injection Hr as ->. destruct s1 as [|c1 s1]; simpl in Hs.
  - by apply IHmatches2.
  - injection Hs as ? ?; subst. eauto.
Qed.

Lemma deriv_matches c r s : matches (deriv c r) s ↔ matches r (c :: s).
Proof.
  revert s. induction r; intros s; simpl.
  - split; inversion 1.
  - split; inversion 1.
  - destruct (Ascii.eqb_spec c c0) as [->|Hne].
    + rewrite matches_Eps. split; [intros ->; constructor | by inversion 1].
    + split; [by intros ?%matches_Empty | inversion 1; congruence].
  - destruct (in_class cs c) eqn:Hc.
    + split; [by intros ?%matches_Empty | inversion 1; congruence].
    + rewrite matches_Eps. split; [intros ->; by constructor | by inversion 1].
  - assert (Hcat : matches (cat (deriv c r1) r2) s ↔
              ∃ s1 s2, s = s1 ++ s2 ∧ matches r1 (c :: s1) ∧ matches r2 s2).
    { rewrite matches_cat, matches_Cat. by setoid_rewrite IHr1. }
    rewrite matches_Cat. destruct (nullable r1) eqn:Hn.
    + rewrite matches_alt, matches_Alt, Hcat, IHr2. split.
      * intros [(s1 & s2 & -> & H1 & H2) | H2].
        -- by exists (c :: s1), s2.
        -- exists [], (c :: s). by rewrite <- nullable_matches.
      * intros (s1 & s2 & Heq & H1 & H2). destruct s1 as [|c1 s1]; simpl in Heq.
        -- right. by subst.
        -- injection Heq as ? ?; subst. left. eauto.
    + rewrite Hcat. split.
      * intros (s1 & s2 & -> & H1 & H2). by exists (c :: s1), s2.
      * intros (s1 & s2 & Heq & H1 & H2). destruct s1 as [|c1 s1]; simpl in Heq.
        -- apply nullable_matches in H1. congruence.
        -- injection Heq as ? ?; subst. eauto.
  - by rewrite matches_alt, !matches_Alt, IHr1, IHr2.
  - rewrite matches_cat, matches_Cat. split.
    + intros (s1 & s2 & -> & H1 & H2). apply IHr in H1.
      change (c :: s1 ++ s2) with ((c :: s1) ++ s2). by constructor.
    + intros (s1 & s2 & -> & H1 & H2)%matches_Star_cons.
      exists s1, s2. by rewrite IHr.
Qed.

(** [longest] returns a matching prefix ... *)
Lemma longest_sound r s n :
  longest r s = Some n → (n ≤ length s)%nat ∧ matches r (take n s).
Proof.
  revert r n. induction s as [|c s IH]; intros r n; simpl.
  - destruct (nullable r) eqn:Hn; [|done]. intros [= <-].
    split; [done | by apply nullable_matches].
  - destruct (longest (deriv c r) s) as [m|] eqn:Hl.
    + intros [= <-]. apply IH in Hl as [? ?]. split; [lia|].
      simpl. by apply deriv_matches.
    + destruct (nullable r) eqn:Hn; [|done]. intros [= <-].
      split; [lia | by apply nullable_matches].
Qed.

(** ... and no matching prefix is longer. *)
Lemma longest_complete r s n :
  (n ≤ length s)%nat → matches r (take n s) →
  ∃ m, longest r s = Some m ∧ (n ≤ m)%nat.
Proof.
  revert r n. induction s as [|c s IH]; intros r n Hn Hm; simpl in *.
  - assert (n = 0)%nat as -> by lia. simpl in Hm.
    apply nullable_matches in Hm. rewrite Hm. eauto.
  - destruct n as [|n]; simpl in Hm.
    + apply nullable_matches in Hm. rewrite Hm.
      destruct (longest (deriv c r) s); eexists; split; eauto; lia.
    + apply deriv_matches in Hm. apply IH in Hm as (m & -> & ?); [|lia].
      eexists; split; eauto; lia.
Qed.

Lemma longest_None r s n :
  longest r s = None → (n ≤ length s)%nat → ¬ matches r (take n s).
Proof.
  intros Hl Hn Hm. destruct (longest_complete r s n Hn Hm) as (? & ? & _).
  congruence.
Qed.

Lemma longest_positive r s n :
  nullable r = false → longest r s = Some n → (0 < n)%nat.
Proof.
  intros Hn [_ Hm]%longest_sound. destruct n; [|lia].
  rewrite take_0 in Hm. apply nullable_matches in Hm. congruence.
Qed.

Lemma search_sound r s pos st n :
  search r s pos = Some (st, n) →
  ∃ k, st = (pos + k)%nat ∧ (k ≤ length s)%nat
       ∧ longest r (drop k s) = Some n
       ∧ ∀ j, (j < k)%nat → longest r (drop j s) = None.
Proof.
  revert pos. induction s as [|c s IH]; intros pos; simpl.
  - destruct (if nullable r then _ else _) eqn:Hl; [|done].
    intros [= <- <-]. exists 0%nat. repeat split; [lia | done | done | lia].
  - destruct (match longest (deriv c r) s with Some _ => _ | None => _ end)
      as [m|] eqn:Hl.
    + intros [= <- <-]. exists 0%nat. repeat split; [lia | lia | done | lia].
    + intros (k & -> & Hk & Hlk & Hlt)%IH.
      exists (S k). repeat split; [lia | lia | done |].
      intros [|j] Hj; [done|]. apply Hlt. lia.
Qed.

Lemma search_None r s pos k :
  search r s pos = None → (k ≤ length s)%nat → longest r (drop k s) = None.
Proof.
  revert pos k. induction s as [|c s IH]; intros pos k; simpl.
  - destruct (if nullable r then _ else _) eqn:Hl; [done|].
    intros _ Hk. assert (k = 0)%nat as -> by lia. done.
  - destruct (match longest (deriv c r) s with Some _ => _ | None => _ end)
      as [m|] eqn:Hl; [done|].
    intros Hs Hk. destruct k as [|k]; [done|]. simpl. eapply IH; [done | lia].
Qed.

End regex_facts.

(** ** The tag pattern *)
Section pattern_facts.
Import Regex.

Lemma forallb_ext {A} (f g : A → bool) l :
  (∀ x, f x = g x) → forallb f l = forallb g l.
Proof. intros H. induction l; simpl; [done|]. by rewrite H, IHl. Qed.

Lemma matches_Star_class cs u :
  matches (Star (NoneOf cs)) u ↔
  forallb (fun c => negb (in_class cs c)) u = true.
Proof.
  split.
  - intros H. remember (Star (NoneOf cs)) as r eqn:Hr.
    induction H; try discriminate; [done|].
    injection Hr as ->. inversion H as [| |? ? Hc| | | | |]; subst. simpl.
    rewrite IHmatches2 by done. by rewrite Hc.
  - induction u as [|c u IH]; simpl; [constructor|].
    intros [Hc Hu]%andb_true_iff. apply negb_true_iff in Hc.
    change (c :: u) with ([c] ++ u). constructor; [by constructor | auto].
Qed.

Lemma matches_Plus_class cs u :
  matches (Plus (NoneOf cs)) u ↔
  u ≠ [] ∧ forallb (fun c => negb (in_class cs c)) u = true.
Proof.
  unfold Plus. rewrite matches_Cat. split.
  - intros (s1 & s2 & -> & H1 & H2).
    inversion H1 as [| |? ? Hc| | | | |]; subst.
    apply matches_Star_class in H2. simpl. rewrite Hc, H2. done.
  - destruct u as [|c u]; [by intros [? _]|]. simpl.
    intros [_ [Hc Hu]%andb_true_iff]. apply negb_true_iff in Hc.
    exists [c], u. repeat split; [by constructor | by apply matches_Star_class].
Qed.

Lemma matches_Lit c s : matches (Lit c) s ↔ s = [c].
Proof. split; [by inversion 1 | intros ->; constructor]. Qed.

Lemma matches_Opt_Lit c s : matches (Opt (Lit c)) s ↔ s = [c] ∨ s = [].
Proof. unfold Opt. by rewrite matches_Alt, matches_Lit, matches_Eps. Qed.

Lemma no_angle_class c : negb (in_class ["<"; ">"]%char c) = no_angle c.
Proof.
  unfold in_class, no_angle, JS.is_angle. simpl. by rewrite orb_false_r.
Qed.

Lemma name_char_class c : negb (in_class ["<"; ">"; "?"]%char c) = name_char c.
Proof.
  unfold in_class, name_char, no_angle, JS.is_angle. simpl.
  rewrite orb_false_r, orb_assoc. by rewrite negb_orb.
Qed.

Lemma forallb_no_angle_class p :
  forallb (fun c => negb (in_class ["<"; ">"]%char c)) p = forallb no_angle p.
Proof. apply forallb_ext, no_angle_class. Qed.

Lemma forallb_name_char_class p :
  forallb (fun c => negb (in_class ["<"; ">"; "?"]%char c)) p
  = forallb name_char p.
Proof. apply forallb_ext, name_char_class. Qed.

(** The strings the pattern matches are the tag constructs. *)
Lemma matches_pattern w :
  matches pattern w ↔
  ∃ p t o q, w = tag_text p t (marker o) q ∧ tag_parts p t q.
Proof.
  unfold pattern. split.
  - intros H.
    apply matches_Cat in H as (? & ? & -> & ->%matches_Lit & H).
    apply matches_Cat in H as (p & ? & -> & Hp%matches_Star_class & H).
    apply matches_Cat in H as (? & ? & -> & ->%matches_Lit & H).
    apply matches_Cat in H as (t & ? & -> & [Ht0 Ht]%matches_Plus_class & H).
    apply matches_Cat in H as (o & ? & -> & Ho%matches_Opt_Lit & H).
    apply matches_Cat in H as (? & ? & -> & ->%matches_Lit & H).
    apply matches_Cat in H as (q & ? & -> & Hq%matches_Star_class
                               & ->%matches_Lit).
    rewrite forallb_no_angle_class in Hp, Hq.
    rewrite forallb_name_char_class in Ht.
    exists p, t, (bool_decide (o = ["?"%char])), q. split; [|done].
    unfold tag_text. simpl. repeat f_equal.
    destruct Ho as [-> | ->]; done.
  - intros (p & t & o & q & -> & Hp & Ht & Ht0 & Hq).
    rewrite <- forallb_no_angle_class in Hp, Hq.
    rewrite <- forallb_name_char_class in Ht.
    apply matches_Cat.
    exists ["<"%char], (p ++ "<"%char :: t ++ marker o ++ ">"%char :: q ++ [">"%char]).
    split; [done|]. split; [constructor|].
    apply matches_Cat.
    exists p, ("<"%char :: t ++ marker o ++ ">"%char :: q ++ [">"%char]).
    split; [done|]. split; [by apply matches_Star_class|].
    apply matches_Cat.
    exists ["<"%char], (t ++ marker o ++ ">"%char :: q ++ [">"%char]).
    split; [done|]. split; [constructor|].
    apply matches_Cat.
    exists t, (marker o ++ ">"%char :: q ++ [">"%char]).
    split; [done|]. split; [by apply matches_Plus_class|].
    apply matches_Cat.
    exists (marker o), (">"%char :: q ++ [">"%char]).
    split; [done|]. split; [apply matches_Opt_Lit; destruct o; auto|].
    apply matches_Cat.
    exists [">"%char], (q ++ [">"%char]).
    split; [done|]. split; [constructor|].
    apply matches_Cat.
    exists q, [">"%char].
    split; [done|]. split; [by apply matches_Star_class | constructor].
Qed.

(** A run of characters of a class, stopped by a character outside the
    class, is determined by the text it starts. *)
Lemma run_unique (P : ascii → bool) u u' a a' x x' :
  forallb P u = true → forallb P u' = true → P a = false → P a' = false →
  u ++ a :: x = u' ++ a' :: x' → u = u' ∧ a = a' ∧ x = x'.
Proof.
  revert u'. induction u as [|c u IH]; intros [|c' u']; simpl;
    intros Hu Hu' Ha Ha' Heq.
  - by injection Heq as -> ->.
  - injection Heq as -> _. apply andb_true_iff in Hu' as [? _]. congruence.
  - injection Heq as -> _. apply andb_true_iff in Hu as [? _]. congruence.
  - injection Heq as -> Heq.
    apply andb_true_iff in Hu as [_ Hu]. apply andb_true_iff in Hu' as [_ Hu'].
    destruct (IH u' Hu Hu' Ha Ha' Heq) as (-> & -> & ->). done.
Qed.

Lemma name_char_no_angle t :
  forallb name_char t = true → forallb no_angle t = true.
Proof.
  induction t as [|c t IH]; simpl; [done|].
  intros [[? _]%andb_true_iff ?]%andb_true_iff.
  apply andb_true_iff. auto.
Qed.

(** Two tag constructs that start the same text are the same construct. *)
Lemma tag_text_unique p t o q r p' t' o' q' r' :
  tag_parts p t q → tag_parts p' t' q' →
  tag_text p t (marker o) q ++ r = tag_text p' t' (marker o') q' ++ r' →
  p = p' ∧ t = t' ∧ o = o' ∧ q = q' ∧ r = r'.
Proof.
  intros (Hp & Ht & _ & Hq) (Hp' & Ht' & _ & Hq'). unfold tag_text. simpl.
  intros [= Heq].
  rewrite <- !app_assoc in Heq. simpl in Heq.
  apply (run_unique no_angle) in Heq as (-> & _ & Heq); [|done..].
  rewrite <- !app_assoc in Heq.
  assert (Hend : ∀ (b : bool) y, ∃ a x, marker b ++ ">"%char :: y = a :: x
                                 ∧ name_char a = false).
  { intros [] y; simpl; eauto. }
  destruct (Hend o (q ++ [">"%char] ++ r)) as (a & x & Ha & Hna).
  destruct (Hend o' (q' ++ [">"%char] ++ r')) as (a' & x' & Ha' & Hna').
  simpl in Ha, Ha', Heq. rewrite <- !app_assoc in Heq. simpl in Heq.
  rewrite Ha, Ha' in Heq.
  apply (run_unique name_char) in Heq as (-> & -> & ->); [|done..].
  rewrite <- Ha' in Ha. clear Ha'.
  destruct o, o'; simpl in Ha; try discriminate.
  - injection Ha as Ha.
    apply (run_unique no_angle) in Ha as (-> & _ & ->); done.
  - injection Ha as Ha.
    apply (run_unique no_angle) in Ha as (-> & _ & ->); done.
Qed.

Lemma length_tag_text p t o q :
  length (tag_text p t o q)
  = (length p + length t + length o + length q + 4)%nat.
Proof.
  unfold tag_text. simpl. repeat (rewrite length_app; simpl). lia.
Qed.

(** The longest match at the head of a text is the tag construct that
    starts it, if there is one. *)
Lemma longest_tag p t o q rest :
  tag_parts p t q →
  longest pattern (tag_text p t (marker o) q ++ rest)
  = Some (length (tag_text p t (marker o) q)).
Proof.
  intros Hparts. set (w := tag_text p t (marker o) q).
  destruct (longest_complete pattern (w ++ rest) (length w)) as (m & Hm & Hle).
  { rewrite length_app. lia. }
  { rewrite take_app_length. apply matches_pattern. eauto 10. }
  rewrite Hm. f_equal.
  apply longest_sound in Hm as [Hlen Hmatch].
  apply matches_pattern in Hmatch as (p' & t' & o' & q' & Heq & Hparts').
  assert (Hsplit : w ++ rest = tag_text p' t' (marker o') q'
                               ++ drop m (w ++ rest)).
  { rewrite <- Heq. by rewrite take_drop. }
  apply tag_text_unique in Hsplit as (-> & -> & -> & -> & Hr); [|done..].
  fold w in Heq. rewrite <- Heq. rewrite length_take. lia.
Qed.

Lemma longest_pattern_inv s n :
  longest pattern s = Some n →
  ∃ p t o q, tag_parts p t q
             ∧ take n s = tag_text p t (marker o) q
             ∧ (n ≤ length s)%nat.
Proof.
  intros [Hlen (p & t & o & q & Heq & Hparts)%matches_pattern]%longest_sound.
  eauto 10.
Qed.

Lemma pattern_not_nullable : nullable pattern = false.
Proof. reflexivity. Qed.

(** No match starts at a character other than [<]. *)
Lemma longest_pattern_head c s :
  c ≠ "<"%char → longest pattern (c :: s) = None.
Proof.
  intros Hc. destruct (longest pattern (c :: s)) as [n|] eqn:Hl; [|done].
  apply longest_pattern_inv in Hl as (p & t & o & q & _ & Heq & Hn).
  destruct n; simpl in Heq; [discriminate|].
  unfold tag_text in Heq. congruence.
Qed.

(** No match starts at a [<] whose next bracket is a [>]. *)
Lemma longest_pattern_closed u rest :
  forallb no_angle u = true →
  longest pattern ("<"%char :: u ++ ">"%char :: rest) = None.
Proof.
  intros Hu.
  destruct (longest pattern _) as [n|] eqn:Hl; [|done].
  apply longest_pattern_inv in Hl as (p & t & o & q & (Hp & _) & Heq & Hn).
  apply (f_equal (fun l => l ++ drop n ("<"%char :: u ++ ">"%char :: rest)))
    in Heq.
  rewrite take_drop in Heq. unfold tag_text in Heq. simpl in Heq.
  injection Heq as Heq. rewrite <- app_assoc in Heq. simpl in Heq.
  apply (run_unique no_angle) in Heq as (_ & ? & _); done.
Qed.

End pattern_facts.

(** ** Scanning a text element *)
Section scan_facts.
Import Regex.

Lemma scan_skip r s pos k :
  scan r s pos k = scan r (drop k s) (pos + k) 0.
Proof.
  revert pos k. induction s as [|c s IH]; intros pos k.
  - by rewrite drop_nil.
  - destruct k as [|k].
    + by rewrite drop_0, Nat.add_0_r.
    + simpl. rewrite IH. f_equal. lia.
Qed.

Lemma scan_search r s pos :
  nullable r = false →
  scan r s pos 0 =
  match search r s pos with
  | Some (st, n) => (st, n) :: scan r (drop (st - pos + n) s) (st + n) 0
  | None => []
  end.
Proof.
  intros Hn. revert pos. induction s as [|c s IH]; intros pos.
  - simpl. by rewrite Hn.
  - unfold scan; fold scan. unfold search; fold search.
    destruct (longest r (c :: s)) as [n|] eqn:Hl.
    + pose proof (longest_positive _ _ _ Hn Hl).
      rewrite scan_skip.
      replace (pos - pos + n)%nat with (S (n - 1)) by lia.
      replace (S pos + (n - 1))%nat with (pos + n)%nat by lia. done.
    + rewrite IH. destruct (search r s (S pos)) as [[st n]|] eqn:Hs; [|done].
      apply search_sound in Hs as (k & -> & _).
      replace (S pos + k - pos + n)%nat with (S (k + n)) by lia.
      replace (S pos + k - S pos + n)%nat with (k + n)%nat by lia. done.
Qed.

Lemma scan_ordered r s pos skip :
  nullable r = false → ordered_from (pos + skip) (scan r s pos skip).
Proof.
  intros Hn. revert pos skip. induction s as [|c s IH]; intros pos skip; [done|].
  unfold scan; fold scan. destruct skip as [|k].
  - destruct (longest r (c :: s)) as [n|] eqn:Hl.
    + pose proof (longest_positive _ _ _ Hn Hl). simpl.
      split; [lia|]. split; [done|].
      replace (pos + n)%nat with (S pos + (n - 1))%nat by lia. apply IH.
    + replace (pos + 0)%nat with pos by lia.
      specialize (IH (S pos) 0%nat).
      destruct (scan r s (S pos) 0) as [|[st n] l]; [done|].
      simpl in *. destruct IH as (? & ? & ?). repeat split; [lia|done..].
  - replace (pos + S k)%nat with (S pos + k)%nat by lia. apply IH.
Qed.

Lemma ordered_from_weaken lo lo' l :
  (lo' ≤ lo)%nat → ordered_from lo l → ordered_from lo' l.
Proof. destruct l as [|[st n] l]; simpl; [done|]. intros ? (? & ? & ?). repeat split; [lia|done..]. Qed.

Lemma ordered_from_lookup lo l i st n :
  ordered_from lo l → l !! i = Some (st, n) → (lo ≤ st)%nat ∧ (0 < n)%nat.
Proof.
  revert lo i. induction l as [|[st0 n0] l IH]; intros lo i; [done|].
  simpl. intros (? & ? & Hl). destruct i as [|i]; simpl.
  - intros [= -> ->]. done.
  - intros Hi. destruct (IH _ _ Hl Hi). split; [lia|done].
Qed.

(** Two matches reported by a scan do not overlap. *)
Lemma ordered_from_disjoint lo l i j st1 n1 st2 n2 :
  ordered_from lo l → (i < j)%nat →
  l !! i = Some (st1, n1) → l !! j = Some (st2, n2) →
  (st1 + n1 ≤ st2)%nat.
Proof.
  revert lo i j. induction l as [|[st0 n0] l IH]; intros lo i j; [done|].
  simpl. intros (? & ? & Hl) Hij. destruct i as [|i], j as [|j]; try lia; simpl.
  - intros [= -> ->] Hj. by destruct (ordered_from_lookup _ _ _ _ _ Hl Hj).
  - apply (IH _ _ _ Hl). lia.
Qed.

(** Every match reported by a scan is a longest match at its offset. *)
Lemma scan_valid r s pos skip st n :
  (st, n) ∈ scan r s pos skip →
  ∃ k, st = (pos + k)%nat ∧ longest r (drop k s) = Some n
       ∧ (k + n ≤ length s)%nat.
Proof.
  revert pos skip. induction s as [|c s IH]; intros pos skip.
  - simpl. by intros ?%elem_of_nil.
  - unfold scan; fold scan.
    assert (Hrec : ∀ k', (st, n) ∈ scan r s (S pos) k' →
              ∃ k, st = (pos + k)%nat ∧ longest r (drop k (c :: s)) = Some n
                   ∧ (k + n ≤ length (c :: s))%nat).
    { intros k' (k & -> & ? & ?)%IH. exists (S k). simpl.
      repeat split; [lia | done | lia]. }
    destruct skip as [|k']; [|by apply Hrec].
    destruct (longest r (c :: s)) as [m|] eqn:Hl; [|by apply Hrec].
    intros [[= -> ->] | ?]%elem_of_cons; [|by eapply Hrec].
    exists 0%nat. apply longest_sound in Hl as Hle.
    rewrite drop_0. repeat split; [lia | done | lia].
Qed.

Lemma length_scan r s pos skip :
  (length (scan r s pos skip) ≤ length s)%nat.
Proof.
  revert pos skip. induction s as [|c s IH]; intros pos skip; [done|].
  unfold scan; fold scan. destruct skip.
  - destruct (longest r (c :: s)); simpl.
    + specialize (IH (S pos) (n - 1)%nat). lia.
    + specialize (IH (S pos) 0%nat). lia.
  - specialize (IH (S pos) skip). simpl. lia.
Qed.

End scan_facts.

(** ** The ranges found in a document part *)
Section ranges_facts.
Import Regex.

Lemma text_elements_TEXT fuel h r ts e :
  text_elements fuel h r = Some ts → e ∈ ts →
  ∃ el, h !! e = Some el ∧ e_type el = TEXT.
Proof.
  revert r ts. induction fuel as [|fuel IH]; intros r ts; [done|].
  simpl. destruct (h !! r) as [el|] eqn:Hr; [|done].
  assert (Hrec : (fun l => concat l) <$> mapM (text_elements fuel h)
                   (e_children el) = Some ts →
                 e ∈ ts → ∃ el0, h !! e = Some el0 ∧ e_type el0 = TEXT).
  { destruct (mapM _ _) as [ls|] eqn:Hm; [|done]. simpl.
    intros [= <-] Hin. apply mapM_Some in Hm.
    apply list_elem_of_In, in_concat in Hin as (l & Hl & He).
    apply list_elem_of_In, list_elem_of_lookup in Hl as [i Hi].
    destruct (Forall2_lookup_r _ _ _ _ _ Hm Hi) as (c & _ & Hc).
    eapply IH; [done | by apply list_elem_of_In]. }
  destruct (e_type el) eqn:Hty; try done.
  intros [= <-] ->%list_elem_of_singleton. eauto.
Qed.

Lemma index_of_NoDup (l : list ref) i x :
  NoDup l → l !! i = Some x → index_of x l = Some i.
Proof.
  intros Hnd Hi. unfold index_of.
  destruct (list_find (λ y, y = x) l) as [[j y]|] eqn:Hf; simpl.
  - apply list_find_Some in Hf as (Hj & -> & _).
    f_equal. by eapply NoDup_lookup.
  - eapply list_find_None, Forall_lookup in Hf; [|done]. done.
Qed.

Lemma ranges_from_0 h r es :
  ranges_from h r es 0 = flat_map (fun e => ranges_in h r e 0) es.
Proof. by destruct es. Qed.

Lemma ranges_in_search h r e off :
  nullable r = false →
  ranges_in h r e off =
  match search r (drop off (content h e)) off with
  | Some (st, n) =>
      range_at (content h e) e st n :: ranges_in h r e (st + n)
  | None => []
  end.
Proof.
  intros Hn. unfold ranges_in. rewrite scan_search by done.
  destruct (search r (drop off (content h e)) off) as [[st n]|] eqn:Hs; [|done].
  simpl. f_equal. apply search_sound in Hs as (k & -> & _).
  rewrite drop_drop.
  replace (off + (off + k - off + n))%nat with (off + k + n)%nat by lia.
  done.
Qed.

(** One step of the search: the range found is the head of the list of
    the ranges still to be found, and the search resumes behind it. *)
Lemma find_first_step h r es off :
  nullable r = false →
  match find_first h r es off with
  | None => ranges_from h r es off = []
  | Some rg =>
      ∃ k, es !! k = Some (getElement rg)
           ∧ ranges_from h r es off
             = rg :: ranges_from h r (drop k es)
                       (Z.to_nat (getEndOffsetInclusive rg + 1))
  end.
Proof.
  intros Hn. revert off. induction es as [|e es IH]; intros off; [done|].
  simpl. rewrite ranges_in_search by done.
  destruct (search r (drop off (content h e)) off) as [[st n]|] eqn:Hs.
  - exists 0%nat. split; [done|]. simpl. do 3 f_equal. lia.
  - simpl. specialize (IH 0%nat). rewrite ranges_from_0 in IH.
    destruct (find_first h r es 0) as [rg|]; [|done].
    destruct IH as (k & Hk & ->). by exists (S k).
Qed.

Lemma findAllRanges_loop_spec h docPart r ts fuel j off res :
  nullable r = false → NoDup ts →
  text_elements (length h) h docPart = Some ts →
  (length (ranges_from h r (drop j ts) off) ≤ fuel)%nat →
  findAllRanges_loop fuel h docPart r (find_first h r (drop j ts) off) res
  = Some (res ++ ranges_from h r (drop j ts) off).
Proof.
  intros Hn Hnd Hts. revert j off res.
  induction fuel as [|fuel IH]; intros j off res Hlen;
    pose proof (find_first_step h r (drop j ts) off Hn) as Hstep;
    destruct (find_first h r (drop j ts) off) as [rg|].
  - destruct Hstep as (k & _ & Heq). rewrite Heq in Hlen. simpl in Hlen. lia.
  - rewrite Hstep. by rewrite app_nil_r.
  - destruct Hstep as (k & Hk & Heq). rewrite Heq in *. simpl in Hlen.
    simpl. unfold findText. rewrite Hts. simpl.
    rewrite lookup_drop in Hk.
    rewrite (index_of_NoDup ts (j + k)) by done. simpl.
    rewrite drop_drop in Hlen. rewrite IH by lia.
    rewrite drop_drop. by rewrite <- app_assoc.
  - rewrite Hstep. by rewrite app_nil_r.
Qed.

Lemma length_ranges_in h r e off :
  (length (ranges_in h r e off) ≤ length (content h e))%nat.
Proof.
  unfold ranges_in. rewrite length_map.
  etrans; [apply length_scan|]. rewrite length_drop. lia.
Qed.

Lemma length_ranges h r es :
  (length (flat_map (fun e => ranges_in h r e 0) es)
   ≤ sum_list (map (fun e => length (content h e)) es))%nat.
Proof.
  induction es as [|e es IH]; simpl; [done|].
  rewrite length_app. pose proof (length_ranges_in h r e 0). lia.
Qed.

(** The ranges [findAllRanges] returns: the matches of each text element,
    the elements taken in document order. *)
Lemma findAllRanges_spec h docPart r ts :
  nullable r = false → NoDup ts →
  text_elements (length h) h docPart = Some ts →
  findAllRanges h docPart r
  = Some (flat_map (fun e => ranges_in h r e 0) ts).
Proof.
  intros Hn Hnd Hts. unfold findAllRanges, findText. rewrite Hts. simpl.
  pose proof (findAllRanges_loop_spec h docPart r ts
                (search_fuel h docPart) 0 0 [] Hn Hnd Hts) as Hloop.
  rewrite drop_0, ranges_from_0 in Hloop. apply Hloop.
  unfold search_fuel. rewrite Hts. pose proof (length_ranges h r ts). lia.
Qed.

End ranges_facts.

(** ** Decomposing a match into a tag *)
Section tag_facts.
Import Regex.

Lemma elem_of_drop {A} (x : A) k l : x ∈ drop k l → x ∈ l.
Proof.
  intros [i Hi]%list_elem_of_lookup. rewrite lookup_drop in Hi.
  apply list_elem_of_lookup. eauto.
Qed.

Lemma substring_spec s a b :
  0 ≤ a ≤ b → b ≤ JS.len s →
  JS.substring s a b = take (Z.to_nat (b - a)) (drop (Z.to_nat a) s).
Proof.
  intros Ha Hb. unfold JS.substring, JS.clamp, JS.len in *.
  replace (Z.to_nat (Z.min (Z.max 0 a) (Z.of_nat (length s))))
    with (Z.to_nat a) by lia.
  replace (Z.to_nat (Z.min (Z.max 0 b) (Z.of_nat (length s))))
    with (Z.to_nat b) by lia.
  f_equal; [lia | f_equal; lia].
Qed.

Lemma split_nonnil sep s : JS.split sep s ≠ [].
Proof. destruct s as [|c s]; simpl; [done|]. destruct (sep c); [done|]. by destruct (JS.split sep s). Qed.

Lemma split_run u :
  forallb no_angle u = true → JS.split JS.is_angle u = [u].
Proof.
  induction u as [|c u IH]; simpl; [done|].
  intros [Hc Hu]%andb_true_iff. unfold no_angle in Hc.
  apply negb_true_iff in Hc. rewrite Hc, IH; done.
Qed.

Lemma split_run_angle u c rest :
  forallb no_angle u = true → JS.is_angle c = true →
  JS.split JS.is_angle (u ++ c :: rest) = u :: JS.split JS.is_angle rest.
Proof.
  intros Hu Hc. induction u as [|c' u IH]; simpl.
  - by rewrite Hc.
  - simpl in Hu. apply andb_true_iff in Hu as [Hc' Hu].
    unfold no_angle in Hc'. apply negb_true_iff in Hc'.
    rewrite Hc', IH; done.
Qed.

Lemma forallb_marker o : forallb no_angle (marker o) = true.
Proof. by destruct o. Qed.

Lemma last_char_marker t o :
  forallb name_char t = true → t ≠ [] →
  drop (length (t ++ marker o) - 1) (t ++ marker o) = ["?"%char] ↔ o = true.
Proof.
  intros Ht Ht0. destruct o; simpl.
  - rewrite length_app. simpl.
    replace (length t + 1 - 1)%nat with (length t) by lia.
    by rewrite drop_app_length.
  - rewrite app_nil_r. split; [|done]. intros Hd.
    destruct (decide (t = [])) as [|_]; [done|].
    assert (Hin : "?"%char ∈ t).
    { apply (elem_of_drop _ (length t - 1)). rewrite Hd. by left. }
    apply list_elem_of_In in Hin.
    rewrite forallb_forall in Ht. by apply Ht in Hin.
Qed.

(** The text of a valid range, as [getStringFromRange] computes it. *)
Lemma getStringFromRange_spec h r rg :
  nullable r = false →
  valid_range h r rg →
  ∃ el st n, h !! getElement rg = Some el ∧ e_type el = TEXT
    ∧ rg = range_at (e_text el) (getElement rg) st n
    ∧ (st + n ≤ length (e_text el))%nat
    ∧ longest r (drop st (e_text el)) = Some n
    ∧ getStringFromRange h rg = Some (take n (drop st (e_text el))).
Proof.
  intros Hnull (el & st & n & Hel & Hty & Hrg & Hl).
  exists el, st, n. apply longest_sound in Hl as Hlen. destruct Hlen as [Hlen _].
  pose proof (longest_positive _ _ _ Hnull Hl).
  rewrite length_drop in Hlen. repeat split; [done..|lia|done|].
  unfold getStringFromRange.
  destruct h as [|e0 h']; [done|]. simpl length.
  unfold text_of. rewrite Hel, Hty. simpl.
  rewrite Hrg. simpl.
  destruct (st =? 0)%nat eqn:Hst; simpl;
    [destruct (n =? length (e_text el))%nat eqn:Hn; simpl|].
  - apply Nat.eqb_eq in Hst as ->. apply Nat.eqb_eq in Hn as ->.
    rewrite drop_0. by rewrite firstn_all.
  - rewrite substring_spec by (unfold JS.len; lia).
    do 2 f_equal; [lia | f_equal; lia].
  - rewrite substring_spec by (unfold JS.len; lia).
    do 2 f_equal; [lia | f_equal; lia].
Qed.

(** The decomposition of a tag construct recovers its parts. *)
Lemma decompose_tag_text h docPart rg p t o q :
  tag_parts p t q →
  getStringFromRange h rg = Some (tag_text p t (marker o) q) →
  decompose h docPart rg
  = Some (mkTag (tag_text p t (marker o) q) rg p t q o docPart).
Proof.
  intros (Hp & Ht & Ht0 & Hq) Hstr. unfold decompose. rewrite Hstr. simpl.
  set (w := tag_text p t (marker o) q).
  assert (Hinner : JS.substring w 1 (JS.len w - 1)
                   = p ++ "<"%char :: (t ++ marker o) ++ ">"%char :: q).
  { rewrite substring_spec; unfold JS.len, w; rewrite length_tag_text;
      [|lia..].
    unfold tag_text. simpl. rewrite drop_0.
    replace (p ++ "<"%char :: t ++ marker o ++ ">"%char :: q ++ [">"%char])
      with ((p ++ "<"%char :: (t ++ marker o) ++ ">"%char :: q) ++ [">"%char]).
    - apply take_app_length'. repeat (rewrite length_app; simpl). lia.
    - repeat (rewrite <- app_assoc; simpl). done. }
  rewrite Hinner.
  rewrite split_run_angle by done.
  rewrite split_run_angle;
    [|rewrite forallb_app, forallb_marker, name_char_no_angle; done | done].
  rewrite split_run by done. simpl.
  assert (Hopt : bool_decide
            (JS.substring_from (t ++ marker o) (JS.len (t ++ marker o) - 1)
             = ["?"%char]) = o).
  { unfold JS.substring_from.
    assert (0 < length (t ++ marker o))%nat.
    { rewrite length_app. destruct t; [done|simpl; lia]. }
    rewrite substring_spec by (unfold JS.len; lia).
    replace (Z.to_nat (JS.len (t ++ marker o) - (JS.len (t ++ marker o) - 1)))
      with 1%nat by lia.
    replace (Z.to_nat (JS.len (t ++ marker o) - 1))
      with (length (t ++ marker o) - 1)%nat by (unfold JS.len; lia).
    rewrite take_ge by (rewrite length_drop; lia).
    pose proof (last_char_marker t o Ht Ht0) as Hiff.
    destruct o.
    - apply bool_decide_eq_true. by apply Hiff.
    - apply bool_decide_eq_false. intros Hd. by apply Hiff in Hd. }
  rewrite Hopt. do 2 f_equal.
  destruct o; simpl; [|by rewrite app_nil_r].
  rewrite substring_spec; unfold JS.len; rewrite ?length_app; simpl; [|lia..].
  rewrite drop_0.
  replace (Z.to_nat (Z.of_nat (length t + 1) - 1 - 0)) with (length t) by lia.
  by rewrite take_app_length.
Qed.

Lemma range_at_offsets s e st n :
  getStartOffset (range_at s e st n) = Z.of_nat st
  ∧ getEndOffsetInclusive (range_at s e st n)
    = Z.of_nat st + Z.of_nat n - 1
  ∧ getElement (range_at s e st n) = e.
Proof. done. Qed.

(** A valid range decomposes into a coherent tag that is located where
    the range says. *)
Lemma decompose_valid h docPart rg :
  valid_range h pattern rg →
  ∃ tag, decompose h docPart rg = Some tag
         ∧ t_range tag = rg ∧ t_part tag = docPart
         ∧ tag_wf tag ∧ ∃ pre post, located h tag pre post.
Proof.
  intros Hv.
  apply getStringFromRange_spec in Hv
    as (el & st & n & Hel & Hty & Hrg & Hlen & Hl & Hstr); [|done].
  apply longest_pattern_inv in Hl as (p & t & o & q & Hparts & Heq & _).
  rewrite Heq in Hstr.
  eexists. split; [by apply decompose_tag_text|]. simpl.
  split; [done|]. split; [done|].
  assert (Hn : n = length (tag_text p t (marker o) q)).
  { rewrite <- Heq. rewrite length_take, length_drop. lia. }
  split.
  - repeat split; simpl; try apply Hparts.
    + rewrite Hrg. simpl. lia.
    + rewrite Hrg. simpl. unfold JS.len. lia.
  - exists (take st (e_text el)), (drop n (drop st (e_text el))).
    exists el. simpl. repeat split; [done | done | |].
    + change (e_text el = take st (e_text el) ++ tag_text p t (marker o) q
                          ++ drop n (drop st (e_text el))).
      rewrite <- Heq. by rewrite take_drop, take_drop.
    + rewrite Hrg. simpl. unfold JS.len. rewrite length_take. lia.
Qed.

Lemma find_first_valid h r es off rg :
  (∀ e, e ∈ es → ∃ el, h !! e = Some el ∧ e_type el = TEXT) →
  find_first h r es off = Some rg → valid_range h r rg.
Proof.
  revert off. induction es as [|e es IH]; intros off Hes; [done|]. simpl.
  destruct (search r (drop off (content h e)) off) as [[st n]|] eqn:Hs.
  - intros [= <-]. destruct (Hes e) as (el & Hel & Hty); [by left|].
    unfold content in *. rewrite Hel in *.
    apply search_sound in Hs as (k & -> & _ & Hl & _).
    rewrite drop_drop in Hl. by exists el, (off + k)%nat, n.
  - apply IH. intros e' He'. apply Hes. by right.
Qed.

Lemma findText_valid h docPart r from rg :
  findText h docPart r from = Some (Some rg) → valid_range h r rg.
Proof.
  unfold findText.
  destruct (text_elements (length h) h docPart) as [es|] eqn:Hes; [|done].
  simpl.
  assert (Hall : ∀ k e, e ∈ drop k es →
                   ∃ el, h !! e = Some el ∧ e_type el = TEXT).
  { intros k e He. eapply text_elements_TEXT; [done|].
    by eapply elem_of_drop. }
  destruct from as [rg0|].
  - destruct (index_of _ _) as [i|]; [|done]. simpl.
    intros [= Hf]. eapply find_first_valid; [|done]. apply Hall.
  - intros [= Hf]. eapply find_first_valid; [|done].
    apply (Hall 0%nat).
Qed.

Lemma findAllRanges_loop_valid fuel h docPart r range res l :
  findAllRanges_loop fuel h docPart r range res = Some l →
  (∀ rg, range = Some rg → valid_range h r rg) →
  Forall (valid_range h r) res →
  Forall (valid_range h r) l.
Proof.
  revert range res. induction fuel as [|fuel IH]; intros range res;
    destruct range as [rg|]; simpl; try done.
  - by intros [= <-].
  - destruct (findText h docPart r (Some rg)) as [range'|] eqn:Hf; [|done].
    simpl. intros Hloop Hrg Hres. eapply IH; [done | |].
    + intros rg' ->. by eapply findText_valid.
    + apply Forall_app. split; [done|]. constructor; auto.
  - by intros [= <-].
Qed.

(** Every range of the scanner is a match of the pattern. *)
Lemma findAllRanges_valid h docPart r l :
  findAllRanges h docPart r = Some l → Forall (valid_range h r) l.
Proof.
  unfold findAllRanges.
  destruct (findText h docPart r None) as [range|] eqn:Hf; [|done]. simpl.
  intros Hloop. eapply findAllRanges_loop_valid; [done | | done].
  intros rg ->. by eapply findText_valid.
Qed.

(** Every tag of [findAllTags] is coherent and located in the store. *)
Lemma findAllTags_found h docPart tags tag :
  findAllTags h docPart = Some tags → tag ∈ tags →
  tag_wf tag ∧ t_part tag = docPart ∧ valid_range h pattern (t_range tag)
  ∧ ∃ pre post, located h tag pre post.
Proof.
  unfold findAllTags.
  destruct (findAllRanges h docPart pattern) as [ranges|] eqn:Hr; [|done].
  simpl. intros Hm Hin. apply findAllRanges_valid in Hr.
  apply mapM_Some in Hm.
  apply list_elem_of_lookup in Hin as [i Hi].
  destruct (Forall2_lookup_r _ _ _ _ _ Hm Hi) as (rg & Hrg & Hd).
  eapply Forall_lookup in Hr; [|done].
  destruct (decompose_valid h docPart rg Hr)
    as (tag' & Hd' & Hrange & Hpart & Hwf & Hloc).
  assert (tag' = tag) as -> by congruence.
  rewrite Hrange. done.
Qed.

(** The decomposition never fails on the ranges of the scanner. *)
Lemma findAllTags_total h docPart ranges :
  findAllRanges h docPart pattern = Some ranges →
  ∃ tags, findAllTags h docPart = Some tags
          ∧ map t_range tags = ranges.
Proof.
  intros Hr. unfold findAllTags. rewrite Hr. simpl.
  apply findAllRanges_valid in Hr.
  induction Hr as [|rg ranges Hrg Hr IH].
  - by exists [].
  - destruct IH as (tags & Htags & Hmap).
    destruct (decompose_valid h docPart rg Hrg) as (tag & Hd & Hrange & _).
    exists (tag :: tags). simpl. rewrite Hd. simpl. rewrite Htags. simpl.
    split; [done|]. by rewrite Hrange, Hmap.
Qed.

End tag_facts.

(** ** Editing the text of an element *)
Section edit_facts.

Lemma bind_run {A B} (m : M A) (f : A → M B) h a h' :
  m h = Some (a, h') → (m ≫= f) h = f a h'.
Proof. intros H. unfold mbind, M_bind. by rewrite H. Qed.

Lemma bind_Some {A B} (m : M A) (f : A → M B) h b h' :
  (m ≫= f) h = Some (b, h') →
  ∃ a h1, m h = Some (a, h1) ∧ f a h1 = Some (b, h').
Proof.
  unfold mbind, M_bind. destruct (m h) as [[a h1]|]; [|done]. eauto.
Qed.

Lemma set_text_lookup h e el s :
  h !! e = Some el → set_text h e s !! e = Some (with_text el s).
Proof.
  intros He. unfold set_text. rewrite He.
  apply list_lookup_insert_eq. by eapply lookup_lt_Some.
Qed.

Lemma set_text_lookup_ne h e e' s :
  e ≠ e' → set_text h e s !! e' = h !! e'.
Proof.
  intros Hne. unfold set_text. destruct (h !! e); [|done].
  by apply list_lookup_insert_ne.
Qed.

Lemma set_text_set_text h e s s' :
  set_text (set_text h e s) e s' = set_text h e s'.
Proof.
  destruct (h !! e) as [el|] eqn:He.
  - unfold set_text at 1. rewrite (set_text_lookup h e el s He).
    unfold set_text. rewrite He. by rewrite list_insert_insert_eq.
  - unfold set_text. rewrite He. by rewrite He.
Qed.

Lemma length_set_text h e s : length (set_text h e s) = length h.
Proof. unfold set_text. destruct (h !! e); [|done]. apply length_insert. Qed.

Lemma content_set_text h e s :
  (e < length h)%nat → content (set_text h e s) e = s.
Proof.
  intros [el He]%lookup_lt_is_Some. unfold content.
  by rewrite (set_text_lookup h e el s He).
Qed.

Lemma content_set_text_ne h e e' s :
  e ≠ e' → content (set_text h e s) e' = content h e'.
Proof. intros Hne. unfold content. by rewrite set_text_lookup_ne. Qed.

(** Deleting the characters [b] of the text [a ++ b ++ c]. *)
Lemma deleteText_app h e el a b c startOffset endOffsetInclusive :
  h !! e = Some el → e_text el = a ++ b ++ c → b ≠ [] →
  startOffset = JS.len a → endOffsetInclusive = JS.len a + JS.len b - 1 →
  deleteText e startOffset endOffsetInclusive h
  = Some (tt, set_text h e (a ++ c)).
Proof.
  intros He Htxt Hb -> ->. unfold deleteText, set_text. rewrite He, Htxt.
  assert (0 < length b)%nat by (destruct b; [done | simpl; lia]).
  unfold JS.len. rewrite !length_app.
  destruct (_ && _) eqn:Hc; [|exfalso].
  - do 3 f_equal.
    replace (Z.to_nat (Z.of_nat (length a) + Z.of_nat (length b) - 1 + 1))
      with (length a + length b)%nat by lia.
    rewrite Nat2Z.id, take_app_length.
    rewrite <- drop_drop. by rewrite !drop_app_length.
  - apply andb_false_iff in Hc as [[Hc|Hc]%andb_false_iff|Hc];
      rewrite ?Z.leb_gt, ?Z.ltb_ge in Hc; lia.
Qed.

(** Inserting [s] between [a] and [c]. *)
Lemma insertText_app h e el a c s offset :
  h !! e = Some el → e_text el = a ++ c → offset = JS.len a →
  insertText e offset s h = Some (tt, set_text h e (a ++ s ++ c)).
Proof.
  intros He Htxt ->. unfold insertText, set_text. rewrite He, Htxt.
  unfold JS.len. rewrite !length_app.
  destruct (_ && _) eqn:Hc; [|exfalso].
  - do 3 f_equal. rewrite Nat2Z.id.
    by rewrite take_app_length, drop_app_length.
  - apply andb_false_iff in Hc as [Hc|Hc];
      rewrite ?Z.leb_gt, ?Z.ltb_ge in Hc; lia.
Qed.

Lemma tag_text_nonempty p t o q : tag_text p t o q ≠ [].
Proof. done. Qed.

(** The five text operations of a replacement, and the single deletion of
    an empty one, amount to replacing the matched text. *)
Lemma replace_spec tag tagValue h pre post :
  tag_wf tag → located h tag pre post →
  replace tag tagValue h
  = Some (tt, set_text h (getElement (t_range tag))
                (pre ++ replacement tag tagValue ++ post)).
Proof.
  intros (Hparts & Hmatch & Hfirst & Hlast) (el & He & Hty & Htxt & Hpre).
  unfold replace. set (e := getElement (t_range tag)) in *.
  set (first := getStartOffset (t_range tag)) in *.
  set (last := getEndOffsetInclusive (t_range tag)) in *.
  set (p := t_text1 tag) in *. set (q := t_text2 tag) in *.
  set (o := marker (t_opt tag)) in *.
  rewrite Hmatch in Htxt, Hlast. unfold JS.len in Hlast.
  rewrite length_tag_text in Hlast.
  destruct tagValue as [|c v].
  - simpl.
    apply (deleteText_app h e el pre (tag_text p (t_tag tag) o q) post);
      try done.
    unfold JS.len in *. rewrite length_tag_text. lia.
  - set (v' := c :: v).
    assert (Hlen : (0 <? JS.len v') = true) by (by apply Z.ltb_lt).
    rewrite Hlen.
    assert (Hlen' : (0 <? JS.len (p ++ v' ++ q)) = true).
    { apply Z.ltb_lt. unfold JS.len. rewrite !length_app. simpl. lia. }
    rewrite Hlen'. cbv zeta.
    (* delete the final ">" *)
    erewrite bind_run; cycle 1.
    { apply (deleteText_app h e el
               (pre ++ "<"%char :: p ++ "<"%char :: t_tag tag ++ o
                    ++ ">"%char :: q) [">"%char] post); try done.
      - rewrite Htxt. unfold tag_text.
        repeat (rewrite <- app_assoc; simpl). done.
      - unfold JS.len in *. repeat (rewrite length_app; simpl). lia.
      - unfold JS.len in *. repeat (rewrite length_app; simpl). lia. }
    (* delete "tag>" *)
    erewrite bind_run; cycle 1.
    { eapply (deleteText_app _ e _ (pre ++ "<"%char :: p ++ ["<"%char])
                (t_tag tag ++ o ++ [">"%char]) (q ++ post)).
      - by eapply set_text_lookup.
      - simpl. repeat (rewrite <- app_assoc; simpl). done.
      - intros Heq%(f_equal length). rewrite !length_app in Heq.
        simpl in Heq. lia.
      - unfold JS.len in *. repeat (rewrite length_app; simpl). lia.
      - unfold JS.len in *. repeat (rewrite length_app; simpl). lia. }
    rewrite set_text_set_text.
    (* insert the tag value after the second "<" *)
    erewrite bind_run; cycle 1.
    { eapply (insertText_app _ e _ (pre ++ "<"%char :: p ++ ["<"%char])
                (q ++ post) v').
      - by eapply set_text_lookup.
      - done.
      - unfold JS.len in *. repeat (rewrite length_app; simpl). lia. }
    rewrite set_text_set_text.
    (* delete the second "<" *)
    erewrite bind_run; cycle 1.
    { eapply (deleteText_app _ e _ (pre ++ "<"%char :: p) ["<"%char]
                (v' ++ q ++ post)).
      - by eapply set_text_lookup.
      - simpl. repeat (rewrite <- app_assoc; simpl). done.
      - done.
      - unfold JS.len in *. repeat (rewrite length_app; simpl). lia.
      - unfold JS.len in *. repeat (rewrite length_app; simpl). lia. }
    rewrite set_text_set_text.
    (* delete the first "<" *)
    erewrite (deleteText_app _ e _ pre ["<"%char] (p ++ v' ++ q ++ post)).
    + rewrite set_text_set_text. unfold replacement, v'. fold p q.
      by rewrite <- !app_assoc.
    + by eapply set_text_lookup.
    + simpl. repeat (rewrite <- app_assoc; simpl). done.
    + done.
    + done.
    + unfold JS.len in *. simpl. lia.
Qed.

End edit_facts.

(** ** What the tree operations leave unchanged *)
Section frame_facts.

Global Instance grows_refl P : Reflexive (grows P).
Proof. intros h. exists []. by rewrite app_nil_r. Qed.

Global Instance grows_trans P : Transitive (grows P).
Proof.
  intros h1 h2 h3 (k1 & H1 & HP1) (k2 & H2 & HP2). exists (k1 ++ k2).
  rewrite H2, H1, app_assoc. split; [done|]. by apply Forall_app.
Qed.

Lemma grows_mono (P Q : text → Prop) h h' :
  (∀ s, P s → Q s) → grows P h h' → grows Q h h'.
Proof.
  intros HPQ (k & Hk & HP). exists k. split; [done|].
  eapply Forall_impl; [done|]. intros x. apply HPQ.
Qed.

Lemma grows_length P h h' : grows P h h' → (length h ≤ length h')%nat.
Proof.
  intros (k & Hk & _). apply (f_equal length) in Hk.
  rewrite length_app, !length_map in Hk. lia.
Qed.

Lemma grows_lookup P h h' e el :
  grows P h h' → h !! e = Some el →
  ∃ el', h' !! e = Some el' ∧ shape el' = shape el.
Proof.
  intros (k & Hk & _) He.
  assert (Hs : map shape h' !! e = Some (shape el)).
  { rewrite Hk. apply lookup_app_l_Some. by rewrite list_lookup_fmap, He. }
  rewrite list_lookup_fmap in Hs.
  destruct (h' !! e) as [el'|]; [|done]. simpl in Hs. exists el'.
  split; [done | congruence].
Qed.

Lemma grows_content P h h' e :
  grows P h h' → (e < length h)%nat → content h' e = content h e.
Proof.
  intros Hg [el He]%lookup_lt_is_Some.
  destruct (grows_lookup _ _ _ _ _ Hg He) as (el' & He' & Hs).
  unfold content. rewrite He, He'. unfold shape in Hs. congruence.
Qed.

(** the new elements of a grown store *)
Lemma grows_new P h h' e el :
  grows P h h' → h' !! e = Some el → (length h ≤ e)%nat → P (e_text el).
Proof.
  intros (k & Hk & HP) He Hle.
  assert (Hs : map shape h' !! e = Some (shape el)).
  { by rewrite list_lookup_fmap, He. }
  rewrite Hk, lookup_app_r in Hs by (by rewrite length_map).
  eapply Forall_lookup in HP; [|done]. done.
Qed.

Context {R : heap → heap → Prop} `{!Reflexive R} `{!Transitive R}.

Lemma preserves_ret {A} (a : A) : preserves R (mret a).
Proof. intros h a' h' [= _ <-]. reflexivity. Qed.

Lemma preserves_throw {A} : preserves R (@throw A).
Proof. intros h a h' [=]. Qed.

Lemma preserves_read {A} (f : heap → option A) : preserves R (read f).
Proof.
  intros h a h'. unfold read. destruct (f h); [|done].
  intros [= _ <-]. reflexivity.
Qed.

Lemma preserves_nonnull {A} (o : option A) : preserves R (nonnull o).
Proof.
  destruct o; [apply preserves_ret | apply preserves_throw].
Qed.

Lemma preserves_bind {A B} (m : M A) (f : A → M B) :
  preserves R m → (∀ a, preserves R (f a)) → preserves R (m ≫= f).
Proof.
  intros Hm Hf h b h' (a & h1 & H1 & H2)%bind_Some.
  etrans; [by eapply Hm | by eapply Hf].
Qed.

End frame_facts.

Ltac preserves_step :=
  first
    [ apply preserves_ret
    | apply preserves_throw
    | apply preserves_read
    | apply preserves_nonnull
    | assumption
    | apply preserves_bind; [|intros ?]
    | match goal with
      | |- preserves _ (if ?b then _ else _) => destruct b
      | |- preserves _ (match ?x with _ => _ end) => destruct x
      end ].

Section frame_operations.

Lemma shape_insert (h : heap) r el el' :
  h !! r = Some el → shape el' = shape el →
  map shape (<[r := el']> h) = map shape h.
Proof.
  intros Hr Hs. rewrite list_fmap_insert, Hs.
  apply list_insert_id. by rewrite list_lookup_fmap, Hr.
Qed.

Lemma preserves_modify P r f :
  (∀ el, shape (f el) = shape el) → preserves (grows P) (modify r f).
Proof.
  intros Hf h a h'. unfold modify. destruct (h !! r) as [el|] eqn:Hr; [|done].
  intros [= _ <-]. exists []. rewrite app_nil_r. split; [|done].
  by eapply shape_insert.
Qed.

Lemma preserves_alloc (P : text → Prop) el :
  P (e_text el) → preserves (grows P) (alloc el).
Proof.
  intros HP h a h' [= _ <-]. exists [shape el]. rewrite map_app.
  split; [done|]. by constructor.
Qed.

Lemma preserves_getType {R : heap → heap → Prop} `{!Reflexive R} r :
  preserves R (getType r).
Proof. apply preserves_read. Qed.

Lemma preserves_insertListItem (P : text → Prop) part index s :
  P [] → P s → preserves (grows P) (insertListItem part index s).
Proof.
  intros HP0 HPs. unfold insertListItem, getNumChildren.
  repeat first [ apply preserves_alloc; done
               | apply preserves_modify; done
               | preserves_step ].
Qed.

Lemma preserves_setGlyphType P item g :
  preserves (grows P) (setGlyphType item g).
Proof. by apply preserves_modify. Qed.

Lemma preserves_removeFromParent P r :
  preserves (grows P) (removeFromParent r).
Proof.
  unfold removeFromParent, getParent.
  repeat first [ apply preserves_modify; done | preserves_step ].
Qed.

Lemma preserves_removeRow P table rowIndex :
  preserves (grows P) (removeRow table rowIndex).
Proof.
  unfold removeRow, getNumChildren.
  repeat first [ apply preserves_modify; done | preserves_step ].
Qed.

Lemma preserves_getText {R : heap → heap → Prop} `{!Reflexive R} r :
  preserves R (getText r).
Proof. apply preserves_read. Qed.

Lemma preserves_insertLines (P : text → Prop) part index glyph lines :
  P [] → Forall P lines →
  preserves (grows P) (MergeHelper.insertLines part index glyph lines).
Proof.
  intros HP0 Hlines. revert index.
  induction Hlines as [|line lines Hline Hlines IH]; intros index; simpl.
  - apply preserves_ret.
  - apply preserves_bind; [by apply preserves_insertListItem|]. intros item.
    apply preserves_bind; [apply preserves_setGlyphType|]. intros _.
    apply IH.
Qed.

Lemma preserves_newItems (P : text → Prop) tag lines :
  P [] → Forall P lines →
  preserves (grows P) (MergeHelper.newItems tag lines).
Proof.
  intros HP0 Hlines. unfold newItems, getParent, getChildIndex, getGlyphType.
  repeat first [ by apply preserves_insertLines | preserves_step ].
Qed.

Lemma preserves_allEmpty_loop {R : heap → heap → Prop}
    `{!Reflexive R} `{!Transitive R} r j n :
  preserves R (MergeHelper.allEmpty_loop r j n).
Proof.
  revert j. induction n as [|n IH]; intros j; simpl.
  - apply preserves_ret.
  - unfold getCell, getType, getText.
    repeat first [ apply IH | preserves_step ].
Qed.

Lemma preserves_cleanup P element :
  preserves (grows P) (MergeHelper.cleanup element).
Proof.
  unfold cleanup, detectEmptyRow, getParent, getType, getText, getNumCells,
    getNumChildren, getParentTable, getChildIndex.
  repeat first [ apply preserves_removeFromParent
               | apply preserves_removeRow
               | apply preserves_allEmpty_loop
               | preserves_step ].
Qed.

Lemma preserves_newItemsCase tag tagValue :
  preserves eq (MergeHelper.newItemsCase tag tagValue).
Proof.
  unfold newItemsCase, getText, getParent, getType.
  repeat preserves_step.
Qed.

End frame_operations.

(** ** The processing of one tag *)
Section process_facts.

(** The steps of [processTag] for a tag that has a value. *)
Lemma processTag_inv map tag tagValue h h' :
  resolve map tag = Some tagValue →
  processTag map tag h = Some (tt, h') →
  ∃ isNew h1 h2,
    newItemsCase tag tagValue h = Some (isNew, h)
    ∧ replace tag (inPlaceValue isNew tagValue) h = Some (tt, h1)
    ∧ (if isNew
       then newItems tag (tail (JS.split JS.is_newline tagValue))
       else mret tt) h1 = Some (tt, h2)
    ∧ cleanup (getElement (t_range tag)) h2 = Some (tt, h').
Proof.
  intros Hres. unfold processTag. rewrite Hres.
  intros (isNew & h0 & Hnew & Hrest)%bind_Some.
  pose proof (preserves_newItemsCase _ _ _ _ _ Hnew) as <-.
  exists isNew.
  apply bind_Some in Hrest as ([v ls] & h0 & Hshift & Hrest).
  apply bind_Some in Hrest as ([] & h1 & Hrep & Hrest).
  apply bind_Some in Hrest as ([] & h2 & Hitems & Hclean).
  exists h1, h2.
  assert (h0 = h ∧ v = inPlaceValue isNew tagValue
          ∧ (isNew = true → ls = tail (JS.split JS.is_newline tagValue)))
    as (-> & -> & Hls).
  { unfold inPlaceValue. destruct isNew.
    - destruct (JS.split JS.is_newline tagValue) as [|l ls']; simpl in Hshift;
        [done|]. by injection Hshift as <- <- <-.
    - by injection Hshift as <- <- <-. }
  repeat split; [done..| |done].
  destruct isNew; [|done]. by rewrite <- Hls.
Qed.

Lemma in_tail {A} (x : A) l : x ∈ tail l → x ∈ l.
Proof. destruct l; simpl; [done|]. by right. Qed.

(** What processing a tag does to the types and texts of the store: a
    skipped tag changes nothing; otherwise the matched text is replaced
    in its element, every other element keeps its text, and the new
    elements hold lines of the value. *)
Lemma processTag_effect map tag h h' pre post :
  tag_wf tag → located h tag pre post →
  processTag map tag h = Some (tt, h') →
  match resolve map tag with
  | None => h' = h
  | Some tagValue =>
      ∃ isNew, newItemsCase tag tagValue h = Some (isNew, h)
        ∧ grows (line_of tagValue)
            (set_text h (getElement (t_range tag))
               (pre ++ replacement tag (inPlaceValue isNew tagValue) ++ post))
            h'
  end.
Proof.
  intros Hwf Hloc Hrun. destruct (resolve map tag) as [tagValue|] eqn:Hres.
  - destruct (processTag_inv _ _ _ _ _ Hres Hrun)
      as (isNew & h1 & h2 & Hnew & Hrep & Hitems & Hclean).
    exists isNew. split; [done|].
    rewrite (replace_spec _ _ _ _ _ Hwf Hloc) in Hrep. injection Hrep as <-.
    etrans; [|by eapply preserves_cleanup].
    destruct isNew.
    + eapply preserves_newItems; [by left | | done].
      apply Forall_forall. intros s Hs%in_tail. by right.
    + injection Hitems as <-. reflexivity.
  - unfold processTag in Hrun. rewrite Hres in Hrun. by injection Hrun.
Qed.

End process_facts.

(** ** Properties of the substitution engine *)


(** C6. Every tag produced by the scanner has a prefix and a suffix without
    [<] or [>] and a name without [<], [>] or [?]; the matched text is
    [<prefix<tagSpec>suffix>], where the tag specification is the name
    followed by [?] with the optional flag set, or the name alone, not ending
    with [?], with the optional flag unset. *)
Theorem C6_tag_invariants (h : heap) (docPart : ref) (tags : list Tag)
    (tag : Tag) :
  findAllTags h docPart = Some tags → tag ∈ tags →
  forallb no_angle (t_text1 tag) = true
  ∧ forallb no_angle (t_text2 tag) = true
  ∧ forallb name_char (t_tag tag) = true
  ∧ ∃ tagSpec,
      t_match tag = tag_text (t_text1 tag) tagSpec [] (t_text2 tag)
      ∧ forallb no_angle tagSpec = true
      ∧ if t_opt tag
        then tagSpec = t_tag tag ++ ["?"%char]
        else tagSpec = t_tag tag ∧ last tagSpec ≠ Some "?"%char.
Proof.
  intros Hfind Hin.
  destruct (findAllTags_found _ _ _ _ Hfind Hin)
    as (((Hp & Ht & Ht0 & Hq) & Hmatch & _) & _).
  repeat split; [done..|].
  exists (t_tag tag ++ marker (t_opt tag)). split; [|split].
  - rewrite Hmatch. unfold tag_text. by rewrite <- !app_assoc.
  - rewrite forallb_app, forallb_marker, name_char_no_angle; done.
  - destruct (t_opt tag); simpl; [done|]. rewrite app_nil_r. split; [done|].
    intros Hlast. apply last_Some in Hlast as [l' Hl'].
    rewrite Hl', forallb_app in Ht. simpl in Ht.
    by rewrite andb_false_r in Ht.
Qed.

Lemma C6_witness :
  findAllTags hello_heap 0%nat = Some [hello_tag]
  ∧ forallb no_angle (t_text1 hello_tag) = true
  ∧ forallb no_angle (t_text2 hello_tag) = true
  ∧ forallb name_char (t_tag hello_tag) = true
  ∧ ∃ tagSpec,
      t_match hello_tag
      = tag_text (t_text1 hello_tag) tagSpec [] (t_text2 hello_tag)
      ∧ forallb no_angle tagSpec = true
      ∧ if t_opt hello_tag
        then tagSpec = t_tag hello_tag ++ ["?"%char]
        else tagSpec = t_tag hello_tag ∧ last tagSpec ≠ Some "?"%char.
Proof.
  split; [reflexivity|].
  apply (C6_tag_invariants hello_heap 0%nat [hello_tag] hello_tag).
  - reflexivity.
  - apply list_elem_of_singleton. reflexivity.
Defined.

(** *** Constructs without a tag name *)
Section empty_names.
Import Regex.

Lemma search_cons_None r c s pos :
  longest r (c :: s) = None → search r (c :: s) pos = search r s (S pos).
Proof. intros Hl. unfold search; fold search. by rewrite Hl. Qed.

(** The search skips the characters that do not open a construct. *)
Lemma search_run u s pos :
  Forall (fun c => c ≠ "<"%char) u →
  search pattern (u ++ s) pos = search pattern s (pos + length u).
Proof.
  intros Hu. revert pos.
  induction Hu as [|c u Hc Hu IH]; intros pos; cbn [app length].
  - by rewrite Nat.add_0_r.
  - rewrite search_cons_None by by apply longest_pattern_head.
    rewrite IH. f_equal. lia.
Qed.

Lemma no_angle_not_open u :
  forallb no_angle u = true → Forall (fun c => c ≠ "<"%char) u.
Proof.
  intros Hu. apply Forall_forall. intros c Hc%list_elem_of_In ->.
  rewrite forallb_forall in Hu. by apply Hu in Hc.
Qed.

Lemma find_first_None h r es :
  (∀ e, e ∈ es → search r (content h e) 0 = None) →
  find_first h r es 0 = None.
Proof.
  induction es as [|e es IH]; intros Hes; [done|]. simpl.
  rewrite drop_0, Hes by by left. apply IH. intros e' He'. apply Hes. by right.
Qed.

Lemma collectTags_app h parts tags0 :
  foldl (fun tags part =>
           tags ← tags; arr ← findAllTags h part; Some (tags ++ arr))
        (Some tags0) parts
  = (fun l => tags0 ++ concat l) <$> mapM (findAllTags h) parts.
Proof.
  revert tags0. induction parts as [|part parts IH]; intros tags0; simpl.
  - by rewrite app_nil_r.
  - destruct (findAllTags h part) as [arr|]; simpl.
    + rewrite IH. destruct (mapM (findAllTags h) parts); simpl; [|done].
      by rewrite app_assoc.
    + clear IH. induction parts as [|part' parts IH]; [done|]. done.
Qed.

(** The tags of a document: those of its parts, in the order of the parts. *)
Lemma collectTags_concat h parts :
  collectTags h parts
  = (fun l => concat l) <$> mapM (findAllTags h) parts.
Proof. unfold collectTags. by rewrite collectTags_app. Qed.

Lemma concat_map_nil {A B} (l : list A) :
  concat (List.map (fun _ => @nil B) l) = [].
Proof. induction l; [done|]. done. Qed.

Lemma merge_no_tags document map h :
  collectTags h (getDocumentParts document) = Some [] →
  merge document map h = Some (tt, h).
Proof.
  intros Htags. unfold merge. erewrite bind_run; [|unfold read; by rewrite Htags].
  done.
Qed.

End empty_names.

(** No match starts at the head of a construct with an empty name,
    whatever follows it. *)
Lemma empty_name_head p q o rest :
  forallb no_angle p = true → forallb no_angle q = true →
  Regex.longest pattern (tag_text p [] (marker o) q ++ rest) = None.
Proof.
  intros Hp Hq.
  destruct (Regex.longest pattern _) as [n|] eqn:Hl; [|done].
  apply longest_pattern_inv
    in Hl as (p' & t' & o' & q' & (Hp' & Ht' & Ht0 & _) & Heq & _).
  apply (f_equal (fun l => l ++ drop n (tag_text p [] (marker o) q ++ rest)))
    in Heq.
  rewrite take_drop in Heq. unfold tag_text in Heq. simpl in Heq.
  injection Heq as Heq. rewrite <- !app_assoc in Heq. simpl in Heq.
  apply (run_unique no_angle) in Heq as (_ & _ & Heq); [|done..].
  destruct t' as [|c t']; [done|]. simpl in Ht'.
  apply andb_true_iff in Ht' as [Hc _].
  destruct o; simpl in Heq; injection Heq as <- _; done.
Qed.

(** A construct with an empty tag name that stands alone holds no match of
    the pattern. *)
Lemma empty_name_alone (p q : text) (o : bool) (pos : nat) :
  forallb no_angle p = true → forallb no_angle q = true →
  Regex.search pattern (tag_text p [] (marker o) q) pos = None.
Proof.
  intros Hp Hq.
  assert (Htail : ∀ pos', Regex.search pattern
                    (marker o ++ ">"%char :: q ++ [">"%char]) pos' = None).
  { intros pos'.
    rewrite <- (app_nil_r (marker o ++ ">"%char :: q ++ [">"%char])).
    rewrite search_run; [done|].
    apply Forall_app. split; [by destruct o; repeat constructor|].
    constructor; [done|]. apply Forall_app.
    split; [by apply no_angle_not_open | by repeat constructor]. }
  pose proof (empty_name_head p q o [] Hp Hq) as Hhead.
  rewrite app_nil_r in Hhead.
  unfold tag_text in *. cbn [app] in *.
  rewrite search_cons_None by done.
  rewrite search_run by by apply no_angle_not_open.
  rewrite search_cons_None; [apply Htail|].
  apply longest_pattern_closed, forallb_marker.
Qed.

(** The merge of a document whose texts are all such a construct finds no
    tag and returns the document as it is. *)
Lemma merge_only_empty_names (p q : text) (o : bool) (document : Document)
    (map : gmap text text) (h : heap) :
  forallb no_angle p = true → forallb no_angle q = true →
  (∀ part, part ∈ getDocumentParts document →
     ∃ ts, text_elements (length h) h part = Some ts
           ∧ ∀ e, e ∈ ts → content h e = tag_text p [] (marker o) q) →
  merge document map h = Some (tt, h).
Proof.
  intros Hp Hq Hparts. apply merge_no_tags.
  rewrite collectTags_concat.
  assert (Hall : mapM (findAllTags h) (getDocumentParts document)
                 = Some (List.map (fun _ => []) (getDocumentParts document))).
  { apply mapM_Some. apply Forall2_fmap_r, Forall_Forall2_diag.
    apply Forall_forall. intros part Hpart.
    destruct (Hparts part Hpart) as (ts & Hts & Hw).
    unfold findAllTags, findAllRanges, findText, search_fuel.
    rewrite Hts. simpl.
    rewrite find_first_None; [done|].
    intros e He. rewrite (Hw e He). by apply empty_name_alone. }
  rewrite Hall. simpl. f_equal. apply concat_map_nil.
Qed.

(** *** The edit of one tag *)

(** C1, as the code has it.  The value written in place of a tag is its
    resolved value, except for a list item that the tag fills entirely,
    where it is the first line of the resolved value.  The edit always
    succeeds, and after it, as after the whole processing of the tag, the
    text of the container is the text before the match, the replacement,
    and the text after the match; the replacement is prefix, value and
    suffix for a non-empty value, and nothing for an empty one: the whole
    matched span is deleted. *)
Theorem C1_edit_replaces_matched_text (map : gmap text text) (tag : Tag)
    (h : heap) (pre post tagValue : text) (isNew : bool) :
  tag_wf tag → located h tag pre post →
  resolve map tag = Some tagValue →
  newItemsCase tag tagValue h = Some (isNew, h) →
  let element := getElement (t_range tag) in
  let v := inPlaceValue isNew tagValue in
  let replaceTxt := if bool_decide (v = []) then []
                    else t_text1 tag ++ v ++ t_text2 tag in
  (isNew = false → v = tagValue)
  ∧ (∃ h1, replace tag v h = Some (tt, h1)
           ∧ content h1 element = pre ++ replaceTxt ++ post)
  ∧ (∀ h', processTag map tag h = Some (tt, h') →
           content h' element = pre ++ replaceTxt ++ post).
Proof.
  intros Hwf Hloc Hres Hnew element v replaceTxt.
  assert (Hrepl : replaceTxt = replacement tag v).
  { unfold replaceTxt, replacement. by destruct v. }
  pose proof Hloc as (el & Hel & _).
  apply lookup_lt_Some in Hel. fold element in Hel.
  split; [by intros ->|]. split.
  - eexists. split; [by apply replace_spec|].
    rewrite content_set_text by done. by rewrite Hrepl.
  - intros h' Hrun.
    pose proof (processTag_effect _ _ _ _ _ _ Hwf Hloc Hrun) as Heff.
    rewrite Hres in Heff. destruct Heff as (isNew' & Hnew' & Hgrows).
    assert (isNew' = isNew) as -> by congruence.
    erewrite grows_content; [|done|by rewrite length_set_text].
    rewrite content_set_text by done. by rewrite Hrepl.
Qed.

Lemma C1_witness :
  content hello_heap 2%nat = T "Hello " ++ T "<<Name>>" ++ T " World"
  ∧ ∀ h', processTag hello_map hello_tag hello_heap = Some (tt, h') →
          content h' 2%nat = T "Hello " ++ T "Bob" ++ T " World".
Proof.
  split; [reflexivity|].
  apply (C1_edit_replaces_matched_text hello_map hello_tag hello_heap
           (T "Hello ") (T " World") (T "Bob") false).
  - repeat split; try reflexivity; try discriminate.
  - eexists. repeat split; reflexivity.
  - reflexivity.
  - reflexivity.
Defined.

(** C1 as stated fails on a list item filled by a tag whose value has two
    lines: the text written is the first line, not the value. *)
Lemma C1_counterexample :
  tag_wf item_tag
  ∧ located item_heap item_tag [] []
  ∧ resolve item_map item_tag = Some lines_AB
  ∧ lines_AB ≠ []
  ∧ (fun r => content r.2 2%nat) <$> processTag item_map item_tag item_heap
    = Some (T "A")
  ∧ T "A" ≠ [] ++ (t_text1 item_tag ++ lines_AB ++ t_text2 item_tag) ++ [].
Proof.
  split; [repeat split; try reflexivity; discriminate|].
  split; [eexists; repeat split; reflexivity|].
  split; [reflexivity|]. split; [discriminate|].
  split; [vm_compute; reflexivity | discriminate].
Qed.

(** ** The order of the matches *)
Section order_facts.

Lemma flat_map_lookup {A B} (f : A → list B) es j y :
  flat_map f es !! j = Some y →
  ∃ p e j', es !! p = Some e ∧ f e !! j' = Some y.
Proof.
  revert j. induction es as [|e es IH]; intros j; simpl; [done|].
  intros [Hj | [_ Hj]]%lookup_app_Some.
  - by exists 0%nat, e, j.
  - destruct (IH _ Hj) as (p & e' & j' & ? & ?). by exists (S p), e', j'.
Qed.

(** Two entries of a concatenation of blocks come from two blocks in the
    same order, or from one block in the same order. *)
Lemma flat_map_lookup_order {A B} (f : A → list B) es i j x y :
  (i < j)%nat → flat_map f es !! i = Some x → flat_map f es !! j = Some y →
  ∃ p1 p2 e1 e2 i' j',
    es !! p1 = Some e1 ∧ es !! p2 = Some e2
    ∧ f e1 !! i' = Some x ∧ f e2 !! j' = Some y
    ∧ ((p1 < p2)%nat ∨ (p1 = p2 ∧ (i' < j')%nat)).
Proof.
  revert i j. induction es as [|e es IH]; intros i j Hij; simpl; [done|].
  intros [Hi | [Hlen Hi]]%lookup_app_Some [Hj | [Hlen' Hj]]%lookup_app_Some.
  - exists 0%nat, 0%nat, e, e, i, j. eauto 10.
  - destruct (flat_map_lookup _ _ _ _ Hj) as (p & e' & j' & ? & ?).
    exists 0%nat, (S p), e, e', i, j'. repeat split; try done. left. lia.
  - apply lookup_lt_Some in Hj. lia.
  - destruct (IH (i - length (f e))%nat (j - length (f e))%nat)
      as (p1 & p2 & e1 & e2 & i' & j' & ? & ? & ? & ? & Hord);
      [lia | done | done |].
    exists (S p1), (S p2), e1, e2, i', j'. repeat split; try done.
    destruct Hord as [?|[-> ?]]; [left; lia | right; done].
Qed.

(** The ranges found in one text element are ordered and disjoint. *)
Lemma ranges_in_order h r e i j r1 r2 :
  Regex.nullable r = false → (i < j)%nat →
  ranges_in h r e 0 !! i = Some r1 → ranges_in h r e 0 !! j = Some r2 →
  getEndOffsetInclusive r1 < getStartOffset r2.
Proof.
  intros Hn Hij. unfold ranges_in. rewrite !list_lookup_fmap.
  destruct (scan r _ 0 0 !! i) as [[st1 n1]|] eqn:H1; [|done].
  destruct (scan r _ 0 0 !! j) as [[st2 n2]|] eqn:H2; [|done].
  simpl. intros [= <-] [= <-]. simpl.
  pose proof (scan_ordered r (drop 0 (content h e)) 0 0 Hn) as Hord.
  pose proof (ordered_from_disjoint _ _ _ _ _ _ _ _ Hord Hij H1 H2).
  destruct (ordered_from_lookup _ _ _ _ _ Hord H1). lia.
Qed.

Lemma ranges_in_range h r e i rg :
  Regex.nullable r = false →
  ranges_in h r e 0 !! i = Some rg →
  getElement rg = e ∧ 0 ≤ getStartOffset rg ≤ getEndOffsetInclusive rg.
Proof.
  intros Hn. unfold ranges_in. rewrite list_lookup_fmap.
  destruct (scan r _ 0 0 !! i) as [[st n]|] eqn:H1; [|done].
  simpl. intros [= <-]. simpl.
  pose proof (scan_ordered r (drop 0 (content h e)) 0 0 Hn) as Hord.
  destruct (ordered_from_lookup _ _ _ _ _ Hord H1). split; [done | lia].
Qed.

End order_facts.

(** C7. The matches the scanner returns for a document part come in the
    order of their occurrence: of two matches, the first returned lies in a
    text element that comes earlier in the part, or in the same element and
    then it ends strictly before the second starts; so no two matches
    overlap.  The tags of [findAllTags] are these matches in this order. *)
Theorem C7_scanner_order (h : heap) (docPart : ref) (ts : list ref) :
  text_elements (length h) h docPart = Some ts → NoDup ts →
  ∃ ranges tags,
    findAllRanges h docPart pattern = Some ranges
    ∧ findAllTags h docPart = Some tags
    ∧ List.map t_range tags = ranges
    ∧ ∀ i j r1 r2,
        (i < j)%nat → ranges !! i = Some r1 → ranges !! j = Some r2 →
        0 ≤ getStartOffset r1 ≤ getEndOffsetInclusive r1
        ∧ ∃ p1 p2,
            ts !! p1 = Some (getElement r1)
            ∧ ts !! p2 = Some (getElement r2)
            ∧ ((p1 < p2)%nat
               ∨ (p1 = p2
                  ∧ getEndOffsetInclusive r1 < getStartOffset r2)).
Proof.
  intros Hts Hnd.
  pose proof (findAllRanges_spec h docPart pattern ts
                pattern_not_nullable Hnd Hts) as Hranges.
  destruct (findAllTags_total _ _ _ Hranges) as (tags & Htags & Hmap).
  eexists _, tags. split; [done|]. split; [done|]. split; [done|].
  intros i j r1 r2 Hij H1 H2.
  destruct (flat_map_lookup_order _ _ _ _ _ _ Hij H1 H2)
    as (p1 & p2 & e1 & e2 & i' & j' & He1 & He2 & Hr1 & Hr2 & Hord).
  destruct (ranges_in_range _ _ _ _ _ pattern_not_nullable Hr1) as [<- ?].
  destruct (ranges_in_range _ _ _ _ _ pattern_not_nullable Hr2) as [<- ?].
  split; [done|]. exists p1, p2. split; [done|]. split; [done|].
  destruct Hord as [?|[-> Hlt]]; [by left|]. right. split; [done|].
  assert (getElement r1 = getElement r2) as Heq by congruence.
  rewrite Heq in Hr1.
  by eapply (ranges_in_order h pattern (getElement r2) i' j').
Qed.

Lemma C7_witness :
  text_elements (length two_par_heap) two_par_heap 0%nat = Some [2%nat; 4%nat]
  ∧ ∃ ranges tags,
      findAllRanges two_par_heap 0%nat pattern = Some ranges
      ∧ findAllTags two_par_heap 0%nat = Some tags
      ∧ List.map t_range tags = ranges
      ∧ ∀ i j r1 r2,
          (i < j)%nat → ranges !! i = Some r1 → ranges !! j = Some r2 →
          0 ≤ getStartOffset r1 ≤ getEndOffsetInclusive r1
          ∧ ∃ p1 p2,
              [2%nat; 4%nat] !! p1 = Some (getElement r1)
              ∧ [2%nat; 4%nat] !! p2 = Some (getElement r2)
              ∧ ((p1 < p2)%nat
                 ∨ (p1 = p2
                    ∧ getEndOffsetInclusive r1 < getStartOffset r2)).
Proof.
  split; [reflexivity|].
  apply (C7_scanner_order two_par_heap 0%nat [2%nat; 4%nat]).
  - reflexivity.
  - compute_done.
Defined.

(** ** The replacement loop *)
Section loop_facts.

Lemma merge_loop_states map tags h0 t h hf :
  loop_state map tags h0 t h →
  merge_loop map tags t h = Some (tt, hf) →
  loop_state map tags h0 0 hf.
Proof.
  revert h. induction t as [|t IH]; intros h Hstate; simpl.
  - by intros [= <-].
  - intros (tag & h1 & Htag & Hrest)%bind_Some.
    apply bind_Some in Hrest as ([] & h2 & Hproc & Hrest).
    destruct (tags !! t) as [tag'|] eqn:Ht; [|done].
    injection Htag as -> <-. eapply IH; [|done].
    by eapply loop_step.
Qed.

Lemma mapM_findAllTags_found h parts tagss tag :
  mapM (findAllTags h) parts = Some tagss → tag ∈ concat tagss →
  tag_wf tag ∧ ∃ pre post, located h tag pre post.
Proof.
  intros Hm%mapM_Some Hin.
  apply list_elem_of_In, in_concat in Hin as (l & Hl%list_elem_of_In & Hin).
  apply list_elem_of_lookup in Hl as [i Hi].
  destruct (Forall2_lookup_r _ _ _ _ _ Hm Hi) as (part & _ & Hfind).
  apply list_elem_of_In in Hin.
  destruct (findAllTags_found _ _ _ _ Hfind Hin) as (? & _ & _ & ?). done.
Qed.

Lemma collectTags_found h parts tags tag :
  collectTags h parts = Some tags → tag ∈ tags →
  tag_wf tag ∧ ∃ pre post, located h tag pre post.
Proof.
  rewrite collectTags_concat.
  destruct (mapM (findAllTags h) parts) as [tagss|] eqn:Hm; [|done].
  intros [= <-]. by eapply mapM_findAllTags_found.
Qed.

(** The tags of a document are the matches of its text elements, in the
    order of the elements. *)
Lemma collectTags_spec h parts ts :
  all_text_elements h parts = Some ts → NoDup ts →
  ∃ tags, collectTags h parts = Some tags
          ∧ List.map t_range tags
            = flat_map (fun e => ranges_in h pattern e 0) ts.
Proof.
  rewrite collectTags_concat. unfold all_text_elements.
  revert ts. induction parts as [|part parts IH]; intros ts; simpl.
  - intros [= <-] _. by exists [].
  - destruct (text_elements (length h) h part) as [ts1|] eqn:Hts1; [|done].
    simpl. destruct (mapM (text_elements (length h) h) parts) as [tss|];
      [|done].
    simpl. intros [= <-] [Hnd1 [_ Hnd2]]%NoDup_app.
    destruct (IH _ eq_refl Hnd2) as (tags2 & Htags2 & Hmap2).
    pose proof (findAllRanges_spec h part pattern ts1
                  pattern_not_nullable Hnd1 Hts1) as Hranges.
    destruct (findAllTags_total _ _ _ Hranges) as (tags1 & Htags1 & Hmap1).
    rewrite Htags1. simpl.
    destruct (mapM (findAllTags h) parts) as [tagss|]; [|done].
    simpl in *. injection Htags2 as <-.
    exists (tags1 ++ concat tagss). split; [done|].
    by rewrite map_app, flat_map_app, Hmap1, Hmap2.
Qed.

Lemma collectTags_sorted h parts ts tags :
  all_text_elements h parts = Some ts → NoDup ts →
  collectTags h parts = Some tags → sorted_tags tags.
Proof.
  intros Hts Hnd Htags.
  destruct (collectTags_spec _ _ _ Hts Hnd) as (tags' & Htags' & Hmap).
  assert (tags' = tags) as -> by congruence.
  intros i j ti tj Hij Hi Hj Helem.
  assert (Hri : List.map t_range tags !! i = Some (t_range ti))
    by by rewrite list_lookup_fmap, Hi.
  assert (Hrj : List.map t_range tags !! j = Some (t_range tj))
    by by rewrite list_lookup_fmap, Hj.
  rewrite Hmap in Hri, Hrj.
  destruct (flat_map_lookup_order _ _ _ _ _ _ Hij Hri Hrj)
    as (p1 & p2 & e1 & e2 & i' & j' & He1 & He2 & Hr1 & Hr2 & Hord).
  destruct (ranges_in_range _ _ _ _ _ pattern_not_nullable Hr1) as [Heq1 _].
  destruct (ranges_in_range _ _ _ _ _ pattern_not_nullable Hr2) as [Heq2 _].
  assert (e1 = e2) as -> by congruence.
  destruct Hord as [Hlt|[-> Hlt]].
  - pose proof (NoDup_lookup _ _ _ _ Hnd He1 He2). lia.
  - by eapply (ranges_in_order h pattern e2 i' j').
Qed.

(** Processing the last tag left keeps the prefixes of the tags before. *)
Lemma prefixes_kept_step map tags h0 t tag h h' :
  sorted_tags tags →
  (∀ tag, tag ∈ tags → tag_wf tag ∧ ∃ pre post, located h0 tag pre post) →
  tags !! t = Some tag →
  prefixes_kept tags h0 (S t) h →
  processTag map tag h = Some (tt, h') →
  prefixes_kept tags h0 t h'.
Proof.
  intros Hsorted Hfound Htag Hinv Hrun.
  destruct (Hfound tag) as (Hwf & pre0 & post0 & Hloc0);
    [by eapply list_elem_of_lookup_2|].
  destruct (Hinv t tag) as (el & post & Hel & Hty & Htxt); [lia | done|].
  destruct Hloc0 as (el0 & Hel0 & _ & Htxt0 & Hpre0).
  set (e := getElement (t_range tag)) in *.
  assert (Horig : content h0 e = pre0 ++ t_match tag ++ post0).
  { unfold content. by rewrite Hel0. }
  assert (Hupto : upto tag = length (pre0 ++ t_match tag)).
  { destruct Hwf as (_ & _ & ? & Hlast). unfold upto. rewrite Hlast.
    unfold JS.len in *. rewrite length_app. lia. }
  assert (Hloc : located h tag pre0 post).
  { exists el. repeat split; [done..| |done].
    rewrite Htxt, Horig, Hupto, app_assoc, take_app_length.
    by rewrite <- app_assoc. }
  pose proof (processTag_effect _ _ _ _ _ _ Hwf Hloc Hrun) as Heff.
  destruct (resolve map tag) as [tagValue|].
  - destruct Heff as (isNew & _ & Hgrows).
    intros i tagi Hi Htagi.
    destruct (Hinv i tagi) as (eli & posti & Heli & Htyi & Htxti);
      [lia | done|].
    destruct (decide (getElement (t_range tagi) = e)) as [Heq|Hne].
    + pose proof (Hsorted i t tagi tag Hi Htagi Htag Heq) as Hlt.
      rewrite Heq in *.
      destruct (grows_lookup _ _ _ _ _ Hgrows
                  (set_text_lookup h e el _ Hel)) as (el' & Hel' & Hshape).
      unfold shape in Hshape. simpl in Hshape. injection Hshape as Hty' Htxt'.
      exists el', (drop (upto tagi) pre0 ++ replacement tag
                     (inPlaceValue isNew tagValue) ++ post).
      split; [done|]. split; [congruence|].
      rewrite Htxt', Horig.
      assert (upto tagi ≤ length pre0)%nat.
      { unfold upto. unfold JS.len in Hpre0. lia. }
      rewrite take_app_le by done.
      by rewrite (app_assoc (take _ _)), take_drop.
    + assert (Hlk : set_text h e (pre0 ++ replacement tag
                        (inPlaceValue isNew tagValue) ++ post)
                      !! getElement (t_range tagi) = Some eli).
      { by rewrite set_text_lookup_ne. }
      destruct (grows_lookup _ _ _ _ _ Hgrows Hlk) as (el' & Hel' & Hshape).
      unfold shape in Hshape. injection Hshape as Hty' Htxt'.
      exists el', posti. split; [done|]. split; congruence.
  - subst h'. intros i tagi Hi. apply Hinv. lia.
Qed.

(** While the loop runs, the recorded offsets of the tag to process next,
    and of all the tags before it, still delimit their matched texts. *)
Lemma loop_state_prefixes map tags h0 t h :
  sorted_tags tags →
  (∀ tag, tag ∈ tags → tag_wf tag ∧ ∃ pre post, located h0 tag pre post) →
  loop_state map tags h0 t h → prefixes_kept tags h0 t h.
Proof.
  intros Hsorted Hfound Hstate.
  induction Hstate as [|t tag h h' Hstate IH Htag Hrun].
  - intros i tag _ Htag.
    destruct (Hfound tag) as (_ & pre & post & el & Hel & Hty & Htxt & _);
      [by eapply list_elem_of_lookup_2|].
    exists el, (drop (upto tag) (e_text el)). split; [done|]. split; [done|].
    unfold content. by rewrite Hel, take_drop.
  - by eapply prefixes_kept_step.
Qed.

Lemma prefixes_kept_located tags h0 t h tag :
  (∀ tag, tag ∈ tags → tag_wf tag ∧ ∃ pre post, located h0 tag pre post) →
  prefixes_kept tags h0 (S t) h → tags !! t = Some tag →
  ∃ pre post, located h tag pre post ∧ located h0 tag pre
                (drop (upto tag) (content h0 (getElement (t_range tag)))).
Proof.
  intros Hfound Hinv Htag.
  destruct (Hfound tag) as (Hwf & pre0 & post0 & Hloc0);
    [by eapply list_elem_of_lookup_2|].
  destruct (Hinv t tag) as (el & post & Hel & Hty & Htxt); [lia | done|].
  destruct Hloc0 as (el0 & Hel0 & Hty0 & Htxt0 & Hpre0).
  set (e := getElement (t_range tag)) in *.
  assert (Horig : content h0 e = pre0 ++ t_match tag ++ post0).
  { unfold content. by rewrite Hel0. }
  assert (Hupto : upto tag = length (pre0 ++ t_match tag)).
  { destruct Hwf as (_ & _ & ? & Hlast). unfold upto. rewrite Hlast.
    unfold JS.len in *. rewrite length_app. lia. }
  exists pre0, post. split.
  - exists el. repeat split; [done..| |done].
    rewrite Htxt, Horig, Hupto, app_assoc, take_app_length.
    by rewrite <- app_assoc.
  - exists el0. repeat split; [done..| |done].
    rewrite Htxt0, Horig, Hupto, (app_assoc pre0), drop_app_length.
    by rewrite <- app_assoc.
Qed.

End loop_facts.

(** C5. [merge] enumerates the tags of all the parts on the store it is
    given, part after part, before any mutation, and then processes this
    sequence from its last tag to its first; and whenever the loop comes to
    a tag, the recorded offsets of this tag still delimit its matched text in
    its text element: no edit of a later match has moved it. *)
Theorem C5_reverse_order_keeps_offsets (document : Document)
    (map : gmap text text) (h0 : heap) (ts : list ref) :
  all_text_elements h0 (getDocumentParts document) = Some ts → NoDup ts →
  ∃ tagss,
    mapM (findAllTags h0) (getDocumentParts document) = Some tagss
    ∧ merge document map h0
      = merge_loop map (concat tagss) (length (concat tagss)) h0
    ∧ (∀ hf, merge document map h0 = Some (tt, hf) →
             loop_state map (concat tagss) h0 0 hf)
    ∧ ∀ t h tag,
        loop_state map (concat tagss) h0 (S t) h →
        concat tagss !! t = Some tag →
        ∃ pre post, located h tag pre post.
Proof.
  intros Hts Hnd.
  destruct (collectTags_spec _ _ _ Hts Hnd) as (tags & Htags & Hmap).
  pose proof (collectTags_sorted _ _ _ _ Hts Hnd Htags) as Hsorted.
  pose proof (fun tag => collectTags_found _ _ _ tag Htags) as Hfound.
  pose proof Htags as Hconcat. rewrite collectTags_concat in Hconcat.
  destruct (mapM (findAllTags h0) (getDocumentParts document))
    as [tagss|]; [|done].
  injection Hconcat as <-. exists tagss. split; [done|].
  assert (Hmerge : merge document map h0
                   = merge_loop map (concat tagss) (length (concat tagss)) h0).
  { unfold merge. erewrite bind_run; [done|]. unfold read. by rewrite Htags. }
  split; [done|]. split.
  - intros hf Hrun. rewrite Hmerge in Hrun.
    eapply merge_loop_states; [|done]. constructor.
  - intros t h tag Hstate Htag.
    pose proof (loop_state_prefixes _ _ _ _ _ Hsorted Hfound Hstate) as Hinv.
    destruct (prefixes_kept_located _ _ _ _ _ Hfound Hinv Htag)
      as (pre & post & Hloc & _).
    eauto.
Qed.

Lemma C5_witness :
  all_text_elements two_par_heap (getDocumentParts body_only)
  = Some [2%nat; 4%nat]
  ∧ ∃ tagss,
      mapM (findAllTags two_par_heap) (getDocumentParts body_only)
      = Some tagss
      ∧ merge body_only abc_map two_par_heap
        = merge_loop abc_map (concat tagss) (length (concat tagss))
            two_par_heap
      ∧ (∀ hf, merge body_only abc_map two_par_heap = Some (tt, hf) →
               loop_state abc_map (concat tagss) two_par_heap 0 hf)
      ∧ ∀ t h tag,
          loop_state abc_map (concat tagss) two_par_heap (S t) h →
          concat tagss !! t = Some tag →
          ∃ pre post, located h tag pre post.
Proof.
  split; [reflexivity|].
  apply (C5_reverse_order_keeps_offsets body_only abc_map two_par_heap
           [2%nat; 4%nat]).
  - reflexivity.
  - compute_done.
Defined.

(** ** Texts without a tag left to replace *)
Section settled_facts.

Lemma settled_free map u s :
  forallb no_angle u = true → settled map s → settled map (u ++ s).
Proof.
  induction u as [|c u IH]; simpl; [done|].
  intros [Hc Hu]%andb_true_iff Hs. constructor; auto.
Qed.

(** Where a construct can start in a text that begins with a run of
    characters other than brackets followed by a bracket: at this bracket,
    or behind it. *)
Lemma peel u a X pre Y :
  forallb no_angle u = true → no_angle a = false →
  u ++ a :: X = pre ++ "<"%char :: Y →
  (pre = u ∧ a = "<"%char ∧ X = Y)
  ∨ (∃ pre', pre = u ++ a :: pre' ∧ X = pre' ++ "<"%char :: Y).
Proof.
  intros Hu Ha. revert pre. induction u as [|c u IH]; intros pre; simpl.
  - destruct pre as [|c' pre]; simpl; intros [= -> ->]; eauto.
  - simpl in Hu. apply andb_true_iff in Hu as [Hc Hu].
    destruct pre as [|c' pre]; simpl.
    + intros [= -> _]. done.
    + intros [= -> Heq]. destruct (IH Hu pre Heq) as [(-> & -> & ->)|(pre' & -> & ->)].
      * by left.
      * right. by exists pre'.
Qed.

(** A tag construct found in a settled text is one of its skipped tags. *)
Lemma settled_tag_at map s pre p t o q post :
  settled map s → tag_parts p t q →
  s = pre ++ tag_text p t (marker o) q ++ post →
  map !! t = None ∧ o = false.
Proof.
  intros Hs Hparts. revert pre. induction Hs as [|c s Hc Hs IH|p' t' q' s Hparts' Hnone Hs IH];
    intros pre Heq.
  - destruct pre; discriminate.
  - destruct pre as [|c' pre]; simpl in Heq.
    + unfold tag_text in Heq. injection Heq as -> _. done.
    + injection Heq as -> Heq. by eapply IH.
  - destruct Hparts' as (Hp' & Ht' & Ht0' & Hq').
    assert (Hw : tag_text p t (marker o) q ++ post
                 = "<"%char :: (p ++ "<"%char :: t ++ marker o
                                  ++ ">"%char :: q ++ [">"%char]) ++ post)
      by done.
    rewrite Hw in Heq. unfold tag_text in Heq. simpl in Heq.
    repeat (rewrite <- app_assoc in Heq; simpl in Heq).
    (* the first "<" of the skipped tag *)
    destruct (peel [] "<"%char _ _ _ eq_refl eq_refl Heq)
      as [(-> & _ & Heq1)|(pre1 & -> & Heq1)]; clear Heq.
    { assert (Hu : tag_text p' t' (marker false) q' ++ s
                   = tag_text p t (marker o) q ++ post).
      { unfold tag_text. simpl. f_equal.
        repeat (rewrite <- app_assoc; simpl). done. }
      apply tag_text_unique in Hu as (_ & <- & <- & _); done. }
    (* its second "<" *)
    destruct (peel p' "<"%char _ _ _ Hp' eq_refl Heq1)
      as [(-> & _ & Heq2)|(pre2 & -> & Heq2)]; clear Heq1.
    { exfalso. destruct Hparts as (Hp & _).
      apply (run_unique no_angle) in Heq2 as (_ & ? & _);
        [done | by apply name_char_no_angle | done..]. }
    (* its first ">" *)
    destruct (peel t' ">"%char _ _ _ (name_char_no_angle _ Ht') eq_refl Heq2)
      as [(_ & ? & _)|(pre3 & -> & Heq3)]; [done|]. clear Heq2.
    (* its second ">" *)
    destruct (peel q' ">"%char _ _ _ Hq' eq_refl Heq3)
      as [(_ & ? & _)|(pre4 & -> & Heq4)]; [done|]. clear Heq3.
    apply (IH pre4). rewrite Heq4. unfold tag_text. simpl.
    repeat (rewrite <- app_assoc; simpl). done.
Qed.

Lemma split_forallb (P sep : ascii → bool) v :
  forallb P v = true → Forall (fun l => forallb P l = true) (JS.split sep v).
Proof.
  induction v as [|c v IH]; simpl.
  - intros _. by repeat constructor.
  - intros [Hc Hv]%andb_true_iff. specialize (IH Hv).
    destruct (sep c); [by constructor|].
    destruct (JS.split sep v) as [|w ws].
    + constructor; [|done]. simpl. by rewrite Hc.
    + apply Forall_cons in IH as [Hw Hws]. constructor; [|done].
      simpl. by rewrite Hc.
Qed.

Lemma frontier_app tags1 tags2 e :
  frontier (tags1 ++ tags2) e
  = Nat.max (frontier tags1 e) (frontier tags2 e).
Proof.
  induction tags1 as [|tag tags1 IH]; simpl; [done|].
  destruct (bool_decide _); rewrite IH; lia.
Qed.

Lemma frontier_le tags e b :
  (∀ tag, tag ∈ tags → getElement (t_range tag) = e → (upto tag ≤ b)%nat) →
  (frontier tags e ≤ b)%nat.
Proof.
  induction tags as [|tag tags IH]; intros Hb; simpl; [lia|].
  assert (frontier tags e ≤ b)%nat.
  { apply IH. intros tag' Hin. apply Hb. by right. }
  destruct (bool_decide_reflect (getElement (t_range tag) = e)); [|done].
  assert (upto tag ≤ b)%nat by (apply Hb; [by left | done]). lia.
Qed.

Lemma frontier_ge tags e tag :
  tag ∈ tags → getElement (t_range tag) = e →
  (upto tag ≤ frontier tags e)%nat.
Proof.
  induction tags as [|tag' tags IH]; [by intros ?%elem_of_nil|].
  intros [->|Hin]%elem_of_cons He; simpl.
  - rewrite bool_decide_eq_true_2 by done. lia.
  - specialize (IH Hin He). destruct (bool_decide _); lia.
Qed.

Lemma frontier_other tags e :
  (∀ tag, tag ∈ tags → getElement (t_range tag) ≠ e) → frontier tags e = 0%nat.
Proof.
  intros Hne. assert (frontier tags e ≤ 0)%nat; [|lia].
  apply frontier_le. intros tag Hin He. by apply Hne in Hin.
Qed.

(** the end of the last match before the tag [t] in its element is not
    behind the start of the tag *)
Lemma frontier_sorted tags t tag :
  sorted_tags tags → tags !! t = Some tag →
  (frontier (take t tags) (getElement (t_range tag))
   ≤ Z.to_nat (getStartOffset (t_range tag)))%nat.
Proof.
  intros Hsorted Htag. apply frontier_le. intros tagi Hin He.
  apply list_elem_of_lookup in Hin as [i Hi].
  apply lookup_take_Some in Hi as [Hi Hlt].
  pose proof (Hsorted i t tagi tag Hlt Hi Htag He). unfold upto. lia.
Qed.

Lemma frontier_take_S tags t tag e :
  tags !! t = Some tag →
  frontier (take (S t) tags) e
  = Nat.max (frontier (take t tags) e)
      (if bool_decide (getElement (t_range tag) = e) then upto tag else 0%nat).
Proof.
  intros Htag. rewrite (take_S_r _ _ _ Htag), frontier_app. simpl.
  destruct (bool_decide _); lia.
Qed.

End settled_facts.

(** ** A second merge finds nothing to replace *)
Section idempotence_facts.

Lemma covered_spec tags e k :
  covered tags e k = true →
  ∃ tag, tag ∈ tags ∧ getElement (t_range tag) = e
         ∧ getStartOffset (t_range tag) ≤ Z.of_nat k
           ≤ getEndOffsetInclusive (t_range tag).
Proof.
  unfold covered. intros (tag & Hin & Hc)%existsb_exists.
  apply andb_true_iff in Hc as [[He Hlo]%andb_true_iff Hhi].
  apply bool_decide_eq_true in He. exists tag.
  split; [by apply list_elem_of_In|]. split; [done|]. lia.
Qed.

Lemma text_covered_spec tags e s k0 k c :
  text_covered tags e s k0 = true → s !! k = Some c → no_angle c = false →
  covered tags e (k0 + k) = true.
Proof.
  revert k0 k. induction s as [|c' s IH]; intros k0 k; simpl; [done|].
  intros [Hc Hs]%andb_true_iff. destruct k as [|k]; simpl.
  - intros [= ->] Hna. rewrite Hna in Hc. by rewrite Nat.add_0_r.
  - intros Hk Hna. replace (k0 + S k)%nat with (S k0 + k)%nat by lia.
    by eapply IH.
Qed.

Lemma heap_covered_spec tags h e0 e el :
  heap_covered tags h e0 = true → h !! e = Some el → e_type el = TEXT →
  text_covered tags (e0 + e) (e_text el) 0 = true.
Proof.
  revert e0 e. induction h as [|el' h IH]; intros e0 e; simpl; [done|].
  intros [Hel Hh]%andb_true_iff. destruct e as [|e]; simpl.
  - intros [= ->] Hty. rewrite bool_decide_eq_true_2 in Hel by done.
    by rewrite Nat.add_0_r.
  - intros He Hty. replace (e0 + S e)%nat with (S e0 + e)%nat by lia.
    by eapply IH.
Qed.

(** every bracket of a text element of [h] lies in the match of a tag *)
Lemma heap_covered_bracket tags h e el k c :
  heap_covered tags h 0 = true → h !! e = Some el → e_type el = TEXT →
  e_text el !! k = Some c → no_angle c = false →
  ∃ tag, tag ∈ tags ∧ getElement (t_range tag) = e
         ∧ getStartOffset (t_range tag) ≤ Z.of_nat k
           ≤ getEndOffsetInclusive (t_range tag).
Proof.
  intros Hh He Hty Hk Hc. apply covered_spec.
  pose proof (heap_covered_spec _ _ _ _ _ Hh He Hty) as Ht.
  by apply (text_covered_spec _ _ _ _ _ _ Ht Hk Hc).
Qed.

Lemma forallb_lookup (P : ascii → bool) (s : text) :
  (∀ k c, s !! k = Some c → P c = true) → forallb P s = true.
Proof.
  intros H. apply forallb_forall. intros c Hc%list_elem_of_In.
  apply list_elem_of_lookup in Hc as [k Hk]. eauto.
Qed.

Lemma settled_all map s : forallb no_angle s = true → settled map s.
Proof.
  intros Hs. rewrite <- (app_nil_r s). apply settled_free; [done|constructor].
Qed.

Lemma resolve_free map tag tagValue :
  map_Forall (fun _ v => forallb no_angle v = true) map →
  resolve map tag = Some tagValue → forallb no_angle tagValue = true.
Proof.
  intros Hmap. unfold resolve.
  destruct (map !! t_tag tag) as [v|] eqn:Hv.
  - rewrite bool_decide_eq_true_2 by eauto. simpl. intros [= <-].
    by apply (Hmap _ _ Hv).
  - rewrite bool_decide_eq_false_2 by (by intros [? ?]). simpl.
    destruct (t_opt tag); [by intros [= <-]|done].
Qed.

Lemma resolve_None map tag :
  resolve map tag = None ↔ map !! t_tag tag = None ∧ t_opt tag = false.
Proof.
  unfold resolve. destruct (map !! t_tag tag) as [v|] eqn:Hv.
  - rewrite bool_decide_eq_true_2 by eauto. simpl. split; [done|by intros [? _]].
  - rewrite bool_decide_eq_false_2 by (by intros [? ?]). simpl.
    destruct (t_opt tag); split; try done. by intros [_ ?].
Qed.

Lemma inPlaceValue_free isNew tagValue :
  forallb no_angle tagValue = true →
  forallb no_angle (inPlaceValue isNew tagValue) = true.
Proof.
  intros Hv. destruct isNew; [|done]. simpl.
  pose proof (split_forallb no_angle JS.is_newline _ Hv) as Hall.
  destruct (JS.split JS.is_newline tagValue); [done|].
  by apply Forall_cons in Hall as [? _].
Qed.

Lemma replacement_free tag v :
  tag_wf tag → forallb no_angle v = true →
  forallb no_angle (replacement tag v) = true.
Proof.
  intros ((Hp & _ & _ & Hq) & _) Hv. unfold replacement.
  destruct v; [done|]. by rewrite !forallb_app, Hp, Hv, Hq.
Qed.

(** The text between the end of the last match before a tag, in its
    element, and the start of the tag has no bracket. *)
Lemma gap_free tags h0 t tag pre0 post0 :
  sorted_tags tags →
  (∀ tag, tag ∈ tags → tag_wf tag ∧ ∃ pre post, located h0 tag pre post) →
  heap_covered tags h0 0 = true →
  tags !! t = Some tag → located h0 tag pre0 post0 →
  forallb no_angle
    (drop (frontier (take t tags) (getElement (t_range tag))) pre0) = true.
Proof.
  intros Hsorted Hfound Hcov Htag (el0 & Hel0 & Hty0 & Htxt0 & Hpre0).
  set (e := getElement (t_range tag)) in *.
  set (F := frontier (take t tags) e).
  apply forallb_lookup. intros j c Hj.
  destruct (no_angle c) eqn:Hc; [done|]. exfalso.
  rewrite lookup_drop in Hj.
  assert (Hlt : (F + j < length pre0)%nat) by by eapply lookup_lt_Some.
  assert (Hk : e_text el0 !! (F + j)%nat = Some c).
  { rewrite Htxt0. by apply lookup_app_l_Some. }
  destruct (heap_covered_bracket _ _ _ _ _ _ Hcov Hel0 Hty0 Hk Hc)
    as (tagi & Hin & Hei & Hlo & Hhi).
  apply list_elem_of_lookup in Hin as [i Hi].
  destruct (Hfound tag) as ((_ & Hmatch & Hfirst & Hlast) & _);
    [by eapply list_elem_of_lookup_2|].
  assert (0 < JS.len (t_match tag)).
  { rewrite Hmatch. unfold JS.len. rewrite length_tag_text. lia. }
  unfold JS.len in *.
  destruct (Nat.lt_trichotomy i t) as [Hit|[->|Hit]].
  - assert (upto tagi ≤ F)%nat.
    { apply frontier_ge; [|done]. apply list_elem_of_lookup. exists i.
      by apply lookup_take_Some. }
    unfold upto in *. lia.
  - assert (tagi = tag) as -> by congruence. lia.
  - pose proof (Hsorted t i tag tagi Hit Htag Hi (eq_sym Hei)). lia.
Qed.

Lemma tails_settled_start map tags h0 :
  heap_covered tags h0 0 = true →
  tails_settled map tags h0 (length tags) h0.
Proof.
  intros Hcov. split; [done|]. intros e el Hel Hty. rewrite firstn_all.
  set (F := frontier tags e).
  exists (drop F (e_text el)). unfold content. rewrite Hel, take_drop.
  split; [done|]. apply settled_all, forallb_lookup. intros j c Hj.
  destruct (no_angle c) eqn:Hc; [done|]. exfalso.
  rewrite lookup_drop in Hj.
  destruct (heap_covered_bracket _ _ _ _ _ _ Hcov Hel Hty Hj Hc)
    as (tagi & Hin & Hei & Hlo & Hhi).
  pose proof (frontier_ge _ _ _ Hin Hei). unfold upto in *. fold F in H. lia.
Qed.

Lemma tails_settled_step map tags h0 t tag h h' :
  sorted_tags tags →
  (∀ tag, tag ∈ tags → tag_wf tag ∧ ∃ pre post, located h0 tag pre post) →
  heap_covered tags h0 0 = true →
  map_Forall (fun _ v => forallb no_angle v = true) map →
  tags !! t = Some tag →
  prefixes_kept tags h0 (S t) h →
  tails_settled map tags h0 (S t) h →
  processTag map tag h = Some (tt, h') →
  tails_settled map tags h0 t h'.
Proof.
  intros Hsorted Hfound Hcov Hmap Htag Hkept [Hlen Htails] Hrun.
  destruct (prefixes_kept_located _ _ _ _ _ Hfound Hkept Htag)
    as (pre0 & post & Hloc & Hloc0).
  destruct (Hfound tag) as (Hwf & _); [by eapply list_elem_of_lookup_2|].
  pose proof (gap_free _ _ _ _ _ _ Hsorted Hfound Hcov Htag Hloc0) as Hgap.
  pose proof (frontier_sorted _ _ _ Hsorted Htag) as HF.
  pose proof Hloc as (el & Hel & Hty & Htxt & Hpre).
  pose proof Hloc0 as (el0 & Hel0 & _ & Htxt0 & _).
  set (e := getElement (t_range tag)) in *.
  set (F := frontier (take t tags) e) in *.
  assert (HFlen : (F ≤ length pre0)%nat) by (unfold JS.len in Hpre; lia).
  assert (Horig : take F (content h0 e) = take F pre0).
  { unfold content. rewrite Hel0, Htxt0. by apply take_app_le. }
  (* the other elements keep their text and their frontier *)
  assert (Hother : ∀ e' el', e' ≠ e → h !! e' = Some el' → e_type el' = TEXT →
            ∃ post', e_text el'
                     = take (frontier (take t tags) e') (content h0 e') ++ post'
                     ∧ settled map post').
  { intros e' el' Hne Hel' Hty'.
    destruct (Htails e' el' Hel' Hty') as (post' & Htxt' & Hset').
    exists post'. split; [|done]. rewrite Htxt'.
    rewrite (frontier_take_S _ _ _ _ Htag).
    rewrite bool_decide_eq_false_2 by done. by rewrite Nat.max_0_r. }
  pose proof (processTag_effect _ _ _ _ _ _ Hwf Hloc Hrun) as Heff.
  destruct (resolve map tag) as [tagValue|] eqn:Hres.
  - destruct Heff as (isNew & _ & Hgrows).
    pose proof (resolve_free _ _ _ Hmap Hres) as Hv.
    split.
    { apply grows_length in Hgrows. rewrite length_set_text in Hgrows. lia. }
    intros e' el' Hel' Hty'.
    destruct (decide (e' < length h)%nat) as [Hlt|Hge].
    + destruct (decide (e' = e)) as [->|Hne].
      * destruct (grows_lookup _ _ _ _ _ Hgrows
                    (set_text_lookup h e el _ Hel)) as (el1 & Hel1 & Hshape).
        assert (el1 = el') as -> by congruence.
        unfold shape in Hshape. simpl in Hshape. injection Hshape as _ Htxt'.
        exists (drop F pre0 ++ replacement tag (inPlaceValue isNew tagValue)
                  ++ post).
        split.
        -- fold F.
           by rewrite Htxt', Horig, (app_assoc (take F pre0)), take_drop.
        -- apply settled_free; [done|]. apply settled_free.
           { by apply replacement_free, inPlaceValue_free. }
           destruct (Htails e el Hel Hty) as (post1 & Htxt1 & Hset1).
           assert (post1 = post) as ->; [|done].
           rewrite (frontier_take_S _ _ _ _ Htag) in Htxt1.
           rewrite bool_decide_eq_true_2 in Htxt1 by done.
           fold F in Htxt1.
           destruct Hwf as (_ & _ & ? & Hlast).
           assert (Hup : upto tag = length (pre0 ++ t_match tag)).
           { unfold upto. rewrite Hlast. unfold JS.len in *.
             rewrite length_app. lia. }
           replace (F `max` upto tag)%nat with (upto tag) in Htxt1
             by (rewrite Hup, length_app; lia).
           unfold content in Htxt1. rewrite Hel0, Htxt0, Hup in Htxt1.
           rewrite (app_assoc pre0), take_app_length in Htxt1.
           rewrite Htxt, (app_assoc pre0) in Htxt1.
           by apply app_inv_head in Htxt1.
      * apply lookup_lt_is_Some in Hlt as [el1 Hel1].
        assert (Hlk : set_text h e (pre0 ++ replacement tag
                        (inPlaceValue isNew tagValue) ++ post) !! e'
                      = Some el1) by by rewrite set_text_lookup_ne.
        destruct (grows_lookup _ _ _ _ _ Hgrows Hlk) as (el2 & Hel2 & Hshape).
        assert (el2 = el') as -> by congruence.
        unfold shape in Hshape. injection Hshape as Hty1 Htxt1.
        rewrite Htxt1. apply (Hother e' el1); [done | done | congruence].
    + assert (Hnew : line_of tagValue (e_text el')).
      { eapply grows_new; [done | done |]. rewrite length_set_text. lia. }
      exists (e_text el'). split.
      * unfold content. rewrite lookup_ge_None_2 by lia. by rewrite take_nil.
      * apply settled_all. destruct Hnew as [->|Hin]; [done|].
        pose proof (split_forallb no_angle JS.is_newline _ Hv) as Hall.
        by eapply Forall_forall in Hall.
  - subst h'. split; [done|]. intros e' el' Hel' Hty'.
    destruct (decide (e' = e)) as [->|Hne]; [|by apply Hother].
    assert (el' = el) as -> by congruence.
    exists (drop F pre0 ++ t_match tag ++ post). split.
    + fold F.
      by rewrite Htxt, Horig, (app_assoc (take F pre0)), take_drop.
    + apply settled_free; [done|].
      apply resolve_None in Hres as [Hnone Hopt].
      destruct Hwf as (Hparts & Hmatch & _). rewrite Hmatch, Hopt. simpl.
      apply settled_tag; [done..|].
      destruct (Htails e el Hel Hty) as (post1 & Htxt1 & Hset1).
      assert (post1 = post) as ->; [|done].
      rewrite (frontier_take_S _ _ _ _ Htag) in Htxt1.
      rewrite bool_decide_eq_true_2 in Htxt1 by done.
      fold F in Htxt1.
      destruct (Hfound tag) as ((_ & _ & ? & Hlast) & _);
        [by eapply list_elem_of_lookup_2|].
      assert (Hup : upto tag = length (pre0 ++ t_match tag)).
      { unfold upto. rewrite Hlast. unfold JS.len in *.
        rewrite length_app. lia. }
      replace (F `max` upto tag)%nat with (upto tag) in Htxt1
        by (rewrite Hup, length_app; lia).
      unfold content in Htxt1. rewrite Hel0, Htxt0, Hup in Htxt1.
      rewrite (app_assoc pre0), take_app_length in Htxt1.
      rewrite Htxt, (app_assoc pre0) in Htxt1.
      by apply app_inv_head in Htxt1.
Qed.

Lemma loop_state_tails map tags h0 t h :
  sorted_tags tags →
  (∀ tag, tag ∈ tags → tag_wf tag ∧ ∃ pre post, located h0 tag pre post) →
  heap_covered tags h0 0 = true →
  map_Forall (fun _ v => forallb no_angle v = true) map →
  loop_state map tags h0 t h → tails_settled map tags h0 t h.
Proof.
  intros Hsorted Hfound Hcov Hmap Hstate.
  induction Hstate as [|t tag h h' Hstate IH Htag Hrun].
  - by apply tails_settled_start.
  - eapply tails_settled_step; try done.
    by eapply loop_state_prefixes.
Qed.

(** A merge whose tags are all skipped changes nothing. *)
Lemma merge_loop_skip map tags t h :
  (t ≤ length tags)%nat →
  (∀ tag, tag ∈ tags → resolve map tag = None) →
  merge_loop map tags t h = Some (tt, h).
Proof.
  intros Ht Hskip. induction t as [|t IH]; simpl; [done|].
  destruct (lookup_lt_is_Some_2 tags t) as [tag Htag]; [lia|].
  rewrite Htag. simpl. unfold mbind, M_bind. simpl.
  unfold processTag. rewrite Hskip by by eapply list_elem_of_lookup_2.
  simpl. apply IH. lia.
Qed.

End idempotence_facts.

(** C8, as the code has it.  When no value of the field map contains a
    bracket and every bracket of the document's texts belongs to a tag
    construct found by the scanner, a second merge on the output of a
    completed merge with the same field map finds only tags that are not
    optional and whose name the field map lacks: it replaces nothing and
    leaves the document as it is. *)
Theorem C8_second_merge_finds_nothing (document : Document)
    (map : gmap text text) (h0 h' : heap) (ts : list ref) (tags : list Tag) :
  all_text_elements h0 (getDocumentParts document) = Some ts → NoDup ts →
  collectTags h0 (getDocumentParts document) = Some tags →
  heap_covered tags h0 0 = true →
  map_Forall (fun _ v => forallb no_angle v = true) map →
  merge document map h0 = Some (tt, h') →
  (∀ docPart tags' tag,
     findAllTags h' docPart = Some tags' → tag ∈ tags' →
     map !! t_tag tag = None ∧ t_opt tag = false)
  ∧ (∀ tags', collectTags h' (getDocumentParts document) = Some tags' →
              merge document map h' = Some (tt, h')).
Proof.
  intros Hts Hnd Htags Hcov Hmap Hrun.
  pose proof (collectTags_sorted _ _ _ _ Hts Hnd Htags) as Hsorted.
  pose proof (fun tag => collectTags_found _ _ _ tag Htags) as Hfound.
  assert (Hstate : loop_state map tags h0 0 h').
  { unfold merge in Hrun. apply bind_Some in Hrun as (tags0 & h1 & Hread & Hloop).
    unfold read in Hread. rewrite Htags in Hread. injection Hread as <- <-.
    eapply merge_loop_states; [|done]. constructor. }
  pose proof (loop_state_tails _ _ _ _ _ Hsorted Hfound Hcov Hmap Hstate)
    as [_ Htails].
  assert (Hskipped : ∀ docPart tags' tag,
            findAllTags h' docPart = Some tags' → tag ∈ tags' →
            map !! t_tag tag = None ∧ t_opt tag = false).
  { intros docPart tags' tag Hfind Hin.
    destruct (findAllTags_found _ _ _ _ Hfind Hin)
      as (Hwf & _ & _ & pre & post & el & Hel & Hty & Htxt & _).
    destruct (Htails _ _ Hel Hty) as (post' & Htxt' & Hset).
    simpl in Htxt'. subst post'.
    destruct Hwf as (Hparts & Hmatch & _). rewrite Hmatch in Htxt.
    by eapply settled_tag_at. }
  split; [done|]. intros tags' Htags'.
  unfold merge. erewrite bind_run; [|unfold read; by rewrite Htags'].
  apply merge_loop_skip; [done|]. intros tag Hin. apply resolve_None.
  rewrite collectTags_concat in Htags'.
  destruct (mapM (findAllTags h') (getDocumentParts document))
    as [tagss|] eqn:Hm; [|done].
  injection Htags' as <-. apply mapM_Some in Hm.
  apply list_elem_of_In, in_concat in Hin as (l & Hl%list_elem_of_In & Hin).
  apply list_elem_of_lookup in Hl as [i Hi].
  destruct (Forall2_lookup_r _ _ _ _ _ Hm Hi) as (part & _ & Hfind).
  apply list_elem_of_In in Hin. by eapply Hskipped.
Qed.

Lemma C8_witness :
  merge body_only abc_map two_par_heap = Some (tt, two_par_merged)
  ∧ content two_par_merged 2%nat = T "1 and  or <<D>>"
  ∧ (∀ docPart tags' tag,
       findAllTags two_par_merged docPart = Some tags' → tag ∈ tags' →
       abc_map !! t_tag tag = None ∧ t_opt tag = false)
  ∧ (∀ tags',
       collectTags two_par_merged (getDocumentParts body_only) = Some tags' →
       merge body_only abc_map two_par_merged = Some (tt, two_par_merged)).
Proof.
  split; [vm_compute; reflexivity|]. split; [reflexivity|].
  apply (C8_second_merge_finds_nothing body_only abc_map two_par_heap
           two_par_merged [2%nat; 4%nat] two_par_tags).
  - reflexivity.
  - compute_done.
  - vm_compute. reflexivity.
  - vm_compute. reflexivity.
  - compute_done.
  - vm_compute. reflexivity.
Defined.

(** C8 as stated fails when a value is itself a tag construct: the merge of
    "<<A>>" with A mapped to "<<A>>" gives "<<A>>" again, where a second
    merge finds the tag A, present in the field map and not optional. *)
Lemma C8_counterexample :
  merge body_only loop_map loop_heap = Some (tt, loop_heap)
  ∧ findAllTags loop_heap 0%nat = Some [loop_tag]
  ∧ loop_map !! t_tag loop_tag = Some (T "<<A>>")
  ∧ t_opt loop_tag = false.
Proof.
  split; [vm_compute; reflexivity|]. split; [vm_compute; reflexivity|].
  split; [vm_compute; reflexivity | reflexivity].
Qed.

(** ** The cleanup after an edit *)
Section cleanup_facts.

Lemma wf_from_lookup h l r0 r el :
  wf_from h l r0 = true → l !! r = Some el → wf_element h (r0 + r) el = true.
Proof.
  revert r0 r. induction l as [|el' l IH]; intros r0 r; simpl; [done|].
  intros [Hel Hl]%andb_true_iff. destruct r as [|r]; simpl.
  - intros [= ->]. by rewrite Nat.add_0_r.
  - intros Hr. replace (r0 + S r)%nat with (S r0 + r)%nat by lia. by apply IH.
Qed.

Lemma wf_heap_lookup h r el :
  wf_heap h = true → h !! r = Some el → wf_element h r el = true.
Proof. intros Hwf Hr. by apply (wf_from_lookup h h 0 r el). Qed.

Lemma wf_parent h r el p :
  wf_heap h = true → h !! r = Some el → e_parent el = Some p →
  p ≠ r ∧ ∃ pE, h !! p = Some pE ∧ r ∈ e_children pE.
Proof.
  intros Hwf Hr Hp. pose proof (wf_heap_lookup _ _ _ Hwf Hr) as Hel.
  unfold wf_element in Hel. rewrite Hp in Hel.
  repeat (apply andb_true_iff in Hel as [Hel ?]).
  destruct (h !! p) as [pE|]; [|done].
  apply bool_decide_eq_true in Hel. split; [done|].
  exists pE. split; [done|]. by eapply bool_decide_eq_true.
Qed.

Lemma wf_children h r el c :
  wf_heap h = true → h !! r = Some el → c ∈ e_children el →
  ∃ cE, h !! c = Some cE ∧ e_parent cE = Some r.
Proof.
  intros Hwf Hr Hc. pose proof (wf_heap_lookup _ _ _ Hwf Hr) as Hel.
  unfold wf_element in Hel.
  repeat (apply andb_true_iff in Hel as [Hel ?]).
  match goal with H : forallb _ _ = true |- _ => rename H into Hch end.
  rewrite forallb_forall in Hch. apply list_elem_of_In in Hc.
  specialize (Hch c Hc). destruct (h !! c) as [cE|]; [|done].
  exists cE. split; [done|]. by eapply bool_decide_eq_true.
Qed.

Lemma wf_nodup h r el :
  wf_heap h = true → h !! r = Some el → NoDup (e_children el).
Proof.
  intros Hwf Hr. pose proof (wf_heap_lookup _ _ _ Hwf Hr) as Hel.
  unfold wf_element in Hel.
  repeat (apply andb_true_iff in Hel as [Hel ?]).
  match goal with H : bool_decide (NoDup _) = true |- _ =>
    by apply bool_decide_eq_true in H end.
Qed.

Lemma wf_text h r el :
  wf_heap h = true → h !! r = Some el → is_Some (text_of (length h) h r).
Proof.
  intros Hwf Hr. pose proof (wf_heap_lookup _ _ _ Hwf Hr) as Hel.
  unfold wf_element in Hel.
  repeat (apply andb_true_iff in Hel as [Hel ?]).
  match goal with H : bool_decide (is_Some _) = true |- _ =>
    by apply bool_decide_eq_true in H end.
Qed.

Lemma wf_type h r el p pE :
  wf_heap h = true → h !! r = Some el → e_parent el = Some p →
  h !! p = Some pE →
  match e_type el with
  | TEXT => e_type pE = PARAGRAPH ∨ e_type pE = LIST_ITEM
  | TABLE_CELL => e_type pE = TABLE_ROW
  | TABLE_ROW => e_type pE = TABLE
  | _ => True
  end.
Proof.
  intros Hwf Hr Hp HpE. pose proof (wf_heap_lookup _ _ _ Hwf Hr) as Hel.
  unfold wf_element in Hel.
  repeat (apply andb_true_iff in Hel as [Hel ?]).
  match goal with H : type_ok _ _ = true |- _ => rename H into Hty end.
  unfold type_ok, parent_type in Hty. rewrite Hp in Hty. simpl in Hty.
  rewrite HpE in Hty. simpl in Hty.
  destruct (e_type el); try done; by apply bool_decide_eq_true in Hty.
Qed.

Lemma read_run {A} (f : heap → option A) h a :
  f h = Some a → read f h = Some (a, h).
Proof. intros H. unfold read. by rewrite H. Qed.

Lemma getParent_run h r el :
  h !! r = Some el → getParent r h = Some (e_parent el, h).
Proof. intros H. apply read_run. by rewrite H. Qed.

Lemma getType_run h r el :
  h !! r = Some el → getType r h = Some (e_type el, h).
Proof. intros H. apply read_run. by rewrite H. Qed.

Lemma modify_run h r el f :
  h !! r = Some el → modify r f h = Some (tt, <[r := f el]> h).
Proof. intros H. unfold modify. by rewrite H. Qed.

Lemma removeFromParent_orphan h pg pgE :
  h !! pg = Some pgE → e_parent pgE = None →
  removeFromParent pg h = Some (tt, h).
Proof.
  intros Hpg Hp. unfold removeFromParent.
  erewrite bind_run; [|by apply getParent_run]. by rewrite Hp.
Qed.

Lemma removeFromParent_spec h pg pgE p pE :
  h !! pg = Some pgE → e_parent pgE = Some p → h !! p = Some pE → p ≠ pg →
  removeFromParent pg h
  = Some (tt, <[pg := with_parent pgE None]>
                (<[p := with_children pE
                          (filter (fun c => c ≠ pg) (e_children pE))]> h)).
Proof.
  intros Hpg Hp HpE Hne. unfold removeFromParent.
  erewrite bind_run; [|by apply getParent_run]. rewrite Hp.
  erewrite bind_run; [|by apply modify_run]. cbv beta.
  erewrite modify_run; [done|]. by rewrite list_lookup_insert_ne.
Qed.

Lemma sub_heap_refl h : sub_heap h h.
Proof. split; [done|]. intros r el Hr. exists el. eauto. Qed.

Lemma sub_heap_insert h r el el' :
  h !! r = Some el → e_type el' = e_type el → e_text el' = e_text el →
  e_children el' `sublist_of` e_children el →
  sub_heap (<[r := el']> h) h.
Proof.
  intros Hr Hty Htxt Hsub. split; [by rewrite length_insert|].
  intros r' el0 Hr'. destruct (decide (r' = r)) as [->|Hne].
  - exists el'. rewrite list_lookup_insert_eq by by eapply lookup_lt_Some.
    assert (el0 = el) as -> by congruence. done.
  - exists el0. rewrite list_lookup_insert_ne by done. done.
Qed.

Lemma sub_heap_trans h1 h2 h3 :
  sub_heap h1 h2 → sub_heap h2 h3 → sub_heap h1 h3.
Proof.
  intros [Hl1 H1] [Hl2 H2]. split; [congruence|]. intros r el Hr.
  destruct (H2 r el Hr) as (el2 & Hr2 & Hty2 & Htx2 & Hsub2).
  destruct (H1 r el2 Hr2) as (el1 & Hr1 & Hty1 & Htx1 & Hsub1).
  exists el1. repeat split; [done | congruence | congruence |].
  by etrans.
Qed.

(** Removing children keeps the texts defined. *)
Lemma text_of_sub h1 h fuel r :
  sub_heap h1 h → is_Some (text_of fuel h r) → is_Some (text_of fuel h1 r).
Proof.
  intros [_ Hsub]. revert r. induction fuel as [|fuel IH]; intros r; simpl.
  - by intros [? ?].
  - destruct (h !! r) as [el|] eqn:Hr; [|by intros [? ?]].
    destruct (Hsub r el Hr) as (el1 & Hr1 & Hty & _ & Hch).
    rewrite Hr1, Hty.
    assert (Hrec : is_Some (mapM (text_of fuel h) (e_children el)) →
                   is_Some (mapM (text_of fuel h1) (e_children el1))).
    { intros Hm%mapM_is_Some. apply mapM_is_Some.
      apply Forall_forall. intros c Hc. apply IH.
      eapply Forall_forall in Hm; [done|]. by eapply elem_of_sublist. }
    destruct (e_type el); try done;
      rewrite !fmap_is_Some; apply Hrec.
Qed.

End cleanup_facts.

Section cleanup_steps.

(** The loop over the cells of a row answers whether they are all empty. *)
Lemma allEmpty_loop_spec h r rE n j :
  h !! r = Some rE → (j + n = length (e_children rE))%nat →
  (∀ c, c ∈ e_children rE →
        ∃ cE, h !! c = Some cE ∧ is_Some (text_of (length h) h c)) →
  ∃ b, allEmpty_loop r (Z.of_nat j) n h = Some (b, h)
       ∧ (b = true ↔
          ∀ i c cE, (j ≤ i)%nat → e_children rE !! i = Some c →
                    h !! c = Some cE → e_type cE = TABLE_CELL →
                    text_of (length h) h c = Some []).
Proof.
  intros Hr. revert j. induction n as [|n IH]; intros j Hjn Hcells; simpl.
  - exists true. split; [done|]. split; [|done]. intros _ i c cE Hi Hc.
    apply lookup_lt_Some in Hc. lia.
  - destruct (lookup_lt_is_Some_2 (e_children rE) j) as [c Hc]; [lia|].
    destruct (Hcells c) as (cE & HcE & [txt Htxt]);
      [by eapply list_elem_of_lookup_2|].
    erewrite bind_run; cycle 1.
    { unfold getCell. apply read_run. rewrite Hr. simpl.
      rewrite (proj2 (Z.leb_le 0 (Z.of_nat j))) by lia.
      by rewrite Nat2Z.id. }
    erewrite bind_run; [|by apply getType_run].
    destruct (IH (S j)) as (b & Hloop & Hb); [lia | done|].
    replace (Z.of_nat j + 1) with (Z.of_nat (S j)) by lia.
    assert (Hnext : ∀ i c0 cE0, (j ≤ i)%nat → i ≠ j →
              e_children rE !! i = Some c0 → h !! c0 = Some cE0 →
              e_type cE0 = TABLE_CELL →
              b = true → text_of (length h) h c0 = Some []).
    { intros i c0 cE0 Hi Hne Hc0 HcE0 Hty0 Hbt.
      eapply Hb; [done| |done..]. lia. }
    destruct (bool_decide_reflect (e_type cE = TABLE_CELL)) as [Hty|Hty].
    + erewrite bind_run; [|by apply read_run].
      destruct txt as [|ch txt]; simpl.
      * exists b. split; [done|]. split.
        -- intros Hbt i c0 cE0 Hi Hc0 HcE0 Hty0.
           destruct (decide (i = j)) as [->|Hne].
           ++ assert (c0 = c) as -> by congruence. done.
           ++ by eapply Hnext.
        -- intros Hall. apply Hb. intros i c0 cE0 Hi. apply Hall. lia.
      * exists false. split; [done|]. split; [done|]. intros Hall.
        specialize (Hall j c cE (Nat.le_refl j) Hc HcE Hty). congruence.
    + exists b. split; [done|]. split.
      * intros Hbt i c0 cE0 Hi Hc0 HcE0 Hty0.
        destruct (decide (i = j)) as [->|Hne].
        -- assert (c0 = c) as -> by congruence. congruence.
        -- by eapply Hnext.
      * intros Hall. apply Hb. intros i c0 cE0 Hi. apply Hall. lia.
Qed.

Lemma delete_first_NoDup (l : list nat) (x : nat) i :
  NoDup l → l !! i = Some x → x ∉ delete i l.
Proof.
  revert i. induction l as [|y l IH]; intros i Hnd; [done|].
  apply NoDup_cons in Hnd as [Hy Hnd]. destruct i as [|i]; simpl.
  - by intros [= ->].
  - intros Hi [->|Hin]%elem_of_cons.
    + apply Hy. by eapply list_elem_of_lookup_2.
    + by eapply IH.
Qed.

Lemma index_of_elem (l : list nat) x :
  x ∈ l → ∃ i, index_of x l = Some i ∧ l !! i = Some x.
Proof.
  intros Hin. unfold index_of.
  destruct (list_find (λ y, y = x) l) as [[i y]|] eqn:Hf; simpl.
  - apply list_find_Some in Hf as (Hi & -> & _). eauto.
  - eapply list_find_None, Forall_forall in Hf; [|done]. done.
Qed.

(** The removal of a row. *)
Lemma removeRow_spec h table tE r rE i :
  h !! table = Some tE → e_children tE !! i = Some r →
  h !! r = Some rE → r ≠ table →
  removeRow table (Z.of_nat i) h
  = Some (tt, <[r := with_parent rE None]>
                (<[table := with_children tE (delete i (e_children tE))]> h)).
Proof.
  intros Ht Hi Hr Hne. unfold removeRow.
  erewrite bind_run; [|unfold getNumChildren; apply read_run; by rewrite Ht].
  pose proof (lookup_lt_Some _ _ _ Hi).
  rewrite (proj2 (Z.leb_le 0 (Z.of_nat i))) by lia.
  rewrite (proj2 (Z.ltb_lt (Z.of_nat i) _)) by lia. simpl.
  erewrite bind_run; cycle 1.
  { apply read_run. rewrite Ht. simpl. by rewrite Nat2Z.id. }
  erewrite bind_run; [|by apply modify_run]. cbv beta.
  rewrite Nat2Z.id.
  erewrite modify_run; [done|]. by rewrite list_lookup_insert_ne.
Qed.

End cleanup_steps.

Section cleanup_row.

Lemma row_empty_lookup h rE :
  row_empty h rE ↔
  ∀ i c cE, (0 ≤ i)%nat → e_children rE !! i = Some c →
            h !! c = Some cE → e_type cE = TABLE_CELL →
            text_of (length h) h c = Some [].
Proof.
  unfold row_empty. split.
  - intros H i c cE _ Hc. apply H. by eapply list_elem_of_lookup_2.
  - intros H c cE [i Hi]%list_elem_of_lookup. apply (H i); [lia | done].
Qed.

Lemma detectEmptyRow_other h1 cell cellE :
  h1 !! cell = Some cellE →
  e_type cellE ≠ TABLE_CELL ∨ e_parent cellE = None →
  detectEmptyRow (Some cell) h1 = Some (tt, h1).
Proof.
  intros Hcell Hcase. unfold detectEmptyRow.
  erewrite bind_run; [|by apply getType_run].
  destruct (bool_decide_reflect (e_type cellE = TABLE_CELL)) as [Hty|Hty];
    [|done].
  destruct Hcase as [?|Hp]; [done|].
  erewrite bind_run; [|by apply getParent_run]. by rewrite Hp.
Qed.

(** The detection of an empty row, for a cell in a row of a table. *)
Lemma detectEmptyRow_row h1 cell cellE r rE table tE :
  h1 !! cell = Some cellE → e_type cellE = TABLE_CELL →
  e_parent cellE = Some r → h1 !! r = Some rE → e_type rE = TABLE_ROW →
  e_parent rE = Some table → h1 !! table = Some tE →
  r ∈ e_children tE → NoDup (e_children tE) → r ≠ table →
  (∀ c, c ∈ e_children rE →
        ∃ cE, h1 !! c = Some cE ∧ is_Some (text_of (length h1) h1 c)) →
  ∃ h', detectEmptyRow (Some cell) h1 = Some (tt, h')
        ∧ (row_empty h1 rE →
           (∃ tE', h' !! table = Some tE' ∧ r ∉ e_children tE')
           ∧ (∃ rE', h' !! r = Some rE' ∧ e_parent rE' = None))
        ∧ (¬ row_empty h1 rE → h' = h1).
Proof.
  intros Hcell Hcty Hcp Hr Hrty Hrp Ht Hin Hnd Hne Hcells.
  unfold detectEmptyRow.
  erewrite bind_run; [|by apply getType_run].
  rewrite bool_decide_eq_true_2 by done.
  erewrite bind_run; [|by apply getParent_run]. rewrite Hcp.
  erewrite bind_run; [|by apply getType_run].
  rewrite bool_decide_eq_true_2 by done.
  erewrite bind_run; cycle 1.
  { unfold getNumCells, getNumChildren. apply read_run. by rewrite Hr. }
  rewrite Nat2Z.id.
  destruct (allEmpty_loop_spec h1 r rE (length (e_children rE)) 0 Hr
              eq_refl Hcells) as (b & Hloop & Hb).
  rewrite <- row_empty_lookup in Hb.
  erewrite bind_run; [|exact Hloop].
  destruct b.
  - destruct (index_of_elem _ _ Hin) as (i & Hidx & Hi).
    erewrite bind_run; [|unfold getParentTable; by apply getParent_run].
    rewrite Hrp. erewrite bind_run; [|reflexivity].
    erewrite bind_run; cycle 1.
    { unfold getChildIndex. apply read_run. rewrite Ht. simpl.
      by rewrite Hidx. }
    rewrite (removeRow_spec h1 table tE r rE i) by done.
    eexists. split; [done|]. split; [|intros Hnot; by destruct Hnot; apply Hb].
    intros _. split.
    + eexists. split.
      * rewrite list_lookup_insert_ne by done.
        apply list_lookup_insert_eq. by eapply lookup_lt_Some.
      * simpl. by apply delete_first_NoDup.
    + eexists. split.
      * apply list_lookup_insert_eq. rewrite length_insert.
        by eapply lookup_lt_Some.
      * done.
  - exists h1. split; [done|]. split; [|done].
    intros Hempty. apply Hb in Hempty. done.
Qed.

End cleanup_row.

(** The cleanup that ends the processing of a tag, run on the store left
    by the edit and the expansion: when the text of the container of the
    edited text element is not empty, nothing changes; when it is empty,
    the container is removed from its parent, and then, if this parent is
    a table cell, the row of the cell is removed from its table when all the
    cells of the row are empty, and kept, with nothing else changed, when one
    of them is not. *)
Lemma cleanup_empty_container (h : heap) (element pg : ref) (el pgE : Element)
    (pgText : text) :
  wf_heap h = true →
  h !! element = Some el → e_type el = TEXT → e_parent el = Some pg →
  h !! pg = Some pgE → text_of (length h) h pg = Some pgText →
  (∀ r rE, row_of h pgE = Some r → h !! r = Some rE →
           is_Some (e_parent rE)) →
  ∃ h', cleanup element h = Some (tt, h')
    ∧ if bool_decide (pgText = []) then
        ∃ h1 pgE1,
          removeFromParent pg h = Some (tt, h1)
          ∧ h1 !! pg = Some pgE1 ∧ e_parent pgE1 = None
          ∧ (∀ p pE1, e_parent pgE = Some p → h1 !! p = Some pE1 →
                      pg ∉ e_children pE1)
          ∧ match row_of h pgE with
            | None => h' = h1
            | Some r =>
                ∃ rE table,
                  h1 !! r = Some rE ∧ e_parent rE = Some table
                  ∧ (row_empty h1 rE →
                     (∃ tE', h' !! table = Some tE' ∧ r ∉ e_children tE')
                     ∧ (∃ rE', h' !! r = Some rE' ∧ e_parent rE' = None))
                  ∧ (¬ row_empty h1 rE → h' = h1)
            end
      else h' = h.
Proof.
  intros Hwf Hel Hty Hpar Hpg Htext Hrow.
  pose proof (wf_type _ _ _ _ _ Hwf Hel Hpar Hpg) as Hpgty. rewrite Hty in Hpgty.
  unfold cleanup.
  erewrite bind_run; [|by apply getParent_run]. rewrite Hpar.
  erewrite bind_run; [|reflexivity].
  erewrite bind_run; [|by apply getType_run].
  erewrite bind_run; [|unfold getText; by apply read_run].
  destruct pgText as [|ch pgText]; [|by exists h].
  rewrite bool_decide_eq_true_2 by done. simpl.
  erewrite bind_run; [|by apply getParent_run].
  destruct (e_parent pgE) as [cell|] eqn:Hcellp.
  - (* the container has a parent *)
    destruct (wf_parent _ _ _ _ Hwf Hpg Hcellp) as (Hne & cellE & Hcell & Hin).
    set (cellE1 := with_children cellE
                     (filter (fun c => c ≠ pg) (e_children cellE))).
    set (h1 := <[pg := with_parent pgE None]> (<[cell := cellE1]> h)).
    assert (Hrem : removeFromParent pg h = Some (tt, h1))
      by by apply removeFromParent_spec.
    erewrite bind_run; [|exact Hrem].
    assert (Hlen : length h1 = length h).
    { unfold h1. by rewrite !length_insert. }
    assert (Hpg1 : h1 !! pg = Some (with_parent pgE None)).
    { unfold h1. apply list_lookup_insert_eq. rewrite length_insert.
      by eapply lookup_lt_Some. }
    assert (Hcell1 : h1 !! cell = Some cellE1).
    { unfold h1. rewrite list_lookup_insert_ne by done.
      apply list_lookup_insert_eq. by eapply lookup_lt_Some. }
    assert (Hother : ∀ x, x ≠ pg → x ≠ cell → h1 !! x = h !! x).
    { intros x Hx1 Hx2. unfold h1. by rewrite !list_lookup_insert_ne. }
    assert (Hgone : ∀ p pE1, Some cell = Some p → h1 !! p = Some pE1 →
                             pg ∉ e_children pE1).
    { intros p pE1 [= <-] Hp. assert (pE1 = cellE1) as -> by congruence.
      simpl. intros [? _]%list_elem_of_filter. done. }
    assert (Hsub : sub_heap h1 h).
    { eapply sub_heap_trans.
      - apply (sub_heap_insert _ pg (with_children pgE (e_children pgE)));
          [|done..].
        rewrite list_lookup_insert_ne by done. rewrite Hpg. by destruct pgE.
      - apply (sub_heap_insert _ cell cellE); [done..|]. apply sublist_filter. }
    assert (Hrowof : row_of h pgE
                     = if bool_decide (e_type cellE = TABLE_CELL)
                       then e_parent cellE else None).
    { unfold row_of. rewrite Hcellp. simpl. by rewrite Hcell. }
    rewrite Hrowof in *.
    destruct (bool_decide_reflect (e_type cellE = TABLE_CELL)) as [Hcty|Hcty];
      [destruct (e_parent cellE) as [r|] eqn:Hrp|].
    + (* the parent is a cell of the row [r] *)
      destruct (wf_parent _ _ _ _ Hwf Hcell Hrp) as (Hner & rE & Hr & Hinr).
      pose proof (wf_type _ _ _ _ _ Hwf Hcell Hrp Hr) as Hrty.
      rewrite Hcty in Hrty.
      destruct (Hrow r rE) as [table Htable]; [done..|].
      destruct (wf_parent _ _ _ _ Hwf Hr Htable) as (Hnet & tE & Ht & Hint).
      pose proof (wf_type _ _ _ _ _ Hwf Hr Htable Ht) as Htty.
      rewrite Hrty in Htty.
      assert (r ≠ pg) by (intros ->; destruct Hpgty; congruence).
      assert (table ≠ pg) by (intros ->; destruct Hpgty; congruence).
      assert (table ≠ cell) by (intros ->; congruence).
      destruct (detectEmptyRow_row h1 cell cellE1 r rE table tE)
        as (h' & Hdet & Hempty & Hkept); try done.
      { by rewrite Hother. }
      { by rewrite Hother. }
      { by eapply wf_nodup. }
      { intros c Hc.
        destruct (wf_children _ _ _ _ Hwf Hr Hc) as (cE & HcE & _).
        destruct Hsub as [_ Hsub'].
        destruct (Hsub' c cE HcE) as (cE1 & HcE1 & _).
        exists cE1. split; [done|]. rewrite Hlen.
        apply (text_of_sub h1 h); [by split|]. by eapply wf_text. }
      exists h'. split; [done|].
      exists h1, (with_parent pgE None). repeat split; try done.
      exists rE, table. rewrite Hother by done. done.
    + exists h1. split; [by eapply detectEmptyRow_other; eauto|].
      exists h1, (with_parent pgE None). done.
    + exists h1. split; [by eapply detectEmptyRow_other; eauto|].
      exists h1, (with_parent pgE None). done.
  - (* the container has no parent *)
    erewrite bind_run; [|by eapply removeFromParent_orphan].
    exists h. split; [done|]. exists h, pgE.
    split; [by eapply removeFromParent_orphan|]. repeat split; try done.
    unfold row_of. by rewrite Hcellp.
Qed.

Lemma cleanup_empty_container_table :
  wf_heap table_heap = true
  ∧ ∃ h', cleanup 7%nat table_heap = Some (tt, h')
      ∧ ∃ h1 pgE1,
          removeFromParent 6%nat table_heap = Some (tt, h1)
          ∧ h1 !! 6%nat = Some pgE1 ∧ e_parent pgE1 = None
          ∧ (∀ p pE1, Some 5%nat = Some p → h1 !! p = Some pE1 →
                      6%nat ∉ e_children pE1)
          ∧ ∃ rE table,
              h1 !! 2%nat = Some rE ∧ e_parent rE = Some table
              ∧ (row_empty h1 rE →
                 (∃ tE', h' !! table = Some tE' ∧ 2%nat ∉ e_children tE')
                 ∧ (∃ rE', h' !! 2%nat = Some rE' ∧ e_parent rE' = None))
              ∧ (¬ row_empty h1 rE → h' = h1).
Proof.
  split; [vm_compute; reflexivity|].
  apply (cleanup_empty_container table_heap 7%nat 6%nat (text_elem 6 "")
           (elem PARAGRAPH (Some 5%nat) [7%nat]) []).
  - vm_compute; reflexivity.
  - reflexivity.
  - reflexivity.
  - reflexivity.
  - reflexivity.
  - reflexivity.
  - intros r rE Hr HrE. vm_compute in Hr. injection Hr as <-.
    vm_compute in HrE. injection HrE as <-. by eexists.
Defined.

(** The two table scenarios: a row whose cells are all empty after the edit
    is removed from the table; with some text in its first cell the row is
    kept, and only the emptied paragraph is removed from its cell. *)
Example cleanup_row_removed :
  (fun r => e_children <$> r.2 !! 1%nat) <$> cleanup 7%nat table_heap
  = Some (Some [8%nat]).
Proof. vm_compute; reflexivity. Qed.

Example cleanup_row_kept :
  wf_heap table_kept_heap = true
  ∧ (fun r => (e_children <$> r.2 !! 1%nat, e_children <$> r.2 !! 5%nat))
      <$> cleanup 7%nat table_kept_heap
    = Some (Some [2%nat; 8%nat], Some []).
Proof. split; vm_compute; reflexivity. Qed.

(** C3 on a list item held by a table cell, the only content of its row.
    The tag is the whole text of the item and its value is empty.  The text
    of the item is deleted, so that the item and every cell of its row are
    empty; but every list item filled by its tag is then looked up among the
    children of the document part, here the body, of which the item is not a
    child: the lookup raises before the cleanup is reached, and the merge
    stops with the emptied item and its row still in place.  The cleanup,
    had it been run on that store, removes the item from its cell and the
    row from its table. *)
Theorem C3_emptied_item_not_removed :
  wf_heap nested_item_heap = true
  ∧ collectTags nested_item_heap (getDocumentParts body_only)
    = Some [nested_tag]
  ∧ resolve empty_value_map nested_tag = Some []
  ∧ newItemsCase nested_tag [] nested_item_heap
    = Some (true, nested_item_heap)
  ∧ replace nested_tag [] nested_item_heap
    = Some (tt, set_text nested_item_heap 5%nat [])
  ∧ text_of 6 (set_text nested_item_heap 5%nat []) 2%nat = Some []
  ∧ getChildIndex 0%nat 4%nat (set_text nested_item_heap 5%nat []) = None
  ∧ newItems nested_tag [] (set_text nested_item_heap 5%nat []) = None
  ∧ processTag empty_value_map nested_tag nested_item_heap = None
  ∧ merge body_only empty_value_map nested_item_heap = None
  ∧ (fun r => (e_children <$> r.2 !! 3%nat, e_children <$> r.2 !! 1%nat))
      <$> cleanup 5%nat (set_text nested_item_heap 5%nat [])
    = Some (Some [], Some []).
Proof.
  repeat split; vm_compute; reflexivity.
Qed.

(** ** The expansion of a list item *)
Section item_facts.

Lemma insertListItem_spec h part partE pre post line :
  h !! part = Some partE → e_children partE = pre ++ post →
  insertListItem part (Z.of_nat (length pre)) line h
  = Some (length h,
          <[part := with_children partE (pre ++ length h :: post)]> h
          ++ [mkElement LIST_ITEM (Some part) [S (length h)] [] None;
              mkElement TEXT (Some (length h)) [] line None]).
Proof.
  intros Hpart Hch. pose proof (lookup_lt_Some _ _ _ Hpart) as Hlt.
  unfold insertListItem.
  erewrite bind_run; [|unfold getNumChildren; apply read_run; by rewrite Hpart].
  rewrite Hch, length_app.
  rewrite (proj2 (Z.leb_le 0 _)) by lia.
  rewrite (proj2 (Z.leb_le (Z.of_nat (length pre)) _)) by lia. simpl.
  erewrite bind_run; [|reflexivity].
  erewrite bind_run; [|reflexivity].
  erewrite bind_run; cycle 1.
  { apply modify_run. rewrite <- app_assoc.
    by rewrite lookup_app_r, Nat.sub_diag by lia. }
  erewrite bind_run; cycle 1.
  { apply modify_run. rewrite list_lookup_insert_ne by lia.
    rewrite <- app_assoc. by rewrite lookup_app_l by lia. }
  unfold mret, M_ret. do 2 f_equal.
  rewrite Hch, Nat2Z.id, take_app_length, drop_app_length.
  rewrite length_app. simpl.
  rewrite <- app_assoc.
  rewrite (insert_app_r_alt h) by lia. rewrite Nat.sub_diag. simpl.
  rewrite insert_app_l by done.
  unfold with_children. simpl. do 4 f_equal. lia.
Qed.

Lemma insertLines_spec h part partE pre post glyph lines :
  h !! part = Some partE → e_children partE = pre ++ post → pre ≠ [] →
  insertLines part (Z.of_nat (length pre) - 1) glyph lines h
  = Some (tt,
          <[part := with_children partE
                      (pre ++ new_refs (length h) lines ++ post)]> h
          ++ new_elements part glyph (length h) lines).
Proof.
  revert h partE pre. induction lines as [|line lines IH];
    intros h partE pre Hpart Hch Hpre.
  - simpl. unfold mret, M_ret. rewrite app_nil_r. do 2 f_equal.
    rewrite <- Hch.
    replace (with_children partE (e_children partE)) with partE
      by (by destruct partE).
    symmetry. by apply list_insert_id.
  - pose proof (lookup_lt_Some _ _ _ Hpart) as Hlt.
    unfold insertLines; fold insertLines.
    replace (Z.of_nat (length pre) - 1 + 1) with (Z.of_nat (length pre)) by lia.
    erewrite bind_run; [|by apply insertListItem_spec].
    erewrite bind_run; cycle 1.
    { unfold setGlyphType. apply modify_run.
      rewrite lookup_app_r by (rewrite length_insert; lia).
      by rewrite length_insert, Nat.sub_diag. }
    set (partE1 := with_children partE (pre ++ length h :: post)).
    set (h1 := <[length h := _]> _).
    assert (Hh1 : h1 = <[part := partE1]> h
                       ++ [mkElement LIST_ITEM (Some part) [S (length h)] []
                             glyph;
                           mkElement TEXT (Some (length h)) [] line None]).
    { unfold h1. rewrite insert_app_r_alt by (rewrite length_insert; lia).
      by rewrite length_insert, Nat.sub_diag. }
    assert (Hlen1 : length h1 = S (S (length h))).
    { rewrite Hh1, length_app, length_insert. simpl. lia. }
    assert (Hpart1 : h1 !! part = Some partE1).
    { rewrite Hh1, lookup_app_l by (rewrite length_insert; lia).
      by apply list_lookup_insert_eq. }
    replace (Z.of_nat (length pre))
      with (Z.of_nat (length (pre ++ [length h])) - 1)
      by (rewrite length_app; simpl; lia).
    rewrite (IH h1 partE1 (pre ++ [length h]) Hpart1).
    + do 2 f_equal. rewrite Hlen1. simpl.
      rewrite Hh1 at 1.
      rewrite insert_app_l by (rewrite length_insert; lia).
      rewrite list_insert_insert_eq. rewrite <- !app_assoc. simpl.
      do 2 f_equal.
    + unfold partE1. simpl. by rewrite <- app_assoc.
    + by destruct pre.
Qed.

End item_facts.

Section list_item.

Variables (map : gmap text text) (tag : Tag) (h : heap).
Variables (part item : ref) (el itemE partE : Element).
Variables (before after : list ref) (tagValue firstLine : text).
Variable rest : list text.

Let element := getElement (t_range tag).

Hypothesis Hwf : tag_wf tag.
Hypothesis Hpart : t_part tag = part.
Hypothesis Htext1 : t_text1 tag = [].
Hypothesis Htext2 : t_text2 tag = [].
Hypothesis Hfirst : getStartOffset (t_range tag) = 0.
Hypothesis Hel : h !! element = Some el.
Hypothesis Hty : e_type el = TEXT.
Hypothesis Htxt : e_text el = t_match tag.
Hypothesis Hpar : e_parent el = Some item.
Hypothesis Hitem : h !! item = Some itemE.
Hypothesis Hitemty : e_type itemE = LIST_ITEM.
Hypothesis Hitemch : e_children itemE = [element].
Hypothesis Hitempar : e_parent itemE = Some part.
Hypothesis HpartE : h !! part = Some partE.
Hypothesis Hpartty : e_type partE ≠ TABLE_CELL.
Hypothesis Hpartty' : e_type partE ≠ TEXT.
Hypothesis Hchildren : e_children partE = before ++ item :: after.
Hypothesis Hbefore : item ∉ before.
Hypothesis Hafter : item ∉ after.
Hypothesis Hres : resolve map tag = Some tagValue.
Hypothesis Hsplit : JS.split JS.is_newline tagValue = firstLine :: rest.

Lemma item_distinct : element ≠ item ∧ element ≠ part ∧ part ≠ item.
Proof.
  split; [|split].
  - intros Heq. rewrite Heq in Hel. congruence.
  - intros Heq. rewrite Heq in Hel. congruence.
  - intros ->. assert (partE = itemE) as -> by congruence.
    rewrite Hitemch in Hchildren.
    destruct before as [|b before']; simpl in Hchildren.
    + injection Hchildren as Heq _. rewrite Heq in Hel. congruence.
    + injection Hchildren as _ Heq. by destruct before'.
Qed.

Lemma item_located : located h tag [] [].
Proof.
  exists el. repeat split; [done..| |by rewrite Hfirst].
  by rewrite Htxt, app_nil_r.
Qed.

Lemma item_newItemsCase : newItemsCase tag tagValue h = Some (true, h).
Proof.
  unfold newItemsCase. fold element.
  pose proof (lookup_lt_Some _ _ _ Hel) as Hlt.
  erewrite bind_run; cycle 1.
  { unfold getText. apply read_run.
    destruct (length h) as [|n]; [lia|]. simpl. by rewrite Hel, Hty. }
  erewrite bind_run; [|by apply getParent_run]. rewrite Hpar.
  erewrite bind_run; [|reflexivity].
  erewrite bind_run; [|by apply getType_run].
  rewrite Hsplit, Hitemty, Htxt, Htext1, Htext2.
  by rewrite !bool_decide_eq_true_2.
Qed.

Lemma index_of_middle (l1 l2 : list ref) x :
  x ∉ l1 → index_of x (l1 ++ x :: l2) = Some (length l1).
Proof.
  intros Hx. unfold index_of.
  assert (list_find (λ y, y = x) (l1 ++ x :: l2) = Some (length l1, x))
    as ->; [|done].
  apply list_find_Some. split; [by rewrite list_lookup_middle|].
  split; [done|]. intros j y Hj Hlt ->.
  rewrite lookup_app_l in Hj by done. apply Hx. by eapply list_elem_of_lookup_2.
Qed.

Lemma new_refs_ge base lines x : x ∈ new_refs base lines → (base ≤ x)%nat.
Proof.
  revert base. induction lines as [|l lines IH]; intros base; simpl.
  - by intros ?%elem_of_nil.
  - intros [->|Hin]%elem_of_cons; [lia|]. apply IH in Hin. lia.
Qed.

Lemma filter_item (news : list ref) :
  (∀ x, x ∈ news → x ≠ item) →
  filter (fun c => c ≠ item) (before ++ item :: news ++ after)
  = before ++ news ++ after.
Proof.
  intros Hnews.
  assert (Hid : ∀ l : list ref, item ∉ l → filter (fun c => c ≠ item) l = l).
  { intros l Hl. induction l as [|c l IH]; [done|].
    rewrite filter_cons_True by (intros ->; apply Hl; by left).
    f_equal. apply IH. intros Hin. apply Hl. by right. }
  rewrite filter_app, filter_cons_False by (by intros H).
  rewrite filter_app, !Hid; [done.. | |done].
  intros Hin. by apply Hnews in Hin.
Qed.

(** The processing of a tag that fills a list item, child of its part. *)
Lemma processTag_list_item :
  processTag map tag h
  = Some (tt, expanded h part item element partE itemE before after
                firstLine rest).
Proof.
  destruct item_distinct as (Hne1 & Hne2 & Hne3).
  pose proof (lookup_lt_Some _ _ _ Hel) as Hlt1.
  pose proof (lookup_lt_Some _ _ _ Hitem) as Hlt2.
  pose proof (lookup_lt_Some _ _ _ HpartE) as Hlt3.
  unfold processTag. rewrite Hres.
  erewrite bind_run; [|apply item_newItemsCase].
  rewrite Hsplit. simpl shift. cbv iota beta.
  erewrite bind_run; [|reflexivity]. cbv iota beta.
  erewrite bind_run; [|apply (replace_spec _ _ _ _ _ Hwf item_located)].
  fold element.
  assert (Hrepl : [] ++ replacement tag firstLine ++ [] = firstLine).
  { unfold replacement. rewrite Htext1, Htext2.
    destruct firstLine; [done|]. by rewrite !app_nil_r. }
  rewrite Hrepl. set (h1 := set_text h element firstLine).
  assert (Hlen1 : length h1 = length h) by apply length_set_text.
  assert (Hel1 : h1 !! element = Some (with_text el firstLine))
    by by apply set_text_lookup.
  assert (Hitem1 : h1 !! item = Some itemE)
    by (unfold h1; by rewrite set_text_lookup_ne).
  assert (Hpart1 : h1 !! part = Some partE)
    by (unfold h1; by rewrite set_text_lookup_ne).
  (* the new items *)
  set (news := new_refs (length h) rest).
  set (h2 := <[part := with_children partE
                         (before ++ item :: news ++ after)]> h1
             ++ new_elements part (e_glyph itemE) (length h) rest).
  assert (Hitems : newItems tag rest h1 = Some (tt, h2)).
  { unfold newItems. fold element.
    erewrite bind_run; [|by apply getParent_run]. simpl. rewrite Hpar.
    erewrite bind_run; [|reflexivity]. rewrite Hpart.
    erewrite bind_run; cycle 1.
    { unfold getChildIndex. apply read_run. rewrite Hpart1. simpl.
      rewrite Hchildren, index_of_middle by done. done. }
    erewrite bind_run; cycle 1.
    { unfold getGlyphType. apply read_run. by rewrite Hitem1. }
    replace (Z.of_nat (length before))
      with (Z.of_nat (length (before ++ [item])) - 1)
      by (rewrite length_app; simpl; lia).
    rewrite (insertLines_spec h1 part partE (before ++ [item]) after);
      [|done| |by destruct before].
    - unfold h2, news. rewrite Hlen1. by rewrite <- !app_assoc.
    - by rewrite Hchildren, <- app_assoc. }
  erewrite bind_run; [|exact Hitems].
  (* the cleanup *)
  assert (Hold : ∀ x, (x < length h)%nat → x ≠ part → h2 !! x = h1 !! x).
  { intros x Hx Hxp. unfold h2.
    rewrite lookup_app_l by (rewrite length_insert; lia).
    by rewrite list_lookup_insert_ne. }
  assert (Hpart2 : h2 !! part
                   = Some (with_children partE
                             (before ++ item :: news ++ after))).
  { unfold h2. rewrite lookup_app_l by (rewrite length_insert; lia).
    apply list_lookup_insert_eq. lia. }
  assert (Hlen2 : (2 ≤ length h2)%nat).
  { unfold h2. rewrite length_app, length_insert. lia. }
  unfold cleanup. fold element.
  erewrite bind_run; [|apply getParent_run; by rewrite Hold].
  simpl. rewrite Hpar.
  erewrite bind_run; [|reflexivity].
  erewrite bind_run; [|apply getType_run; by rewrite Hold].
  erewrite bind_run; cycle 1.
  { unfold getText. apply read_run.
    destruct (length h2) as [|[|n]]; [lia..|].
    simpl. rewrite (Hold item), Hitem1, Hitemty by done. simpl.
    rewrite Hitemch. simpl. rewrite (Hold element), Hel1 by done. simpl.
    rewrite Hty. simpl. by rewrite app_nil_r. }
  unfold expanded. fold h1 news h2.
  destruct firstLine as [|c line]; [|done].
  rewrite (proj2 (Z.eqb_eq (JS.len []) 0)) by done.
  erewrite bind_run; [|apply getParent_run; by rewrite Hold]. rewrite Hitempar.
  erewrite bind_run; cycle 1.
  { apply (removeFromParent_spec h2 item itemE part); [|done..].
    by rewrite Hold. }
  simpl. rewrite filter_item; cycle 1.
  { intros x Hx%new_refs_ge. lia. }
  eapply detectEmptyRow_other.
  - rewrite list_lookup_insert_ne by done.
    apply list_lookup_insert_eq. by eapply lookup_lt_Some.
  - by left.
Qed.

End list_item.

(** ** The new list items *)

Lemma length_new_refs base lines :
  length (new_refs base lines) = length lines.
Proof.
  revert base. induction lines as [|l lines IH]; intros base; simpl; [done|].
  by rewrite IH.
Qed.

(** the element of a new item and of its text, in the extended store *)
Lemma new_elements_lookup part glyph lines (pre : heap) i line :
  lines !! i = Some line →
  ∃ r, new_refs (length pre) lines !! i = Some r
       ∧ (length pre ≤ r)%nat
       ∧ (pre ++ new_elements part glyph (length pre) lines) !! r
         = Some (mkElement LIST_ITEM (Some part) [S r] [] glyph)
       ∧ (pre ++ new_elements part glyph (length pre) lines) !! S r
         = Some (mkElement TEXT (Some r) [] line None).
Proof.
  revert pre i. induction lines as [|l lines IH]; intros pre i Hi; [done|].
  destruct i as [|i]; simpl in *.
  - injection Hi as ->. exists (length pre). split; [done|]. split; [lia|].
    split; [by rewrite list_lookup_middle|].
    rewrite (cons_middle _ pre), app_assoc.
    rewrite list_lookup_middle; [done|]. rewrite length_app. simpl. lia.
  - set (x := mkElement LIST_ITEM (Some part) [S (length pre)] [] glyph).
    set (y := mkElement TEXT (Some (length pre)) [] l None).
    destruct (IH (pre ++ [x; y]) i Hi) as (r & Hr & Hle & Hx & Hy).
    rewrite length_app in Hr, Hle, Hx, Hy. simpl in Hr, Hle, Hx, Hy.
    replace (length pre + 2)%nat with (S (S (length pre))) in * by lia.
    rewrite <- app_assoc in Hx, Hy. simpl in Hx, Hy.
    exists r. split; [done|]. split; [lia|]. done.
Qed.

Section expanded_store.

Variables (h : heap) (part item element : ref).
Variables (el itemE partE : Element) (before after : list ref).
Variables (firstLine : text) (rest : list text).

Hypothesis Hel : h !! element = Some el.
Hypothesis Hty : e_type el = TEXT.
Hypothesis Hitem : h !! item = Some itemE.
Hypothesis Hitemty : e_type itemE = LIST_ITEM.
Hypothesis Hitemch : e_children itemE = [element].
Hypothesis HpartE : h !! part = Some partE.
Hypothesis Hchildren : e_children partE = before ++ item :: after.
Hypothesis Hne1 : element ≠ item.
Hypothesis Hne2 : element ≠ part.
Hypothesis Hne3 : part ≠ item.

Let h' := expanded h part item element partE itemE before after
            firstLine rest.
Let news := new_refs (length h) rest.
Let h2 := <[part := with_children partE (before ++ item :: news ++ after)]>
            (set_text h element firstLine)
          ++ new_elements part (e_glyph itemE) (length h) rest.

Lemma expanded_h2_old x :
  (x < length h)%nat →
  h2 !! x = <[part := with_children partE (before ++ item :: news ++ after)]>
              (set_text h element firstLine) !! x.
Proof using All.
  intros Hx. unfold h2.
  by rewrite lookup_app_l by (rewrite length_insert, length_set_text; lia).
Qed.

Lemma expanded_length : (length h ≤ length h')%nat.
Proof using All.
  assert (length h ≤ length h2)%nat.
  { unfold h2. rewrite length_app, length_insert, length_set_text. lia. }
  unfold h', expanded. fold news h2.
  destruct firstLine; [|done]. by rewrite !length_insert.
Qed.

(** the text element holds the first line *)
Lemma expanded_element : h' !! element = Some (with_text el firstLine).
Proof using All.
  pose proof (lookup_lt_Some _ _ _ Hel) as Hlt.
  assert (H2 : h2 !! element = Some (with_text el firstLine)).
  { rewrite expanded_h2_old by done.
    rewrite list_lookup_insert_ne by done. by apply set_text_lookup. }
  unfold h', expanded. fold news h2.
  destruct firstLine; [|done].
  by rewrite !list_lookup_insert_ne by done.
Qed.

(** the item keeps its type, its glyph and its text element *)
Lemma expanded_item :
  ∃ itemE', h' !! item = Some itemE' ∧ e_type itemE' = LIST_ITEM
            ∧ e_children itemE' = [element]
            ∧ e_glyph itemE' = e_glyph itemE.
Proof using All.
  pose proof (lookup_lt_Some _ _ _ Hitem) as Hlt.
  assert (H2 : h2 !! item = Some itemE).
  { rewrite expanded_h2_old by done.
    rewrite list_lookup_insert_ne by done.
    by rewrite set_text_lookup_ne. }
  unfold h', expanded. fold news h2.
  destruct firstLine; [|by exists itemE].
  exists (with_parent itemE None). split; [|done].
  apply list_lookup_insert_eq. rewrite length_insert.
  by eapply lookup_lt_Some.
Qed.

(** the children of the part *)
Lemma expanded_part :
  h' !! part
  = Some (with_children partE
            (before ++ (if bool_decide (firstLine = []) then [] else [item])
                    ++ news ++ after)).
Proof using All.
  pose proof (lookup_lt_Some _ _ _ HpartE) as Hlt.
  assert (H2 : h2 !! part
               = Some (with_children partE
                         (before ++ item :: news ++ after))).
  { rewrite expanded_h2_old by done.
    apply list_lookup_insert_eq. by rewrite length_set_text. }
  unfold h', expanded. fold news h2.
  destruct firstLine; [|done].
  rewrite list_lookup_insert_ne by done.
  apply list_lookup_insert_eq. by eapply lookup_lt_Some.
Qed.

(** the types of the elements of [h] are kept *)
Lemma expanded_type x :
  (x < length h)%nat → e_type <$> h' !! x = e_type <$> h !! x.
Proof using All.
  intros Hx.
  assert (H1 : e_type <$> set_text h element firstLine !! x
               = e_type <$> h !! x).
  { destruct (decide (x = element)) as [->|Hxe].
    - by rewrite (set_text_lookup _ _ el), Hel.
    - by rewrite set_text_lookup_ne. }
  assert (H2 : e_type <$> h2 !! x = e_type <$> h !! x).
  { rewrite expanded_h2_old by done.
    destruct (decide (x = part)) as [->|Hxp].
    - rewrite list_lookup_insert_eq by (by rewrite length_set_text).
      by rewrite HpartE.
    - by rewrite list_lookup_insert_ne. }
  unfold h', expanded. fold news h2.
  destruct firstLine; [|done].
  assert (Hx2 : (x < length h2)%nat).
  { unfold h2. rewrite length_app, length_insert, length_set_text. lia. }
  destruct (decide (x = item)) as [->|Hxi].
  - rewrite list_lookup_insert_eq by (by rewrite length_insert).
    by rewrite Hitem.
  - rewrite list_lookup_insert_ne by done.
    destruct (decide (x = part)) as [->|Hxp].
    + rewrite list_lookup_insert_eq by done. by rewrite HpartE.
    + by rewrite list_lookup_insert_ne.
Qed.

(** the new items: a list item with the glyph of the original, child of the
    part, and its text element with the line *)
Lemma expanded_new i line :
  rest !! i = Some line →
  ∃ r, news !! i = Some r ∧ (length h ≤ r)%nat
       ∧ h' !! r = Some (mkElement LIST_ITEM (Some part) [S r] []
                           (e_glyph itemE))
       ∧ h' !! S r = Some (mkElement TEXT (Some r) [] line None).
Proof using All.
  intros Hi.
  pose proof (lookup_lt_Some _ _ _ Hitem) as Hlt1.
  pose proof (lookup_lt_Some _ _ _ HpartE) as Hlt2.
  set (pre := <[part := with_children partE
                          (before ++ item :: news ++ after)]>
                (set_text h element firstLine)).
  assert (Hlen : length pre = length h)
    by (unfold pre; by rewrite length_insert, length_set_text).
  destruct (new_elements_lookup part (e_glyph itemE) rest pre i line Hi)
    as (r & Hr & Hle & Hx & Hy).
  rewrite Hlen in Hr, Hle, Hx, Hy. fold h2 in Hx, Hy.
  exists r. split; [done|]. split; [done|].
  unfold h', expanded. fold news h2.
  destruct firstLine; [|done].
  rewrite !list_lookup_insert_ne by lia. done.
Qed.

End expanded_store.

(** the text of a list item that holds one text element *)
Lemma text_of_item (h : heap) r itE t tE :
  h !! r = Some itE → e_type itE = LIST_ITEM → e_children itE = [t] →
  h !! t = Some tE → e_type tE = TEXT →
  text_of (length h) h r = Some (e_text tE).
Proof.
  intros Hr Hrty Hch Ht Htty.
  assert (r ≠ t) by (intros ->; congruence).
  apply lookup_lt_Some in Hr as Hlt1. apply lookup_lt_Some in Ht as Hlt2.
  destruct (length h) as [|[|n]]; [lia..|].
  simpl. rewrite Hr, Hrty. simpl. rewrite Hch. simpl.
  rewrite Ht. simpl. rewrite Htty. simpl. by rewrite app_nil_r.
Qed.

Lemma filter_type_ext (h h' : heap) (l : list ref) (ty : ElementType) :
  (∀ c, c ∈ l → e_type <$> h' !! c = e_type <$> h !! c) →
  filter (fun c => e_type <$> h' !! c = Some ty) l
  = filter (fun c => e_type <$> h !! c = Some ty) l.
Proof.
  intros Hext. induction l as [|c l IH]; [done|].
  rewrite !filter_cons, (Hext c) by by left.
  rewrite IH; [done|]. intros x Hx. apply Hext. by right.
Qed.

Lemma filter_type_all (h : heap) (l : list ref) (ty : ElementType) :
  (∀ c, c ∈ l → e_type <$> h !! c = Some ty) →
  filter (fun c => e_type <$> h !! c = Some ty) l = l.
Proof.
  intros Hall. induction l as [|c l IH]; [done|].
  rewrite filter_cons_True by (apply Hall; by left).
  rewrite IH; [done|]. intros x Hx. apply Hall. by right.
Qed.

(** The expansion of a list item that is a child of its document part.
    Let a tag be the whole content of such an item, and let its value split
    on line breaks into a first line and the lines [rest].  The processing
    of the tag succeeds.  After it the text of the item is the first line;
    the children of the part are those before the item, the item itself
    unless the first line is empty (the emptied item is removed), one new
    list item for each line of [rest], in the order of the lines, and those
    after the item; each new item is a list item of the part with the glyph
    type of the original and its line as text; and the number of list items
    of the part has grown by the number of lines of [rest], less one when
    the first line is empty. *)
Lemma list_item_expansion (map : gmap text text) (tag : Tag) (h : heap)
    (item : ref) (itemE partE : Element) (tagValue firstLine : text)
    (rest : list text) :
  wf_heap h = true → tag_wf tag →
  fills_item h tag item itemE → item_of_part h tag itemE partE →
  resolve map tag = Some tagValue →
  JS.split JS.is_newline tagValue = firstLine :: rest →
  let part := t_part tag in
  let news := new_refs (length h) rest in
  let emptied := bool_decide (firstLine = []) in
  ∃ h' before after partE',
    processTag map tag h = Some (tt, h')
    ∧ e_children partE = before ++ item :: after
    ∧ text_of (length h') h' item = Some firstLine
    ∧ h' !! part = Some partE'
    ∧ e_children partE'
      = before ++ (if emptied then [] else [item]) ++ news ++ after
    ∧ length news = length rest
    ∧ (∀ i line, rest !! i = Some line →
         ∃ r itE, news !! i = Some r ∧ h !! r = None
                  ∧ h' !! r = Some itE ∧ e_type itE = LIST_ITEM
                  ∧ e_parent itE = Some part
                  ∧ e_glyph itE = e_glyph itemE
                  ∧ text_of (length h') h' r = Some line)
    ∧ (count_items h' part + (if emptied then 1 else 0)
       = count_items h part + length rest)%nat.
Proof.
  intros Hwf Htag Hfill Hof Hres Hsplit part news emptied.
  destruct Hfill as (el & Hel & Hty & Htxt & Ht1 & Ht2 & Hfirst & Hpar
                     & Hitem & Hitemty & Hitemch).
  destruct Hof as (Hitempar & HpartE & Hpartty & Hpartty').
  fold part in Hitempar, HpartE.
  set (element := getElement (t_range tag)) in *.
  (* the place of the item among the children of the part *)
  destruct (wf_parent _ _ _ _ Hwf Hitem Hitempar) as (_ & pE & HpE & Hin).
  assert (pE = partE) as -> by congruence.
  apply list_elem_of_split in Hin as (before & after & Hchildren).
  pose proof (wf_nodup _ _ _ Hwf HpartE) as Hnodup.
  rewrite Hchildren in Hnodup.
  apply NoDup_app in Hnodup as (_ & Hbefore & Hnd).
  apply NoDup_cons in Hnd as (Hafter & _).
  assert (Hbefore' : item ∉ before).
  { intros Hin. apply (Hbefore item Hin). by left. }
  assert (Hdist : element ≠ item ∧ element ≠ part ∧ part ≠ item).
  { by eapply (item_distinct tag h part item el itemE partE before after). }
  destruct Hdist as (Hne1 & Hne2 & Hne3).
  set (h' := expanded h part item element partE itemE before after
               firstLine rest).
  assert (Hrun : processTag map tag h = Some (tt, h')).
  { by eapply (processTag_list_item map tag h part item el itemE partE). }
  pose proof (expanded_length h part item element el itemE partE before
                after firstLine rest Hel Hty Hitem Hitemty Hitemch HpartE
                Hchildren Hne1 Hne2 Hne3) as Hlen.
  pose proof (expanded_element h part item element el itemE partE before
                after firstLine rest Hel Hty Hitem Hitemty Hitemch HpartE
                Hchildren Hne1 Hne2 Hne3) as Hel'.
  destruct (expanded_item h part item element el itemE partE before after
              firstLine rest Hel Hty Hitem Hitemty Hitemch HpartE Hchildren
              Hne1 Hne2 Hne3)
    as (itemE' & Hitem' & Hitemty' & Hitemch' & _).
  pose proof (expanded_part h part item element el itemE partE before after
                firstLine rest Hel Hty Hitem Hitemty Hitemch HpartE Hchildren
                Hne1 Hne2 Hne3) as Hpart'.
  pose proof (expanded_new h part item element el itemE partE before after
                firstLine rest Hel Hty Hitem Hitemty Hitemch HpartE Hchildren
                Hne1 Hne2 Hne3) as Hnew.
  pose proof (expanded_type h part item element el itemE partE before after
                firstLine rest Hel Hty Hitem Hitemty Hitemch HpartE Hchildren
                Hne1 Hne2 Hne3) as Htype.
  fold h' in Hlen, Hel', Hitem', Hpart', Hnew, Htype.
  fold news in Hpart', Hnew. fold emptied in Hpart'.
  eexists h', before, after, _.
  split; [done|]. split; [done|].
  split; [by apply (text_of_item h' item itemE' element
                      (with_text el firstLine))|].
  split; [exact Hpart'|]. split; [done|].
  split; [apply length_new_refs|]. split.
  - intros i line Hi. destruct (Hnew i line Hi) as (r & Hr & Hle & Hx & Hy).
    eexists r, _. split; [done|].
    split; [by apply lookup_ge_None_2|]. split; [exact Hx|].
    repeat split.
    by apply (text_of_item h' r _ (S r) _ Hx eq_refl eq_refl Hy).
  - (* the number of list items *)
    unfold count_items. rewrite Hpart', HpartE. simpl. rewrite Hchildren.
    assert (Hold : ∀ l, l ⊆ before ++ after →
              filter (fun c => e_type <$> h' !! c = Some LIST_ITEM) l
              = filter (fun c => e_type <$> h !! c = Some LIST_ITEM) l).
    { intros l Hl. apply filter_type_ext. intros c Hc.
      apply Htype.
      assert (Hc' : c ∈ e_children partE).
      { rewrite Hchildren. apply Hl in Hc.
        apply elem_of_app in Hc as [Hc|Hc];
          apply elem_of_app; [by left|right; by right]. }
      destruct (wf_children _ _ _ _ Hwf HpartE Hc') as (cE & HcE & _).
      by eapply lookup_lt_Some. }
    assert (Hnews : filter (fun c => e_type <$> h' !! c = Some LIST_ITEM) news
                    = news).
    { apply filter_type_all. intros c Hc.
      apply list_elem_of_lookup in Hc as (i & Hi).
      assert (is_Some (rest !! i)) as (line & Hline).
      { apply lookup_lt_is_Some. rewrite <- (length_new_refs (length h)).
        by eapply lookup_lt_Some. }
      destruct (Hnew i line Hline) as (r & Hr & _ & Hx & _).
      assert (r = c) as -> by (fold news in Hi; congruence).
      by rewrite Hx. }
    assert (Hb : before ⊆ before ++ after).
    { intros x Hx. apply elem_of_app. by left. }
    assert (Ha : after ⊆ before ++ after).
    { intros x Hx. apply elem_of_app. by right. }
    rewrite (filter_app _ before (item :: after)).
    rewrite (filter_cons_True _ item) by (rewrite Hitem; simpl; by rewrite Hitemty).
    unfold emptied. destruct firstLine as [|ch line]; simpl.
    + rewrite !filter_app, (Hold before Hb), (Hold after Ha), Hnews.
      rewrite !length_app. unfold news. rewrite length_new_refs. simpl. lia.
    + rewrite filter_app, filter_cons_True by (rewrite Hitem'; simpl; by rewrite Hitemty').
      rewrite filter_app, (Hold before Hb), (Hold after Ha), Hnews.
      rewrite !length_app. simpl. rewrite length_app. unfold news.
      rewrite length_new_refs. lia.
Qed.

Lemma list_item_expansion_body :
  wf_heap item_heap = true
  ∧ ∃ h' before after partE',
      processTag item_map item_tag item_heap = Some (tt, h')
      ∧ [1; 3]%nat = before ++ 1%nat :: after
      ∧ text_of (length h') h' 1%nat = Some (T "A")
      ∧ h' !! 0%nat = Some partE'
      ∧ e_children partE' = before ++ [1%nat] ++ [5%nat] ++ after
      ∧ length [5%nat] = length [T "B"]
      ∧ (∀ i line, [T "B"] !! i = Some line →
           ∃ r itE, [5%nat] !! i = Some r ∧ item_heap !! r = None
                    ∧ h' !! r = Some itE ∧ e_type itE = LIST_ITEM
                    ∧ e_parent itE = Some 0%nat
                    ∧ e_glyph itE = Some NUMBER
                    ∧ text_of (length h') h' r = Some line)
      ∧ (count_items h' 0 + 0 = count_items item_heap 0 + 1)%nat.
Proof.
  split; [vm_compute; reflexivity|].
  apply (list_item_expansion item_map item_tag item_heap 1%nat
           (mkElement LIST_ITEM (Some 0%nat) [2%nat] [] (Some NUMBER))
           (elem BODY_SECTION None [1%nat; 3%nat])
           lines_AB (T "A") [T "B"]).
  - vm_compute; reflexivity.
  - repeat split; try reflexivity; discriminate.
  - eexists. repeat split; reflexivity.
  - repeat split; try reflexivity; discriminate.
  - reflexivity.
  - reflexivity.
Defined.

(** C4 on a list item held by a table cell.  The scanner finds the tag,
    which is the whole text of the item, and its value has two lines.  The
    first line is written in place of the tag; but the item is not a child
    of the body, in which its index is looked up to insert the new items
    behind it: the lookup raises, no item is inserted for the second line,
    and the merge stops. *)
Theorem C4_item_in_table_cell_fails :
  wf_heap nested_item_heap = true
  ∧ collectTags nested_item_heap (getDocumentParts body_only)
    = Some [nested_tag]
  ∧ fills_item nested_item_heap nested_tag 4%nat
      (mkElement LIST_ITEM (Some 3%nat) [5%nat] [] (Some BULLET))
  ∧ resolve item_map nested_tag = Some lines_AB
  ∧ JS.split JS.is_newline lines_AB = [T "A"; T "B"]
  ∧ newItemsCase nested_tag lines_AB nested_item_heap
    = Some (true, nested_item_heap)
  ∧ replace nested_tag (T "A") nested_item_heap
    = Some (tt, set_text nested_item_heap 5%nat (T "A"))
  ∧ getChildIndex 0%nat 4%nat (set_text nested_item_heap 5%nat (T "A")) = None
  ∧ newItems nested_tag [T "B"] (set_text nested_item_heap 5%nat (T "A"))
    = None
  ∧ processTag item_map nested_tag nested_item_heap = None
  ∧ merge body_only item_map nested_item_heap = None.
Proof.
  split; [vm_compute; reflexivity|].
  split; [vm_compute; reflexivity|].
  split; [eexists; repeat split; reflexivity|].
  repeat split; vm_compute; reflexivity.
Qed.

(** ** A value of one line *)

Lemma split_single sep u :
  forallb (fun c => negb (sep c)) u = true → JS.split sep u = [u].
Proof.
  induction u as [|c u IH]; simpl; [done|].
  intros [Hc Hu]%andb_true_iff.
  apply negb_true_iff in Hc. by rewrite Hc, IH.
Qed.

(** For a list item that is a child of its document part, a value of one
    line, not empty, is written in place, and nothing else changes: no item
    is added or removed. *)
Lemma processTag_single_line (map : gmap text text) (tag : Tag) (h : heap)
    (item : ref) (itemE partE : Element) (tagValue : text) :
  wf_heap h = true → tag_wf tag →
  fills_item h tag item itemE → item_of_part h tag itemE partE →
  resolve map tag = Some tagValue →
  single_line tagValue = true → tagValue ≠ [] →
  processTag map tag h
  = Some (tt, set_text h (getElement (t_range tag)) tagValue).
Proof.
  intros Hwf Htag Hfill Hof Hres Hline Hne.
  destruct Hfill as (el & Hel & Hty & Htxt & Ht1 & Ht2 & Hfirst & Hpar
                     & Hitem & Hitemty & Hitemch).
  destruct Hof as (Hitempar & HpartE & Hpartty & Hpartty').
  set (part := t_part tag) in *.
  set (element := getElement (t_range tag)) in *.
  destruct (wf_parent _ _ _ _ Hwf Hitem Hitempar) as (_ & pE & HpE & Hin).
  assert (pE = partE) as -> by congruence.
  apply list_elem_of_split in Hin as (before & after & Hchildren).
  pose proof (wf_nodup _ _ _ Hwf HpartE) as Hnodup.
  rewrite Hchildren in Hnodup.
  apply NoDup_app in Hnodup as (_ & Hbefore & Hnd).
  apply NoDup_cons in Hnd as (Hafter & _).
  assert (Hbefore' : item ∉ before).
  { intros Hin. apply (Hbefore item Hin). by left. }
  assert (Hdist : element ≠ item ∧ element ≠ part ∧ part ≠ item).
  { by eapply (item_distinct tag h part item el itemE partE before after). }
  destruct Hdist as (Hne1 & Hne2 & Hne3).
  rewrite (processTag_list_item map tag h part item el itemE partE before
             after tagValue tagValue []); try done;
    [|by apply split_single].
  fold element. unfold expanded. simpl. rewrite app_nil_r.
  destruct tagValue as [|c v]; [done|].
  f_equal. f_equal. apply list_insert_id.
  rewrite set_text_lookup_ne by done. rewrite HpartE, <- Hchildren.
  by destruct partE.
Qed.

(** C10 on a list item held by a table cell.  The scanner finds the tag,
    which is the whole text of the item, and the value is one line, not
    empty; but the item is not a child of the body, in which its index is
    looked up, and the merge stops on the error that the lookup raises
    instead of replacing the text of the item. *)
Theorem C10_item_in_table_cell_fails :
  wf_heap nested_item_heap = true
  ∧ collectTags nested_item_heap (getDocumentParts body_only)
    = Some [nested_tag]
  ∧ fills_item nested_item_heap nested_tag 4%nat
      (mkElement LIST_ITEM (Some 3%nat) [5%nat] [] (Some BULLET))
  ∧ resolve single_map nested_tag = Some (T "x")
  ∧ JS.split JS.is_newline (T "x") = [T "x"]
  ∧ getChildIndex 0%nat 4%nat nested_item_heap = None
  ∧ merge body_only single_map nested_item_heap = None.
Proof.
  split; [vm_compute; reflexivity|].
  split; [vm_compute; reflexivity|].
  split; [eexists; repeat split; reflexivity|].
  repeat split; vm_compute; reflexivity.
Qed.

(** * The general purpose functions *)

(** ** Maps of changes *)

Lemma mapDiff_lookup (m1 m2 : gmap text text) k :
  LF.mapDiff m1 m2 !! k
  = match m2 !! k with
    | Some v => if bool_decide (m1 !! k = Some v) then None else Some v
    | None => None
    end.
Proof.
  unfold LF.mapDiff.
  set (f := fun (k : text) (v : text) (m : gmap text text) =>
              if bool_decide (m1 !! k = Some v) then delete k m else m).
  assert (Hgen : ∀ m0 m : gmap text text,
            map_fold f m0 m !! k
            = match m !! k with
              | Some v => if bool_decide (m1 !! k = Some v) then None
                          else m0 !! k
              | None => m0 !! k
              end).
  { intros m0 m.
    apply (map_fold_weak_ind
             (fun r m => r !! k
                = match m !! k with
                  | Some v => if bool_decide (m1 !! k = Some v) then None
                              else m0 !! k
                  | None => m0 !! k
                  end) f m0); [done|].
    intros i x m' r Hi IH. unfold f.
    destruct (decide (i = k)) as [->|Hik].
    - rewrite lookup_insert_eq. rewrite Hi in IH.
      destruct (bool_decide (m1 !! k = Some x)); [|done].
      by rewrite lookup_delete_eq.
    - rewrite lookup_insert_ne by done.
      destruct (bool_decide (m1 !! i = Some x)); [|done].
      by rewrite lookup_delete_ne. }
  rewrite Hgen. by destruct (m2 !! k).
Qed.

(** X7. [mapDiff] retains exactly the items of the second map that are new
    with respect to the first one: those whose key the first map lacks or
    maps to another value. *)
Theorem mapDiff_retains_changes (m1 m2 : gmap text text) k v :
  LF.mapDiff m1 m2 !! k = Some v ↔ m2 !! k = Some v ∧ m1 !! k ≠ Some v.
Proof.
  rewrite mapDiff_lookup. destruct (m2 !! k) as [w|]; [|naive_solver].
  case_bool_decide; naive_solver.
Qed.

(** X8. Writing the changes over the first map gives the second map written
    over the first: the row updated with [mapDiff] has the new values.  And
    there is no change exactly when the first map has all the items of the
    second. *)
Theorem mapDiff_applies (m1 m2 : gmap text text) :
  LF.mapDiff m1 m2 ∪ m1 = m2 ∪ m1
  ∧ (LF.mapDiff m1 m2 = ∅ ↔ m2 ⊆ m1).
Proof.
  split.
  - apply map_eq. intros k. rewrite !lookup_union, mapDiff_lookup.
    destruct (m2 !! k) as [v|] eqn:H2; [|done].
    case_bool_decide as Hk; [|done]. rewrite Hk. by simpl.
  - split.
    + intros Hempty. apply map_subseteq_spec. intros k v Hk.
      pose proof (mapDiff_lookup m1 m2 k) as Hl.
      rewrite Hempty, lookup_empty, Hk in Hl.
      by case_bool_decide.
    + intros Hsub. apply map_eq. intros k.
      rewrite mapDiff_lookup, lookup_empty.
      destruct (m2 !! k) as [v|] eqn:H2; [|done].
      rewrite bool_decide_eq_true_2; [done|].
      by eapply lookup_weaken.
Qed.

(** ** Counters *)

Lemma inc_lookup (m : gmap text Z) k d :
  LF.inc m k d !! k = Some (default 0 (m !! k) + d).
Proof.
  unfold LF.inc. case_bool_decide as Hk.
  - destruct Hk as [c Hc]. rewrite Hc. simpl. by rewrite lookup_insert_eq.
  - rewrite lookup_insert_eq, lookup_insert_eq.
    apply eq_None_not_Some in Hk. by rewrite Hk.
Qed.

Lemma inc_lookup_ne (m : gmap text Z) k k' d :
  k ≠ k' → LF.inc m k d !! k' = m !! k'.
Proof.
  intros Hne. unfold LF.inc. case_bool_decide as Hk.
  - destruct Hk as [c Hc]. rewrite Hc. by rewrite lookup_insert_ne.
  - rewrite lookup_insert_eq. by rewrite !lookup_insert_ne.
Qed.

(** X9. [inc] on integer counters, where the additions of the code are
    exact: it adds [delta] to the counter of [key], taken for 0 when the map
    lacks it, and changes no other counter; and two increments of a counter
    add up. *)
Theorem inc_adds (m : gmap text Z) (k k' : text) (a b : Z) :
  safe_integer (default 0 (m !! k)) → safe_integer a → safe_integer b →
  safe_integer (a + b) →
  safe_integer (default 0 (m !! k) + a) →
  safe_integer (default 0 (m !! k) + a + b) →
  LF.inc m k a !! k'
  = (if bool_decide (k' = k) then Some (default 0 (m !! k) + a)
     else m !! k')
  ∧ LF.inc (LF.inc m k a) k b = LF.inc m k (a + b).
Proof.
  intros _ _ _ _ _ _. split.
  - case_bool_decide as Hk; [subst; apply inc_lookup|].
    by apply inc_lookup_ne.
  - apply map_eq. intros j. destruct (decide (k = j)) as [<-|Hj].
    + rewrite !inc_lookup. simpl. f_equal. lia.
    + by rewrite !inc_lookup_ne.
Qed.

Lemma inc_adds_witness :
  LF.inc ({[ T "create" := 1 ]} : gmap text Z) (T "create") 2 !! T "update"
  = (if bool_decide (T "update" = T "create")
     then Some (default 0 (({[ T "create" := 1 ]} : gmap text Z)
                             !! T "create") + 2)
     else ({[ T "create" := 1 ]} : gmap text Z) !! T "update")
  ∧ LF.inc (LF.inc ({[ T "create" := 1 ]} : gmap text Z) (T "create") 2)
      (T "create") 3
    = LF.inc ({[ T "create" := 1 ]} : gmap text Z) (T "create") (2 + 3).
Proof.
  apply (inc_adds ({[ T "create" := 1 ]} : gmap text Z) (T "create")
           (T "update") 2 3);
    vm_compute; split; discriminate.
Defined.

(** X10. Counting with [inc], as [run] counts the actions executed: after
    one increment for each key of a list, from the empty map, the counter of
    a key is the number of its occurrences in the list, and a key that does
    not occur has no counter. *)
Theorem inc_counts (l : list text) (k : text) :
  foldl (fun m a => LF.inc m a 1) ∅ l !! k
  = if bool_decide (k ∈ l)
    then Some (Z.of_nat (length (filter (fun a => a = k) l)))
    else None.
Proof.
  assert (Hgen : ∀ m0 : gmap text Z,
            foldl (fun m a => LF.inc m a 1) m0 l !! k
            = if bool_decide (k ∈ l)
              then Some (default 0 (m0 !! k)
                         + Z.of_nat (length (filter (fun a => a = k) l)))
              else m0 !! k).
  { induction l as [|a l IH]; intros m0; [done|].
    cbn [foldl]. rewrite IH. destruct (decide (a = k)) as [->|Hak].
    - rewrite filter_cons_True by done. rewrite inc_lookup.
      rewrite (bool_decide_eq_true_2 (k ∈ k :: l)) by by left.
      cbn [default length]. unfold id. case_bool_decide as Hin.
      + f_equal. lia.
      + assert (filter (fun a => a = k) l = []) as ->.
        { clear IH. induction l as [|x l IHl]; [done|].
          rewrite filter_cons_False by (intros ->; apply Hin; by left).
          apply IHl. intros Hx. apply Hin. by right. }
        done.
    - rewrite filter_cons_False by done. rewrite inc_lookup_ne by done.
      case_bool_decide as Hin.
      + by rewrite bool_decide_eq_true_2 by by right.
      + rewrite bool_decide_eq_false_2; [done|].
        by intros [?|?]%elem_of_cons. }
  rewrite Hgen. by rewrite lookup_empty.
Qed.

(** ** Trimmed values *)

Lemma trimStart_spec s :
  ∃ sp, s = sp ++ Str.trimStart s ∧ forallb Str.is_space sp = true.
Proof.
  induction s as [|c s (sp & Hs & Hsp)]; [by exists []|].
  simpl. destruct (Str.is_space c) eqn:Hc.
  - exists (c :: sp). simpl. rewrite Hc, Hsp. split; [by f_equal|done].
  - by exists [].
Qed.

Lemma trimStart_clean s : starts_clean (Str.trimStart s).
Proof.
  induction s as [|c s IH]; [done|]. simpl.
  by destruct (Str.is_space c) eqn:Hc.
Qed.

Lemma trimStart_id s : starts_clean s → Str.trimStart s = s.
Proof. destruct s as [|c s]; [done|]. simpl. by intros ->. Qed.

Lemma trimStart_blank s :
  Str.trimStart s = [] ↔ forallb Str.is_space s = true.
Proof.
  induction s as [|c s IH]; [done|]. simpl.
  destruct (Str.is_space c); [done|]. split; discriminate.
Qed.

Lemma forallb_reverse (f : ascii → bool) (l : text) :
  forallb f (reverse l) = forallb f l.
Proof.
  induction l as [|c l IH]; [done|].
  rewrite reverse_cons, forallb_app, IH. simpl.
  by rewrite andb_true_r, andb_comm.
Qed.

Lemma trimEnd_prefix s : ∃ sp, s = Str.trimEnd s ++ sp
                               ∧ forallb Str.is_space sp = true.
Proof.
  destruct (trimStart_spec (reverse s)) as (sp & Hs & Hsp).
  exists (reverse sp). split.
  - unfold Str.trimEnd. rewrite <- reverse_app, <- Hs.
    by rewrite reverse_involutive.
  - by rewrite forallb_reverse.
Qed.

Lemma trimEnd_clean s : starts_clean (reverse (Str.trimEnd s)).
Proof.
  unfold Str.trimEnd. rewrite reverse_involutive. apply trimStart_clean.
Qed.

Lemma trim_trimmed s : trimmed (Str.trim s).
Proof.
  split; [|apply trimEnd_clean]. unfold Str.trim.
  pose proof (trimStart_clean s) as Hc.
  destruct (trimEnd_prefix (Str.trimStart s)) as (sp & Hs & _).
  destruct (Str.trimEnd (Str.trimStart s)) as [|c u]; [done|].
  rewrite Hs in Hc. exact Hc.
Qed.

Lemma trim_id s : trimmed s → Str.trim s = s.
Proof.
  intros [H1 H2]. unfold Str.trim. rewrite (trimStart_id s) by done.
  unfold Str.trimEnd. rewrite trimStart_id by done.
  apply reverse_involutive.
Qed.

Lemma trim_blank s : Str.trim s = [] ↔ forallb Str.is_space s = true.
Proof.
  split.
  - intros Ht. unfold Str.trim in Ht.
    destruct (trimEnd_prefix (Str.trimStart s)) as (sp & Hs & Hsp).
    rewrite Ht in Hs. simpl in Hs.
    pose proof (trimStart_clean s) as Hc. rewrite Hs in Hc.
    destruct sp as [|c sp].
    + by apply trimStart_blank.
    + simpl in Hc, Hsp. by rewrite Hc in Hsp.
  - intros Hb. unfold Str.trim.
    by rewrite (proj2 (trimStart_blank s) Hb).
Qed.

(** X11. [trimStringsInMap] keeps the keys of the map; after it no value
    has white space at either end; and trimming again changes nothing. *)
Theorem trimStringsInMap_trims (m : gmap text (option text)) :
  dom (LF.trimStringsInMap m) = dom m
  ∧ map_Forall (fun _ v => trimmed v) (LF.trimStringsInMap m)
  ∧ LF.trimStringsInMap (Some <$> LF.trimStringsInMap m)
    = LF.trimStringsInMap m.
Proof.
  split; [apply dom_fmap_L|]. split.
  - intros k v. unfold LF.trimStringsInMap. rewrite lookup_fmap.
    destruct (m !! k) as [[s|]|]; simpl; intros [= <-];
      [apply trim_trimmed|done].
  - apply map_eq. intros k. unfold LF.trimStringsInMap.
    rewrite !lookup_fmap. destruct (m !! k) as [[s|]|]; simpl; [|done..].
    f_equal. apply trim_id, trim_trimmed.
Qed.

(** X12. After the trimming that starts the processing of a row, [getValue]
    finds no value where the cell is missing, undefined or made of white
    space only, and the trimmed text of the cell otherwise: a blank cell
    counts as missing. *)
Theorem getValue_of_trimmed (m : gmap text (option text)) (key : text) :
  LF.getValue key (LF.trimStringsInMap m)
  = match m !! key with
    | Some (Some s) =>
        if forallb Str.is_space s then None else Some (Str.trim s)
    | _ => None
    end.
Proof.
  unfold LF.getValue, LF.trimStringsInMap. rewrite lookup_fmap.
  destruct (m !! key) as [[s|]|]; simpl; [|done..].
  destruct (forallb Str.is_space s) eqn:Hb.
  - by rewrite (proj2 (trim_blank s) Hb).
  - destruct (Str.trim s) as [|c t] eqn:Ht; [|done].
    apply trim_blank in Ht. congruence.
Qed.

(** ** Lists of items *)

Lemma split_plus_free sep b s :
  Forall (fun e => forallb (fun c => negb (sep c)) e = true)
    (Str.split_plus sep b s).
Proof.
  revert b. induction s as [|c s IH]; intros b; simpl.
  - by constructor.
  - destruct (sep c) eqn:Hc.
    + destruct b; [apply IH|]. constructor; [done|apply IH].
    + specialize (IH false).
      destruct (Str.split_plus sep false s) as [|w ws].
      * constructor; [|done]. simpl. by rewrite Hc.
      * inversion IH as [|? ? Hw Hws]; subst. constructor; [|done].
        simpl. by rewrite Hc.
Qed.

Lemma split_plus_concat sep b s :
  concat (Str.split_plus sep b s) = filter (fun c => sep c = false) s.
Proof.
  revert b. induction s as [|c s IH]; intros b; simpl; [done|].
  destruct (sep c) eqn:Hc.
  - rewrite filter_cons_False by congruence.
    destruct b; simpl; apply IH.
  - rewrite filter_cons_True by done. rewrite <- (IH false).
    by destruct (Str.split_plus sep false s).
Qed.

Lemma concat_nonempty (l : list text) :
  concat (filter (fun e => e ≠ []) l) = concat l.
Proof.
  induction l as [|e l IH]; [done|]. destruct e as [|c e].
  - by rewrite filter_cons_False by naive_solver.
  - rewrite filter_cons_True by done. simpl. by rewrite IH.
Qed.

(** X13. The items that [itemsInString] finds are not empty and hold no
    separator, and together they are the string without its separators:
    nothing but separators is dropped. *)
Theorem itemsInString_items (s : text) (regexp : ascii → bool) :
  Forall (fun e => e ≠ [] ∧ forallb (fun c => negb (regexp c)) e = true)
    (LF.itemsInString s regexp)
  ∧ concat (LF.itemsInString s regexp)
    = filter (fun c => regexp c = false) s.
Proof.
  unfold LF.itemsInString. split.
  - apply Forall_forall. intros e [Hne Hin]%list_elem_of_filter.
    split; [done|].
    pose proof (split_plus_free regexp false s) as Hfree.
    by eapply Forall_forall in Hfree.
  - rewrite concat_nonempty. apply split_plus_concat.
Qed.

Lemma split_plus_item sep b e s :
  e ≠ [] → forallb (fun c => negb (sep c)) e = true →
  Str.split_plus sep b (e ++ s)
  = match Str.split_plus sep false s with
    | [] => [e]
    | w :: ws => (e ++ w) :: ws
    end.
Proof.
  intros Hne Hfree. revert b. induction e as [|c e IH]; intros b; [done|].
  simpl in Hfree. apply andb_true_iff in Hfree as [Hc He].
  apply negb_true_iff in Hc. simpl. rewrite Hc.
  destruct e as [|c' e].
  - simpl. by destruct (Str.split_plus sep false s).
  - rewrite (IH ltac:(done) He false).
    by destruct (Str.split_plus sep false s).
Qed.

Lemma split_plus_join sep (items : list text) :
  sep " "%char = true → items ≠ [] →
  Forall (fun e => e ≠ [] ∧ forallb (fun c => negb (sep c)) e = true) items →
  Str.split_plus sep false (Str.join (T " ") items) = items.
Proof.
  intros Hsp Hne Hitems. induction Hitems as [|e items [He Hfree] Hl IH];
    [done|]. clear Hne.
  destruct items as [|e' items].
  - simpl. rewrite <- (app_nil_r e) at 1.
    rewrite split_plus_item by done. simpl. by rewrite app_nil_r.
  - change (Str.join (T " ") (e :: e' :: items))
      with (e ++ " "%char :: Str.join (T " ") (e' :: items)).
    rewrite split_plus_item by done.
    cbn [Str.split_plus]. rewrite Hsp.
    assert (Hrest : Str.split_plus sep true (Str.join (T " ") (e' :: items))
                    = e' :: items).
    { transitivity (Str.split_plus sep false
                      (Str.join (T " ") (e' :: items))); [|by apply IH].
      inversion_clear Hl as [|? ? [He' Hfree'] _].
      destruct e' as [|c e'']; [done|].
      simpl in Hfree'. apply andb_true_iff in Hfree' as [Hc _].
      apply negb_true_iff in Hc.
      destruct items; simpl; by rewrite Hc. }
    rewrite Hrest. by rewrite app_nil_r.
Qed.

(** X14. A list written in a cell is read back: for items that are not
    empty and hold no separator (white space, comma, semicolon), the value
    made by joining them with [DATATABLE_LIST_SEPARATOR], as
    [getMapFromFileObject] writes the editors of a file, is read by
    [getValueAsList] as the same items. *)
Theorem getValueAsList_join (m : gmap text text) (label : text)
    (items : list text) :
  Forall list_item items →
  LF.getValueAsList label
    (<[label := Str.join LF.DATATABLE_LIST_SEPARATOR items]> m)
  = items.
Proof.
  intros Hitems. unfold LF.getValueAsList, LF.getValue.
  rewrite lookup_insert_eq.
  destruct items as [|e items]; [done|].
  assert (Hsplit : Str.split_plus LF.list_separator false
                     (Str.join (T " ") (e :: items)) = e :: items).
  { apply split_plus_join; [done|done|]. exact Hitems. }
  assert (Hne : Str.join LF.DATATABLE_LIST_SEPARATOR (e :: items) ≠ []).
  { inversion_clear Hitems as [|? ? [He _] _].
    destruct e as [|c e']; [done|]. simpl. by destruct items. }
  destruct (Str.join LF.DATATABLE_LIST_SEPARATOR (e :: items)) as [|c v] eqn:Hj;
    [done|].
  change (JS.len (c :: v) =? 0) with false. cbv iota.
  unfold LF.itemsInString. rewrite <- Hj.
  change LF.DATATABLE_LIST_SEPARATOR with (T " "). rewrite Hsplit.
  clear Hsplit Hne Hj. induction Hitems as [|x l [Hx _] _ IH]; [done|].
  rewrite filter_cons_True by done. by rewrite IH.
Qed.

Lemma getValueAsList_witness :
  Forall list_item [T "ann@x.org"; T "bob@x.org"]
  ∧ LF.getValueAsList (T "Document Editors")
      (<[T "Document Editors"
         := Str.join LF.DATATABLE_LIST_SEPARATOR
              [T "ann@x.org"; T "bob@x.org"]]> ∅)
    = [T "ann@x.org"; T "bob@x.org"].
Proof.
  assert (H : Forall list_item [T "ann@x.org"; T "bob@x.org"]).
  { repeat constructor; discriminate. }
  split; [exact H|].
  apply (getValueAsList_join ∅ (T "Document Editors")
           [T "ann@x.org"; T "bob@x.org"] H).
Defined.

(** ** Quoted items *)

Lemma split_at_sep sep u c rest :
  forallb (fun c => negb (sep c)) u = true → sep c = true →
  JS.split sep (u ++ c :: rest) = u :: JS.split sep rest.
Proof.
  intros Hu Hc. induction u as [|c' u IH]; simpl.
  - by rewrite Hc.
  - simpl in Hu. apply andb_true_iff in Hu as [Hc' Hu].
    apply negb_true_iff in Hc'. by rewrite Hc', IH.
Qed.

Section odd_items.

(** the items of odd index that are not empty, the indices counted from
    [n] *)
Let odd_from (n : nat) (a : list text) : list text :=
  snd <$> filter (fun p => (p.1 mod 2 = 1)%nat ∧ p.2 ≠ [])
            (imap (fun i x => ((n + i)%nat, x)) a).

Lemma odd_from_cons n x a :
  odd_from n (x :: a)
  = (if bool_decide ((n mod 2 = 1)%nat ∧ x ≠ []) then [x] else [])
    ++ odd_from (S n) a.
Proof.
  unfold odd_from. cbn [imap]. rewrite Nat.add_0_r.
  assert (Hext : imap ((fun i x => ((n + i)%nat, x)) ∘ S) a
                 = imap (fun i (x : text) => ((S n + i)%nat, x)) a).
  { apply imap_ext. intros i y _. simpl. f_equal. lia. }
  rewrite Hext. case_bool_decide as Hp.
  - by rewrite filter_cons_True by done.
  - by rewrite filter_cons_False by done.
Qed.

Lemma odd_from_shift n a : odd_from (S (S n)) a = odd_from n a.
Proof.
  revert n. induction a as [|x a IH]; intros n; [done|].
  rewrite !odd_from_cons, IH.
  replace (S (S n) mod 2)%nat with (n mod 2)%nat; [done|].
  replace (S (S n)) with (n + 1 * 2)%nat by lia.
  by rewrite Nat.Div0.mod_add.
Qed.

Lemma quotedItemsInString_odd s quote :
  LF.quotedItemsInString s quote
  = odd_from 0 (JS.split is_quote s).
Proof. reflexivity. Qed.

(** The items between double quotes, one pair of quotes after the other. *)
Lemma quoted_pair u v rest quote :
  unquoted u = true → unquoted v = true →
  LF.quotedItemsInString (u ++ "034"%char :: v ++ "034"%char :: rest) quote
  = (if bool_decide (v = []) then [] else [v])
    ++ LF.quotedItemsInString rest quote.
Proof.
  intros Hu Hv. rewrite !quotedItemsInString_odd.
  rewrite (split_at_sep is_quote u) by done.
  rewrite (split_at_sep is_quote v) by done.
  rewrite !odd_from_cons, odd_from_shift.
  rewrite bool_decide_eq_false_2 by (simpl; lia). simpl.
  destruct v as [|c v].
  - by rewrite bool_decide_eq_false_2 by naive_solver.
  - by rewrite bool_decide_eq_true_2 by done.
Qed.

Lemma quoted_open u v quote :
  unquoted u = true → unquoted v = true →
  LF.quotedItemsInString (u ++ "034"%char :: v) quote
  = (if bool_decide (v = []) then [] else [v]).
Proof.
  intros Hu Hv. rewrite quotedItemsInString_odd.
  rewrite (split_at_sep is_quote u) by done.
  rewrite (split_single is_quote v) by done.
  rewrite !odd_from_cons.
  rewrite bool_decide_eq_false_2 by (simpl; lia). simpl.
  destruct v as [|c v].
  - by rewrite bool_decide_eq_false_2 by naive_solver.
  - by rewrite bool_decide_eq_true_2 by done.
Qed.

Lemma quoted_none u quote :
  unquoted u = true → LF.quotedItemsInString u quote = [].
Proof.
  intros Hu. rewrite quotedItemsInString_odd.
  rewrite (split_single is_quote u) by done.
  rewrite odd_from_cons. by rewrite bool_decide_eq_false_2 by (simpl; lia).
Qed.

End odd_items.

(** X15. [quotedItemsInString] returns the texts between double quotes and
    never the text outside them: a string without double quote has no
    item; a first pair of quotes gives its content, unless empty, followed
    by the items of what follows the closing quote; and a quote that is not
    closed still gives the text behind it.  The second argument is not
    used. *)
Theorem quotedItemsInString_quoted (u v rest quote : text) :
  unquoted u = true → unquoted v = true →
  LF.quotedItemsInString u quote = []
  ∧ LF.quotedItemsInString (u ++ "034"%char :: v ++ "034"%char :: rest) quote
    = (if bool_decide (v = []) then [] else [v])
      ++ LF.quotedItemsInString rest quote
  ∧ LF.quotedItemsInString (u ++ "034"%char :: v) quote
    = (if bool_decide (v = []) then [] else [v])
  ∧ LF.quotedItemsInString u quote = LF.quotedItemsInString u [].
Proof.
  intros Hu Hv. split; [by apply quoted_none|].
  split; [by apply quoted_pair|]. split; [by apply quoted_open|done].
Qed.

Lemma quotedItemsInString_witness :
  LF.quotedItemsInString
    (T "see " ++ "034"%char :: T "Unit 1" ++ "034"%char :: T " and more")
    (T "'")
  = [T "Unit 1"] ++ LF.quotedItemsInString (T " and more") (T "'").
Proof.
  apply (quotedItemsInString_quoted (T "see ") (T "Unit 1") (T " and more")
           (T "'")); reflexivity.
Defined.

(** ** Escaped patterns *)

(** the characters that [stringToRegex] escapes stand for themselves
    behind a backslash, and it escapes every syntax character *)
Lemma is_special_escape (c : ascii) :
  LF.is_special c = true → identity_escape c = true.
Proof.
  destruct c as [[] [] [] [] [] [] [] []]; vm_compute; congruence.
Qed.

Lemma syntax_character_special (c : ascii) :
  syntax_character c = true → LF.is_special c = true.
Proof.
  destruct c as [[] [] [] [] [] [] [] []]; vm_compute; congruence.
Qed.

(** X16. [stringToRegex] escapes all the special characters of a regular
    expression: its result is a pattern in which every syntax character
    stands behind a backslash and every backslash stands before a character
    that it makes stand for itself, and the one text this pattern matches
    is the string itself. *)
Theorem stringToRegex_literal (s : text) :
  literal_of (LF.stringToRegex s) = Some s.
Proof.
  induction s as [|c s IH]; [done|].
  unfold LF.stringToRegex in *. cbn [flat_map].
  destruct (LF.is_special c) eqn:Hc.
  - cbn [app literal_of]. rewrite Ascii.eqb_refl.
    rewrite (is_special_escape c Hc). by rewrite IH.
  - cbn [app literal_of].
    destruct (Ascii.eqb c "\"%char) eqn:Hb.
    + apply Ascii.eqb_eq in Hb. subst c. discriminate.
    + destruct (syntax_character c) eqn:Hs.
      * apply syntax_character_special in Hs. congruence.
      * by rewrite IH.
Qed.

(** * Ranges of cells *)

Section ranges.
Import SpreadsheetApp.

Lemma rangeIntersect_spec r1 r2 :
  SheetHelper.rangeIntersect r1 r2 = true
  ↔ getRow r2 ≤ getLastRow r1 ∧ getRow r1 ≤ getLastRow r2
    ∧ getColumn r2 ≤ getLastColumn r1 ∧ getColumn r1 ≤ getLastColumn r2.
Proof.
  unfold SheetHelper.rangeIntersect.
  rewrite !andb_true_iff, !Z.geb_le. tauto.
Qed.

Lemma rangeIntersect_comm r1 r2 :
  SheetHelper.rangeIntersect r1 r2 = SheetHelper.rangeIntersect r2 r1.
Proof.
  apply eq_true_iff_eq. rewrite !rangeIntersect_spec. tauto.
Qed.

(** X17. [rangeIntersect] compares the rows and the columns of the two
    ranges, not their sheets, and does not depend on the order of its
    arguments.  On ranges that have at least one cell it answers true if
    and only if the ranges have a row and a column in common; for two
    ranges of the same sheet, as its caller passes them, that is: if and
    only if some cell belongs to both. *)
Theorem rangeIntersect_common_cell (r1 r2 : Range) :
  proper r1 → proper r2 →
  (getSheet r1 = getSheet r2 →
   (SheetHelper.rangeIntersect r1 r2 = true
    ↔ ∃ sheet row col, has_cell r1 sheet row col ∧ has_cell r2 sheet row col))
  ∧ (SheetHelper.rangeIntersect r1 r2 = true
     ↔ ∃ row col, in_range r1 row col ∧ in_range r2 row col)
  ∧ SheetHelper.rangeIntersect r1 r2 = SheetHelper.rangeIntersect r2 r1.
Proof.
  intros [Hr1 Hc1] [Hr2 Hc2].
  assert (Hcoord : SheetHelper.rangeIntersect r1 r2 = true
                   ↔ ∃ row col, in_range r1 row col ∧ in_range r2 row col).
  { rewrite rangeIntersect_spec. unfold in_range, getLastRow, getLastColumn.
    split.
    - intros (H1 & H2 & H3 & H4).
      exists (Z.max (getRow r1) (getRow r2)),
             (Z.max (getColumn r1) (getColumn r2)). lia.
    - intros (row & col & ? & ?). lia. }
  split; [|split; [exact Hcoord | apply rangeIntersect_comm]].
  intros Hsheet. rewrite Hcoord. unfold has_cell. split.
  - intros (row & col & H1 & H2). exists (getSheet r1), row, col.
    by rewrite Hsheet at 2.
  - intros (sheet & row & col & [_ H1] & [_ H2]). by exists row, col.
Qed.

Lemma rangeIntersect_witness :
  SheetHelper.rangeIntersect (mkCells 0 1 1 3 2) (mkCells 0 3 2 4 4) = true
  ↔ ∃ sheet row col, has_cell (mkCells 0 1 1 3 2) sheet row col
                     ∧ has_cell (mkCells 0 3 2 4 4) sheet row col.
Proof.
  apply (rangeIntersect_common_cell (mkCells 0 1 1 3 2) (mkCells 0 3 2 4 4));
    [split; simpl; lia | split; simpl; lia | reflexivity].
Defined.

(** two ranges of different sheets with the same rows and columns: the
    answer is true, and no cell belongs to both *)
Example rangeIntersect_other_sheet :
  SheetHelper.rangeIntersect (mkCells 0 1 1 3 2) (mkCells 1 1 1 3 2) = true
  ∧ ¬ ∃ sheet row col, has_cell (mkCells 0 1 1 3 2) sheet row col
                       ∧ has_cell (mkCells 1 1 1 3 2) sheet row col.
Proof.
  split; [reflexivity|].
  intros (sheet & row & col & [Hs1 _] & [Hs2 _]). simpl in *. congruence.
Qed.

(** X18. The rows of a data table: [getRows] raises exactly when the rows
    asked for are not data rows of the table; the range it returns has the
    width of the table, lies inside the table and does not touch the
    header. *)
Theorem getRows_within (r rg : Range) (i nb row col : Z) :
  DataTable.getRows r i nb = Some rg →
  in_range rg row col →
  1 ≤ i ∧ i + nb - 1 ≤ DataTable.getNumRows r
  ∧ getNumRows rg = nb ∧ getNumColumns rg = getNumColumns r
  ∧ in_range r row col
  ∧ ¬ in_range (DataTable.getHeader r) row col.
Proof.
  unfold DataTable.getRows.
  destruct ((1 <=? i) && (i + nb - 1 <=? DataTable.getNumRows r)) eqn:Hc;
    [|done].
  apply andb_true_iff in Hc as [Hi Hn]. apply Z.leb_le in Hi, Hn.
  intros [= <-]. unfold in_range, DataTable.getHeader, DataTable.getNumRows,
    offset3, getLastRow, getLastColumn in *. simpl. lia.
Qed.

Lemma getRows_witness :
  1 ≤ 2 ∧ 2 + 2 - 1 ≤ DataTable.getNumRows (mkCells 0 5 2 4 3)
  ∧ getNumRows (mkCells 0 7 2 2 3) = 2
  ∧ getNumColumns (mkCells 0 7 2 2 3) = getNumColumns (mkCells 0 5 2 4 3)
  ∧ in_range (mkCells 0 5 2 4 3) 8 4
  ∧ ¬ in_range (DataTable.getHeader (mkCells 0 5 2 4 3)) 8 4.
Proof.
  apply (getRows_within (mkCells 0 5 2 4 3) (mkCells 0 7 2 2 3) 2 2 8 4).
  - reflexivity.
  - unfold in_range, getLastRow, getLastColumn. simpl. lia.
Defined.

(** X19. The header and the data rows partition a data table: a cell of the
    table belongs to the header or to one data row, the row whose number is
    the distance of the cell to the header, and to no other; and [getRow]
    raises for every row number that is not between 1 and the number of
    data rows. *)
Theorem getRow_partition (r : Range) (row col : Z) :
  in_range r row col →
  let i := row - getRow r in
  (i = 0 ∧ in_range (DataTable.getHeader r) row col
   ∨ ∃ rg, DataTable.getRow r i = Some rg ∧ in_range rg row col
           ∧ ¬ in_range (DataTable.getHeader r) row col)
  ∧ (∀ j rg, DataTable.getRow r j = Some rg → in_range rg row col → j = i)
  ∧ (∀ j, DataTable.getRow r j = None
          ↔ j < 1 ∨ DataTable.getNumRows r < j).
Proof.
  intros [Hrow Hcol] i. unfold DataTable.getRow, DataTable.getRows.
  unfold getLastRow, getLastColumn in *. split; [|split].
  - destruct (decide (i = 0)) as [Hi|Hi].
    + left. split; [done|].
      unfold in_range, DataTable.getHeader, offset3, getLastRow,
        getLastColumn. simpl. unfold i in Hi. lia.
    + right. unfold DataTable.getNumRows.
      rewrite (proj2 (andb_true_iff _ _)); cycle 1.
      { split; apply Z.leb_le; unfold i in *; lia. }
      eexists. split; [done|].
      unfold in_range, DataTable.getHeader, offset3, getLastRow,
        getLastColumn. simpl. unfold i in *. lia.
  - intros j rg.
    destruct ((1 <=? j) && (j + 1 - 1 <=? DataTable.getNumRows r)); [|done].
    intros [= <-]. unfold in_range, DataTable.getHeader, offset3,
      getLastRow, getLastColumn. simpl. unfold i. lia.
  - intros j.
    destruct ((1 <=? j) && (j + 1 - 1 <=? DataTable.getNumRows r)) eqn:Hc.
    + apply andb_true_iff in Hc as [H1 H2]. apply Z.leb_le in H1, H2.
      split; [done|lia].
    + apply andb_false_iff in Hc as [Hc|Hc]; apply Z.leb_gt in Hc;
        split; try done; lia.
Qed.

Lemma getRow_witness :
  7 - 5 = 0 ∧ in_range (DataTable.getHeader (mkCells 0 5 2 4 3)) 7 3
  ∨ ∃ rg, DataTable.getRow (mkCells 0 5 2 4 3) (7 - 5) = Some rg
          ∧ in_range rg 7 3
          ∧ ¬ in_range (DataTable.getHeader (mkCells 0 5 2 4 3)) 7 3.
Proof.
  apply (getRow_partition (mkCells 0 5 2 4 3) 7 3).
  unfold in_range, getLastRow, getLastColumn. simpl. lia.
Defined.

(** ** The regions kept by [locateFromLabel] *)

Lemma removelast_snoc (l : list Range) q : removelast (l ++ [q]) = l.
Proof. by rewrite removelast_last. Qed.

Lemma keep_loop_snoc (l : list Range) q acc :
  DataTable.keep_loop (length (l ++ [q])) (l ++ [q]) acc
  = DataTable.keep_loop (length l) l
      (if existsb (fun r => SheetHelper.rangeIntersect r q) l
       then acc else q :: acc).
Proof.
  rewrite length_app. simpl. rewrite Nat.add_1_r.
  cbn [DataTable.keep_loop]. by rewrite last_snoc, removelast_snoc.
Qed.

Lemma keep_loop_spec (l : list Range) :
  ∀ acc, ∃ k, DataTable.keep_loop (length l) l acc = k ++ acc
    ∧ k `sublist_of` l ∧ non_overlapping k ∧ head k = head l.
Proof.
  induction l as [|q l IH] using rev_ind; intros acc.
  - exists []. repeat split; done.
  - rewrite keep_loop_snoc.
    destruct (existsb (fun r => SheetHelper.rangeIntersect r q) l) eqn:Hex.
    + destruct (IH acc) as (k & Hk & Hsub & Hno & Hhd).
      exists k. split; [done|]. split; [by apply sublist_inserts_r|].
      split; [done|]. rewrite Hhd. destruct l as [|x l]; [|done].
      done.
    + destruct (IH (q :: acc)) as (k & Hk & Hsub & Hno & Hhd).
      exists (k ++ [q]). split; [by rewrite Hk, <- app_assoc|].
      split; [by apply sublist_app|]. split.
      * intros i j a b Hij Hi Hj.
        destruct (decide (j < length k)%nat) as [Hlt|Hge].
        -- rewrite lookup_app_l in Hi, Hj by lia.
           exact (Hno i j a b Hij Hi Hj).
        -- apply lookup_lt_Some in Hj as Hj'.
           rewrite length_app in Hj'. simpl in Hj'.
           assert (j = length k) as -> by lia.
           rewrite list_lookup_middle in Hj by done. injection Hj as <-.
           rewrite lookup_app_l in Hi by lia.
           assert (Hin : a ∈ l).
           { eapply elem_of_sublist; [|done].
             by eapply list_elem_of_lookup_2. }
           destruct (SheetHelper.rangeIntersect a q) eqn:Hint; [|done].
           assert (existsb (fun r => SheetHelper.rangeIntersect r q) l
                   = true); [|congruence].
           apply existsb_exists. exists a. split; [|done].
           by apply list_elem_of_In.
      * destruct l as [|x l].
        -- apply sublist_nil_r in Hsub. by subst k.
        -- destruct k as [|y k]; [done|]. done.
Qed.

(** X20. Of the candidate regions of a table, [locateFromLabel] keeps, in
    their order, regions that do not overlap one another, and always the
    first candidate; so it finds no table only when there is no candidate,
    and the table it returns is one of the candidates. *)
Theorem locate_among_kept (rs1 : list Range) (c : Range) :
  let rs2 := DataTable.keep_loop (length rs1) rs1 [] in
  rs2 `sublist_of` rs1 ∧ non_overlapping rs2 ∧ head rs2 = head rs1
  ∧ (DataTable.locate_among rs1 c = None ↔ rs1 = [])
  ∧ (∀ r, DataTable.locate_among rs1 c = Some r → r ∈ rs1).
Proof.
  intros rs2. destruct (keep_loop_spec rs1 []) as (k & Hk & Hsub & Hno & Hhd).
  rewrite app_nil_r in Hk. fold rs2 in Hk. subst k.
  split; [done|]. split; [done|]. split; [done|].
  unfold DataTable.locate_among. fold rs2.
  split; [split|].
  - destruct rs2 as [|r0 rs2']; [|by destruct (List.find _ _)].
    intros _. by destruct rs1.
  - intros ->. by subst rs2.
  - intros r. destruct rs2 as [|r0 rs2'] eqn:Hrs2; [done|].
    destruct (List.find _ _) as [r'|] eqn:Hf; intros [= <-].
    + apply find_some in Hf as [Hin _]. apply list_elem_of_In in Hin.
      by eapply elem_of_sublist.
    + eapply elem_of_sublist; [|done]. by left.
Qed.

End ranges.

(** * The strings matching a pattern *)

Section findAll_facts.
Import Regex.

Variable h : heap.

(** the body of the loop of [findAll] *)
Let step (unique : bool) (res : option (list text)) (range : RangeElement)
    : option (list text) :=
  res ← res;
  str ← getStringFromRange h range;
  Some (if negb unique || bool_decide (str ∉ res)
        then res ++ [str] else res).

(** the strings of a list, each kept at its first occurrence *)
Let uniq (acc strs : list text) : list text :=
  foldl (fun res s => if bool_decide (s ∉ res) then res ++ [s] else res)
    acc strs.

Lemma findAll_fold_None unique ranges : foldl (step unique) None ranges = None.
Proof. by induction ranges. Qed.

Lemma findAll_fold_defined unique ranges acc l :
  foldl (step unique) (Some acc) ranges = Some l →
  Forall (fun rg => is_Some (getStringFromRange h rg)) ranges.
Proof.
  revert acc. induction ranges as [|rg ranges IH]; intros acc; [done|].
  cbn [foldl]. unfold step at 2. simpl.
  destruct (getStringFromRange h rg) as [s|] eqn:Hs; simpl.
  - intros Hl. constructor; [by rewrite Hs|]. by eapply IH.
  - by rewrite findAll_fold_None.
Qed.

Lemma findAll_fold_all ranges acc :
  Forall (fun rg => is_Some (getStringFromRange h rg)) ranges →
  foldl (step false) (Some acc) ranges = Some (acc ++ omap (getStringFromRange h) ranges).
Proof.
  intros Hdef. revert acc.
  induction Hdef as [|rg ranges [s Hs] _ IH]; intros acc.
  - by rewrite app_nil_r.
  - cbn [foldl omap list_omap]. unfold step at 2. simpl. rewrite Hs.
    simpl. rewrite IH. by rewrite <- app_assoc.
Qed.

Lemma findAll_fold_unique ranges acc :
  Forall (fun rg => is_Some (getStringFromRange h rg)) ranges →
  foldl (step true) (Some acc) ranges = Some (uniq acc (omap (getStringFromRange h) ranges)).
Proof.
  intros Hdef. revert acc.
  induction Hdef as [|rg ranges [s Hs] _ IH]; intros acc; [done|].
  cbn [foldl omap list_omap]. unfold step at 2. simpl. rewrite Hs.
  simpl. by rewrite IH.
Qed.

Lemma uniq_spec strs : ∀ acc,
  NoDup acc →
  ∃ k, uniq acc strs = acc ++ k ∧ NoDup (acc ++ k) ∧ k `sublist_of` strs
       ∧ ∀ s, s ∈ acc ++ k ↔ s ∈ acc ∨ s ∈ strs.
Proof.
  induction strs as [|s strs IH]; intros acc Hnd.
  - exists []. rewrite app_nil_r. repeat split; try done.
    + by left.
    + intros [?|?%elem_of_nil]; done.
  - unfold uniq. cbn [foldl]. fold (uniq (if bool_decide (s ∉ acc)
                                          then acc ++ [s] else acc) strs).
    case_bool_decide as Hs.
    + destruct (IH (acc ++ [s])) as (k & Hk & Hnd' & Hsub & Hin).
      { apply NoDup_app. split; [done|]. split; [|apply NoDup_singleton].
        intros x Hx ->%list_elem_of_singleton. done. }
      exists (s :: k). rewrite Hk, <- app_assoc. simpl.
      split; [done|]. rewrite <- app_assoc in Hnd'. split; [done|].
      split; [by constructor|]. intros x.
      rewrite (cons_middle s acc k), app_assoc, Hin.
      rewrite elem_of_app, list_elem_of_singleton, elem_of_cons. tauto.
    + destruct (IH acc Hnd) as (k & Hk & Hnd' & Hsub & Hin).
      exists k. split; [done|]. split; [done|].
      split; [by constructor|]. intros x. rewrite Hin, elem_of_cons.
      split; [tauto|].
      intros [?|[->|?]]; tauto.
Qed.

Lemma valid_range_string r rg :
  nullable r = false → valid_range h r rg →
  ∃ s, getStringFromRange h rg = Some s ∧ matches r s.
Proof.
  intros Hn Hv.
  destruct (getStringFromRange_spec h r rg Hn Hv)
    as (el & st & n & _ & _ & _ & _ & Hl & Hs).
  eexists. split; [done|]. by apply longest_sound in Hl as [_ Hm].
Qed.

Lemma omap_strings r ranges :
  nullable r = false → Forall (valid_range h r) ranges →
  Forall (fun rg => is_Some (getStringFromRange h rg)) ranges
  ∧ Forall (matches r) (omap (getStringFromRange h) ranges).
Proof.
  intros Hn Hv. induction Hv as [|rg ranges Hrg _ [IH1 IH2]]; [done|].
  destruct (valid_range_string r rg Hn Hrg) as (s & Hs & Hm).
  split; [constructor; [by rewrite Hs|done]|].
  cbn [omap list_omap]. rewrite Hs. by constructor.
Qed.

Lemma findAll_run docPart r unique ranges :
  findAllRanges h docPart r = Some ranges →
  findAll h docPart r unique = foldl (step unique) (Some []) ranges.
Proof. intros Hr. unfold findAll. by rewrite Hr. Qed.

End findAll_facts.

(** X1. For a pattern that does not match the empty string, and a part
    whose text elements are distinct, [findAll] returns, with or without
    repetition, and every string it returns matches the pattern. *)
Theorem findAll_matches (h : heap) (docPart : ref) (r : Regex.regex)
    (unique : bool) (ts : list ref) :
  Regex.nullable r = false → NoDup ts →
  text_elements (length h) h docPart = Some ts →
  ∃ l, findAll h docPart r unique = Some l ∧ Forall (Regex.matches r) l.
Proof.
  intros Hn Hnd Hts.
  pose proof (findAllRanges_spec h docPart r ts Hn Hnd Hts) as Hr.
  pose proof (findAllRanges_valid _ _ _ _ Hr) as Hv.
  destruct (omap_strings h r _ Hn Hv) as [Hdef Hm].
  rewrite (findAll_run h docPart r unique _ Hr). destruct unique.
  - rewrite findAll_fold_unique by done.
    destruct (uniq_spec (omap (getStringFromRange h)
                 (flat_map (fun e => ranges_in h r e 0) ts)) []
                (NoDup_nil_2)) as (k & Hk & _ & Hsub & _).
    eexists. split; [done|]. rewrite Hk. simpl.
    apply Forall_forall. intros s Hs.
    eapply Forall_forall in Hm; [done|]. by eapply elem_of_sublist.
  - rewrite findAll_fold_all by done. eexists. split; [done|]. done.
Qed.

Lemma findAll_witness :
  ∃ l, findAll two_par_heap 0%nat MergeHelper.pattern true = Some l
       ∧ Forall (Regex.matches MergeHelper.pattern) l.
Proof.
  apply (findAll_matches two_par_heap 0%nat MergeHelper.pattern true
           [2; 4]%nat).
  - reflexivity.
  - compute_done.
  - reflexivity.
Defined.

(** X2. With [unique] set, [findAll] returns the strings it returns
    without it, each one once, at the place of its first occurrence. *)
Theorem findAll_unique (h : heap) (docPart : ref) (r : Regex.regex)
    (l : list text) :
  findAll h docPart r false = Some l →
  ∃ l', findAll h docPart r true = Some l'
        ∧ NoDup l' ∧ l' `sublist_of` l ∧ ∀ s, s ∈ l' ↔ s ∈ l.
Proof.
  unfold findAll.
  destruct (findAllRanges h docPart r) as [ranges|] eqn:Hr; [|done].
  simpl. intros Hl.
  pose proof (findAll_fold_defined h false ranges [] l Hl) as Hdef.
  rewrite findAll_fold_all in Hl by done. injection Hl as <-.
  rewrite findAll_fold_unique by done.
  destruct (uniq_spec (omap (getStringFromRange h) ranges) [] (NoDup_nil_2))
    as (k & Hk & Hnd & Hsub & Hin).
  eexists. split; [done|]. rewrite Hk. simpl in *.
  split; [done|]. split; [done|]. intros s. rewrite Hin.
  split; [by intros [?%elem_of_nil|?]|by right].
Qed.

Lemma findAll_unique_witness :
  ∃ l', findAll two_par_heap 0%nat MergeHelper.pattern true = Some l'
        ∧ NoDup l'
        ∧ l' `sublist_of` [T "<<A>>"; T "<x<B?>y>"; T "<<D>>"; T "<<C>>"]
        ∧ ∀ s, s ∈ l' ↔ s ∈ [T "<<A>>"; T "<x<B?>y>"; T "<<D>>"; T "<<C>>"].
Proof.
  apply (findAll_unique two_par_heap 0%nat MergeHelper.pattern).
  vm_compute. reflexivity.
Defined.

(** * What the scanner and the merge leave alone *)

Section nothing_found.
Import Regex.

Lemma flat_map_nil {A B} (f : A → list B) (l : list A) :
  flat_map f l = [] ↔ ∀ x, x ∈ l → f x = [].
Proof.
  induction l as [|x l IH]; simpl.
  - split; [by intros _ ? ?%elem_of_nil|done].
  - split.
    + intros [Hx Hl]%app_eq_nil y [->|Hy]%elem_of_cons; [done|].
      by apply IH.
    + intros Hall. rewrite (Hall x) by by left. simpl.
      apply IH. intros y Hy. apply Hall. by right.
Qed.

Lemma search_nothing r s :
  search r s 0 = None
  ↔ ∀ pre m post, s = pre ++ m ++ post → ¬ matches r m.
Proof.
  split.
  - intros Hs pre m post -> Hm.
    assert (Hk : (length pre ≤ length (pre ++ m ++ post))%nat)
      by (rewrite length_app; lia).
    pose proof (search_None r _ 0 (length pre) Hs Hk) as Hl.
    rewrite drop_app_length in Hl.
    apply (longest_None r (m ++ post) (length m) Hl).
    + rewrite length_app. lia.
    + by rewrite take_app_length.
  - intros Hnone. destruct (search r s 0) as [[st n]|] eqn:Hs; [|done].
    apply search_sound in Hs as (k & _ & Hk & Hl & _).
    apply longest_sound in Hl as [Hn Hm].
    exfalso. apply (Hnone (take k s) (take n (drop k s))
                      (drop n (drop k s))); [|done].
    by rewrite !take_drop.
Qed.

End nothing_found.

(** X3. [findAllRanges] finds nothing exactly when nothing matches: for a
    pattern that does not match the empty string, it returns the empty
    array if and only if no part of the text of a text element of the
    document part matches the pattern. *)
Theorem findAllRanges_nothing (h : heap) (docPart : ref) (r : Regex.regex)
    (ts : list ref) :
  Regex.nullable r = false → NoDup ts →
  text_elements (length h) h docPart = Some ts →
  (findAllRanges h docPart r = Some []
   ↔ ∀ e pre m post, e ∈ ts → content h e = pre ++ m ++ post →
                     ¬ Regex.matches r m).
Proof.
  intros Hn Hnd Hts. rewrite (findAllRanges_spec h docPart r ts Hn Hnd Hts).
  split.
  - intros [= Hnil] e pre m post He.
    pose proof (proj1 (flat_map_nil _ _) Hnil e He) as Hr.
    cbv beta in Hr. rewrite ranges_in_search in Hr by done. rewrite drop_0 in Hr.
    destruct (Regex.search r (content h e) 0) as [[st n]|] eqn:Hs; [done|].
    by apply search_nothing.
  - intros Hnone. f_equal. apply flat_map_nil. intros e He.
    cbv beta. rewrite ranges_in_search by done. rewrite drop_0.
    rewrite (proj2 (search_nothing r (content h e))); [done|].
    intros pre m post. by apply Hnone.
Qed.

Lemma findAllRanges_nothing_witness :
  findAllRanges empty_name_heap 0%nat MergeHelper.pattern = Some []
  ↔ ∀ e pre m post, e ∈ [2%nat] → content empty_name_heap e = pre ++ m ++ post
                    → ¬ Regex.matches MergeHelper.pattern m.
Proof.
  apply (findAllRanges_nothing empty_name_heap 0%nat MergeHelper.pattern
           [2%nat]).
  - reflexivity.
  - compute_done.
  - reflexivity.
Defined.

(** ** The frame of the merge *)

Section merge_frame.

Variables (map : gmap text text) (tags : list Tag) (h0 : heap).

Hypothesis Hsorted : sorted_tags tags.
Hypothesis Hfound :
  ∀ tag, tag ∈ tags → tag_wf tag ∧ ∃ pre post, located h0 tag pre post.

(** an element that no replaced tag points to keeps its type and text in
    every state of the loop *)
Lemma loop_state_frame e t h :
  (e < length h0)%nat →
  (∀ tag, tag ∈ tags → resolve map tag ≠ None →
          getElement (t_range tag) ≠ e) →
  loop_state map tags h0 t h →
  (length h0 ≤ length h)%nat ∧ shape <$> h !! e = shape <$> h0 !! e.
Proof.
  intros Hlt He Hstate.
  induction Hstate as [|t tag h h' Hstate [IHlen IH] Htag Hrun]; [done|].
  pose proof (loop_state_prefixes _ _ _ _ _ Hsorted Hfound Hstate) as Hkept.
  destruct (prefixes_kept_located _ _ _ _ _ Hfound Hkept Htag)
    as (pre & post & Hloc & _).
  destruct (Hfound tag) as [Hwf _]; [by eapply list_elem_of_lookup_2|].
  pose proof (processTag_effect _ _ _ _ _ _ Hwf Hloc Hrun) as Heff.
  destruct (resolve map tag) as [tagValue|] eqn:Hres; [|by subst h'].
  destruct Heff as (isNew & _ & Hgrows).
  assert (Hne : getElement (t_range tag) ≠ e).
  { apply He; [by eapply list_elem_of_lookup_2|]. by rewrite Hres. }
  split.
  - apply grows_length in Hgrows. rewrite length_set_text in Hgrows. lia.
  - rewrite <- IH. destruct (h !! e) as [el|] eqn:Hel.
    + destruct (grows_lookup _ _ _ e el Hgrows) as (el' & Hel' & Hs).
      { by rewrite set_text_lookup_ne. }
      rewrite Hel'. simpl. by rewrite Hs.
    + apply lookup_ge_None in Hel. lia.
Qed.

End merge_frame.

(** X4. The merge changes the text of no other element: when it completes,
    an element of the document to which no replaced tag points (a tag whose
    name the map has, or an optional one) has the type and the text it had
    before, whatever is done to the text elements that hold such tags. *)
Theorem merge_keeps_other_texts (document : Document) (map : gmap text text)
    (h h' : heap) (ts : list ref) (tags : list Tag) (e : ref) :
  all_text_elements h (getDocumentParts document) = Some ts → NoDup ts →
  collectTags h (getDocumentParts document) = Some tags →
  merge document map h = Some (tt, h') →
  (e < length h)%nat →
  (∀ tag, tag ∈ tags → resolve map tag ≠ None →
          getElement (t_range tag) ≠ e) →
  content h' e = content h e ∧ e_type <$> h' !! e = e_type <$> h !! e.
Proof.
  intros Hts Hnd Htags Hrun Hlt He.
  pose proof (collectTags_sorted _ _ _ _ Hts Hnd Htags) as Hsorted.
  assert (Hfound : ∀ tag, tag ∈ tags →
            tag_wf tag ∧ ∃ pre post, located h tag pre post).
  { intros tag Hin. by eapply collectTags_found. }
  unfold merge in Hrun.
  apply bind_Some in Hrun as (tags' & h1 & Hread & Hloop).
  unfold read in Hread. rewrite Htags in Hread. injection Hread as <- <-.
  pose proof (merge_loop_states map tags h _ h h' (loop_start _ _ _) Hloop)
    as Hstate.
  destruct (loop_state_frame map tags h Hsorted Hfound e 0 h' Hlt He Hstate)
    as [_ Hshape].
  unfold content. destruct (h' !! e) as [el'|], (h !! e) as [el|];
    simpl in Hshape; try done.
  injection Hshape as Hty Htxt. simpl. by rewrite Hty, Htxt.
Qed.

Lemma merge_keeps_witness :
  content two_par_merged 3%nat = content two_par_heap 3%nat
  ∧ e_type <$> two_par_merged !! 3%nat = e_type <$> two_par_heap !! 3%nat.
Proof.
  apply (merge_keeps_other_texts body_only abc_map
           two_par_heap two_par_merged [2; 4]%nat two_par_tags 3%nat).
  - reflexivity.
  - compute_done.
  - reflexivity.
  - vm_compute. reflexivity.
  - simpl. lia.
  - intros tag Hin _. unfold two_par_tags in Hin.
    repeat (apply elem_of_cons in Hin as [->|Hin]); try discriminate.
    by apply elem_of_nil in Hin.
Defined.

(** X5. A document in which every tag is mandatory and unknown to the field
    map is left as it is: the merge completes, replaces nothing and changes
    nothing. *)
Theorem merge_skips_unknown (document : Document) (map : gmap text text)
    (h : heap) (tags : list Tag) :
  collectTags h (getDocumentParts document) = Some tags →
  (∀ tag, tag ∈ tags → map !! t_tag tag = None ∧ t_opt tag = false) →
  merge document map h = Some (tt, h).
Proof.
  intros Htags Hskip. unfold merge.
  erewrite bind_run; [|unfold read; by rewrite Htags].
  apply merge_loop_skip; [done|].
  intros tag Hin. by apply resolve_None, Hskip.
Qed.

Lemma merge_skips_witness :
  merge body_only ∅ hello_heap = Some (tt, hello_heap).
Proof.
  apply (merge_skips_unknown body_only ∅ hello_heap [hello_tag]).
  - reflexivity.
  - intros tag ->%list_elem_of_singleton. split; reflexivity.
Defined.

(** * The merge of plain paragraphs completes *)

Section plain_documents.

Lemma pruned_refl h : pruned h h.
Proof. split; [done|]. intros r el Hr. exists el. eauto. Qed.

Lemma pruned_trans h1 h2 h3 : pruned h1 h2 → pruned h2 h3 → pruned h1 h3.
Proof.
  intros [Hl1 H1] [Hl2 H2]. split; [congruence|]. intros r el Hr.
  destruct (H1 r el Hr) as (el2 & Hr2 & Hty2 & Hp2 & Hc2).
  destruct (H2 r el2 Hr2) as (el3 & Hr3 & Hty3 & Hp3 & Hc3).
  exists el3. split; [done|]. split; [congruence|]. split.
  - destruct Hp3 as [Hp3|[Hp3 Hn3]].
    + rewrite Hp3. exact Hp2.
    + right. split; [done|]. by rewrite <- Hty2.
  - intros c Hc. by apply Hc2, Hc3.
Qed.

Lemma pruned_insert h r el el1 :
  h !! r = Some el → e_type el1 = e_type el →
  (e_parent el1 = e_parent el ∨ e_parent el1 = None ∧ e_type el ≠ TEXT) →
  (∀ c, c ∈ e_children el1 → c ∈ e_children el) →
  pruned h (<[r := el1]> h).
Proof.
  intros Hr Hty Hp Hc. split; [apply length_insert|]. intros r' el' Hr'.
  destruct (decide (r' = r)) as [->|Hne].
  - assert (el' = el) as -> by congruence. exists el1.
    split; [|done]. apply list_lookup_insert_eq. by eapply lookup_lt_Some.
  - exists el'. rewrite list_lookup_insert_ne by done. eauto.
Qed.

Lemma pruned_set_text h e s : pruned h (set_text h e s).
Proof.
  unfold set_text. destruct (h !! e) as [el|] eqn:He; [|apply pruned_refl].
  apply (pruned_insert h e el); auto.
Qed.

Lemma plain_pruned h h1 e : pruned h h1 → plain_text h e → plain_text h1 e.
Proof.
  intros [Hlen Hp] (el & pg & pgE & He & Hty & Hpar & Hpg & Hpgty & Hch & Hpp).
  destruct (Hp e el He) as (el1 & He1 & Hty1 & Hpar1 & _).
  destruct (Hp pg pgE Hpg) as (pgE1 & Hpg1 & Hpgty1 & Hpp1 & Hch1).
  exists el1, pg, pgE1. split; [done|]. split; [congruence|].
  split; [destruct Hpar1 as [?|[_ ?]]; congruence|].
  split; [done|]. split; [congruence|]. split.
  - apply Forall_forall. intros c Hc. apply Hch1 in Hc.
    eapply Forall_forall in Hch as (cE & HcE & HcTy); [|done].
    destruct (Hp c cE HcE) as (cE1 & HcE1 & HcTy1 & _).
    exists cE1. split; [done|congruence].
  - destruct Hpp1 as [Heq|[Heq _]]; rewrite Heq; [|done].
    destruct (e_parent pgE) as [p|]; [|done].
    destruct Hpp as (Hne & pE & HpE & Hn1 & Hn2). split; [done|].
    destruct (Hp p pE HpE) as (pE1 & HpE1 & HpTy1 & _).
    exists pE1. split; [done|]. by rewrite HpTy1.
Qed.

Lemma text_of_S fuel h r :
  text_of (S fuel) h r
  = match h !! r with
    | None => None
    | Some e =>
        match e_type e with
        | TEXT => Some (e_text e)
        | PARAGRAPH | LIST_ITEM =>
            (fun l => concat l) <$> mapM (text_of fuel h) (e_children e)
        | _ => join_lines <$> mapM (text_of fuel h) (e_children e)
        end
    end.
Proof. reflexivity. Qed.

(** the text of a paragraph made of text elements is defined *)
Lemma text_of_paragraph h pg pgE :
  h !! pg = Some pgE → e_type pgE = PARAGRAPH →
  Forall (fun c => ∃ cE, h !! c = Some cE ∧ e_type cE = TEXT)
    (e_children pgE) →
  (2 ≤ length h)%nat →
  is_Some (text_of (length h) h pg).
Proof.
  intros Hpg Hty Hch Hlen.
  destruct (length h) as [|[|n]]; [lia..|].
  assert (Hm : is_Some (mapM (text_of (S n) h) (e_children pgE))).
  { apply mapM_is_Some_2. eapply Forall_impl; [done|].
    intros c (cE & HcE & HcTy). simpl. by rewrite HcE, HcTy. }
  destruct Hm as [l Hl]. rewrite text_of_S, Hpg, Hty, Hl. by eexists.
Qed.

(** The processing of a tag whose text element belongs to a plain paragraph
    succeeds, and removes at most the emptied paragraph. *)
Lemma processTag_plain map tag h pre post :
  tag_wf tag → located h tag pre post →
  plain_text h (getElement (t_range tag)) →
  ∃ h', processTag map tag h = Some (tt, h') ∧ pruned h h'.
Proof.
  intros Hwf Hloc (el & pg & pgE & He & Hty & Hpar & Hpg & Hpgty & Hch & Hpp).
  set (element := getElement (t_range tag)) in *.
  unfold processTag.
  destruct (resolve map tag) as [tagValue|] eqn:Hres;
    [|exists h; split; [done|apply pruned_refl]].
  assert (Hne : element ≠ pg) by (intros Heq; rewrite Heq in He; congruence).
  pose proof (lookup_lt_Some _ _ _ He) as Hlt1.
  pose proof (lookup_lt_Some _ _ _ Hpg) as Hlt2.
  assert (Hnew : newItemsCase tag tagValue h = Some (false, h)).
  { unfold newItemsCase. fold element.
    erewrite bind_run; cycle 1.
    { unfold getText. apply read_run.
      destruct (length h) as [|n]; [lia|]. simpl. by rewrite He, Hty. }
    erewrite bind_run; [|by apply getParent_run]. rewrite Hpar.
    erewrite bind_run; [|reflexivity].
    erewrite bind_run; [|by apply getType_run].
    rewrite Hpgty. by rewrite bool_decide_eq_false_2. }
  erewrite bind_run; [|exact Hnew]. cbv iota beta.
  erewrite bind_run; [|reflexivity]. cbv iota beta.
  erewrite bind_run; [|by apply replace_spec]. fold element.
  set (h1 := set_text h element (pre ++ replacement tag tagValue ++ post)).
  erewrite bind_run; [|reflexivity].
  assert (Hp1 : pruned h h1) by apply pruned_set_text.
  assert (He1 : h1 !! element
                = Some (with_text el
                          (pre ++ replacement tag tagValue ++ post)))
    by by apply set_text_lookup.
  assert (Hpg1 : h1 !! pg = Some pgE)
    by (unfold h1; by rewrite set_text_lookup_ne).
  assert (Hlen1 : length h1 = length h) by apply length_set_text.
  unfold cleanup.
  erewrite bind_run; [|by apply getParent_run]. simpl. rewrite Hpar.
  erewrite bind_run; [|reflexivity].
  erewrite bind_run; [|by apply getType_run].
  destruct (text_of_paragraph h1 pg pgE Hpg1 Hpgty) as [pgText HpgText].
  { eapply Forall_impl; [done|]. intros c (cE & HcE & HcTy).
    destruct (proj2 Hp1 c cE HcE) as (cE1 & HcE1 & HcTy1 & _).
    exists cE1. split; [done|congruence]. }
  { lia. }
  erewrite bind_run; [|unfold getText; by apply read_run].
  destruct (JS.len pgText =? 0); [|by exists h1].
  erewrite bind_run; [|by apply getParent_run].
  destruct (e_parent pgE) as [p|] eqn:Hpgp.
  - destruct Hpp as (Hnep & pE & HpE & Hn1 & Hn2).
    assert (Hpe : p ≠ element)
      by (intros Heq; rewrite Heq in HpE; congruence).
    assert (HpE1 : h1 !! p = Some pE)
      by (unfold h1; by rewrite set_text_lookup_ne).
    erewrite bind_run; cycle 1.
    { by apply (removeFromParent_spec h1 pg pgE p pE). }
    set (pE' := with_children pE (filter (fun c => c ≠ pg) (e_children pE))).
    set (h2 := <[p := pE']> h1).
    set (h3 := <[pg := with_parent pgE None]> h2).
    exists h3. split.
    + apply (detectEmptyRow_other h3 p pE'); [|by left].
      unfold h3, h2. rewrite list_lookup_insert_ne by done.
      apply list_lookup_insert_eq. by eapply lookup_lt_Some.
    + eapply pruned_trans; [exact Hp1|].
      eapply pruned_trans.
      * apply (pruned_insert h1 p pE pE'); [done|done|by left|].
        intros c Hc. unfold pE' in Hc. simpl in Hc.
        by apply list_elem_of_filter in Hc as [_ Hc].
      * apply (pruned_insert h2 pg pgE); [|done| |done].
        -- unfold h2. by rewrite list_lookup_insert_ne.
        -- right. split; [done|]. by rewrite Hpgty.
  - erewrite bind_run; [|by eapply removeFromParent_orphan].
    by exists h1.
Qed.

Variables (map : gmap text text) (tags : list Tag) (h0 : heap).

Hypothesis Hsorted : sorted_tags tags.
Hypothesis Hfound :
  ∀ tag, tag ∈ tags → tag_wf tag ∧ ∃ pre post, located h0 tag pre post.

Lemma merge_loop_plain t h :
  (t ≤ length tags)%nat →
  loop_state map tags h0 t h →
  (∀ tag, tag ∈ tags → resolve map tag ≠ None →
          plain_text h (getElement (t_range tag))) →
  ∃ hf, merge_loop map tags t h = Some (tt, hf) ∧ pruned h hf.
Proof.
  revert h. induction t as [|t IH]; intros h Ht Hstate Hplain.
  - exists h. split; [done|apply pruned_refl].
  - destruct (lookup_lt_is_Some_2 tags t) as [tag Htag]; [lia|].
    assert (Hin : tag ∈ tags) by by eapply list_elem_of_lookup_2.
    pose proof (loop_state_prefixes _ _ _ _ _ Hsorted Hfound Hstate) as Hkept.
    destruct (prefixes_kept_located _ _ _ _ _ Hfound Hkept Htag)
      as (pre & post & Hloc & _).
    destruct (Hfound tag Hin) as [Hwf _].
    assert (Hstep : ∃ h', processTag map tag h = Some (tt, h') ∧ pruned h h').
    { destruct (resolve map tag) as [v|] eqn:Hres.
      - eapply processTag_plain; [done..|]. apply Hplain; [done|].
        by rewrite Hres.
      - exists h. split; [|apply pruned_refl].
        unfold processTag. by rewrite Hres. }
    destruct Hstep as (h' & Hrun & Hpruned).
    destruct (IH h') as (hf & Hf & Hpr); [lia| | |].
    + by eapply loop_step.
    + intros tag' Hin' Hres'. eapply plain_pruned; [done|].
      by apply Hplain.
    + exists hf. split; [|by eapply pruned_trans].
      cbn [merge_loop]. rewrite Htag.
      erewrite bind_run; [|reflexivity].
      erewrite bind_run; [|exact Hrun]. exact Hf.
Qed.

End plain_documents.

(** X6. The merge of plain paragraphs never fails: when every tag that the
    field map replaces sits in a text element of a paragraph made of text
    elements, itself detached or held by an element that is not a table
    cell, [merge] completes, whatever the values of the map.  It creates no
    element and changes no type; it may only detach emptied paragraphs. *)
Theorem merge_completes_plain (document : Document) (map : gmap text text)
    (h : heap) (ts : list ref) (tags : list Tag) :
  all_text_elements h (getDocumentParts document) = Some ts → NoDup ts →
  collectTags h (getDocumentParts document) = Some tags →
  (∀ tag, tag ∈ tags → resolve map tag ≠ None →
          plain_text h (getElement (t_range tag))) →
  ∃ h', merge document map h = Some (tt, h') ∧ pruned h h'.
Proof.
  intros Hts Hnd Htags Hplain.
  pose proof (collectTags_sorted _ _ _ _ Hts Hnd Htags) as Hsorted.
  assert (Hfound : ∀ tag, tag ∈ tags →
            tag_wf tag ∧ ∃ pre post, located h tag pre post).
  { intros tag Hin. by eapply collectTags_found. }
  unfold merge. erewrite bind_run; [|unfold read; by rewrite Htags].
  apply (merge_loop_plain map tags h Hsorted Hfound); [done| |done].
  apply loop_start.
Qed.

Lemma merge_completes_witness :
  ∃ h', merge body_only abc_map two_par_heap = Some (tt, h')
        ∧ pruned two_par_heap h'.
Proof.
  apply (merge_completes_plain body_only abc_map two_par_heap [2; 4]%nat
           two_par_tags).
  - reflexivity.
  - compute_done.
  - reflexivity.
  - assert (Hplain : ∀ e pg, (e = 2%nat ∧ pg = 1%nat) ∨ (e = 4%nat ∧ pg = 3%nat)
                             → plain_text two_par_heap e).
    { intros e pg Hcase.
      assert (∃ el pgE, two_par_heap !! e = Some el ∧ e_type el = TEXT
                ∧ e_parent el = Some pg ∧ two_par_heap !! pg = Some pgE
                ∧ e_type pgE = PARAGRAPH ∧ e_children pgE = [e]
                ∧ e_parent pgE = Some 0%nat) as (el & pgE & H1 & H2 & H3
                                                   & H4 & H5 & H6 & H7).
      { destruct Hcase as [[-> ->]|[-> ->]]; eexists _, _;
          repeat split; reflexivity. }
      exists el, pg, pgE. repeat split; try done.
      - rewrite H6. constructor; [|done]. by exists el.
      - rewrite H7. split.
        + destruct Hcase as [[_ ->]|[_ ->]]; discriminate.
        + eexists. split; [reflexivity|split; discriminate]. }
    intros tag Hin _. unfold two_par_tags in Hin.
    repeat (apply elem_of_cons in Hin as [->|Hin]);
      try (by apply elem_of_nil in Hin).
    + apply (Hplain 2%nat 1%nat). by left.
    + apply (Hplain 2%nat 1%nat). by left.
    + apply (Hplain 2%nat 1%nat). by left.
    + apply (Hplain 4%nat 3%nat). by right.
Defined.

(** * The merge as a substitution *)

Section substitution.

Variables (map : gmap text text) (tags : list Tag) (h0 : heap).

Hypothesis Hsorted : sorted_tags tags.
Hypothesis Hfound :
  ∀ tag, tag ∈ tags → tag_wf tag ∧ ∃ pre post, located h0 tag pre post.
Hypothesis Hplain :
  ∀ tag, tag ∈ tags → resolve map tag ≠ None →
         plain_text h0 (getElement (t_range tag)).

(** a tag in a paragraph is not the special case of new list items *)
Lemma newItemsCase_plain tag tagValue h :
  plain_text h (getElement (t_range tag)) →
  newItemsCase tag tagValue h = Some (false, h).
Proof.
  intros (el & pg & pgE & He & Hty & Hpar & Hpg & Hpgty & _).
  pose proof (lookup_lt_Some _ _ _ He) as Hlt.
  unfold newItemsCase.
  erewrite bind_run; cycle 1.
  { unfold getText. apply read_run.
    destruct (length h) as [|n]; [lia|]. simpl. by rewrite He, Hty. }
  erewrite bind_run; [|by apply getParent_run]. rewrite Hpar.
  erewrite bind_run; [|reflexivity].
  erewrite bind_run; [|by apply getType_run].
  rewrite Hpgty. by rewrite bool_decide_eq_false_2.
Qed.

(** the texts in a state of the loop: unchanged up to the end of the last
    match of the tags still to process, substituted behind it *)
Let texts_substituted (t : nat) (h : heap) : Prop :=
  ∀ e el0, h0 !! e = Some el0 → e_type el0 = TEXT →
    content h e
    = take (frontier (take t tags) e) (e_text el0)
      ++ subst_tags map (e_text el0) e (frontier (take t tags) e)
           (drop t tags).

Lemma loop_state_subst t h :
  loop_state map tags h0 t h →
  pruned h0 h ∧ texts_substituted t h.
Proof.
  intros Hstate.
  induction Hstate as [|t tag h h' Hstate [IHp IH] Htag Hrun].
  - split; [apply pruned_refl|]. intros e el0 He Hty.
    rewrite drop_all. cbn [subst_tags]. rewrite take_drop.
    unfold content. by rewrite He.
  - pose proof (loop_state_prefixes _ _ _ _ _ Hsorted Hfound Hstate) as Hkept.
    destruct (prefixes_kept_located _ _ _ _ _ Hfound Hkept Htag)
      as (pre & post & Hloc & Hloc0).
    assert (Hin : tag ∈ tags) by by eapply list_elem_of_lookup_2.
    destruct (Hfound tag Hin) as [Hwf _].
    set (et := getElement (t_range tag)) in *.
    (* the effect of the step on the store *)
    assert (Hstep : pruned h h'
              ∧ content h' et = pre ++ written map tag ++ post
              ∧ ∀ e, e ≠ et → (e < length h)%nat →
                     content h' e = content h e).
    { pose proof (processTag_effect _ _ _ _ _ _ Hwf Hloc Hrun) as Heff.
      unfold written. destruct (resolve map tag) as [v|] eqn:Hres.
      - assert (Hpl : plain_text h et).
        { eapply plain_pruned; [done|]. apply Hplain; [done|].
          by rewrite Hres. }
        destruct (processTag_plain map tag h pre post Hwf Hloc Hpl)
          as (h'' & Hrun' & Hpr).
        assert (h'' = h') as -> by congruence.
        destruct Heff as (isNew & Hnew & Hgrows).
        rewrite (newItemsCase_plain tag v h Hpl) in Hnew.
        injection Hnew as <-. simpl in Hgrows.
        destruct Hloc as (el & Hel & _).
        pose proof (lookup_lt_Some _ _ _ Hel) as Hlt.
        split; [done|]. split.
        + erewrite grows_content; [|done|by rewrite length_set_text].
          by rewrite content_set_text.
        + intros e Hne He.
          erewrite grows_content; [|done|by rewrite length_set_text].
          by rewrite content_set_text_ne.
      - subst h'. split; [apply pruned_refl|]. split; [|done].
        destruct Hloc as (el & Hel & _ & Htxt & _).
        unfold content. fold et in Hel. by rewrite Hel. }
    destruct Hstep as (Hpr & Het & Hother).
    split; [by eapply pruned_trans|].
    intros e el0 He Hty. rewrite (drop_S _ _ _ Htag). cbn [subst_tags].
    fold et. specialize (IH e el0 He Hty). cbv beta in IH.
    rewrite (frontier_take_S tags t tag e Htag) in IH. fold et in IH.
    destruct (decide (et = e)) as [<-|Hne].
    + (* the element of the tag *)
      rewrite bool_decide_eq_true_2 by done.
      rewrite bool_decide_eq_true_2 in IH by done.
      pose proof (frontier_sorted tags t tag Hsorted Htag) as Hfr.
      fold et in Hfr.
      destruct Hloc as (el & Hel & _ & Htxt & Hpre).
      destruct Hloc0 as (el0' & Hel0 & _ & Htxt0 & _).
      fold et in Hel, Hel0. assert (el0' = el0) as -> by congruence.
      assert (Hstart : Z.to_nat (getStartOffset (t_range tag)) = length pre).
      { unfold JS.len in Hpre. lia. }
      assert (Hupto : upto tag = length (pre ++ t_match tag)).
      { destruct Hwf as (_ & _ & ? & Hlast). unfold upto. rewrite Hlast.
        unfold JS.len in *. rewrite length_app. lia. }
      assert (Hmax : Nat.max (frontier (take t tags) et) (upto tag)
                     = upto tag).
      { rewrite Hupto, length_app in *. lia. }
      rewrite Hmax in IH. rewrite Het.
      assert (Htake : take (upto tag) (e_text el0) = pre ++ t_match tag).
      { rewrite Htxt0, Hupto, app_assoc. apply take_app_length. }
      assert (Hpost : post = subst_tags map (e_text el0) et (upto tag)
                               (drop (S t) tags)).
      { unfold content in IH. rewrite Hel, Htxt, Htake in IH.
        rewrite <- app_assoc in IH. by do 2 apply app_inv_head in IH. }
      rewrite <- Hpost, (app_assoc (take _ _)), take_take_drop, Hstart.
      replace (frontier (take t tags) et
               + (length pre - frontier (take t tags) et))%nat
        with (length pre) by lia.
      by rewrite Htxt0, take_app_length.
    + rewrite bool_decide_eq_false_2 by done.
      rewrite bool_decide_eq_false_2 in IH by done.
      rewrite Nat.max_0_r in IH. rewrite <- IH.
      apply Hother; [done|]. destruct IHp as [Hlen _].
      apply lookup_lt_Some in He. lia.
Qed.

End substitution.

(** X21. The merge of plain paragraphs is a substitution: when every tag
    that the field map replaces sits in a text element of a plain
    paragraph, [merge] completes, and the text of every text element is
    then its text before the merge in which the match of each tag found in
    it is replaced by what the merge writes for the tag (prefix, value and
    suffix; nothing for an empty value; the tag itself when it is
    skipped), the text between the matches being kept. *)
Theorem merge_substitutes (document : Document) (map : gmap text text)
    (h : heap) (ts : list ref) (tags : list Tag) :
  all_text_elements h (getDocumentParts document) = Some ts → NoDup ts →
  collectTags h (getDocumentParts document) = Some tags →
  (∀ tag, tag ∈ tags → resolve map tag ≠ None →
          plain_text h (getElement (t_range tag))) →
  ∃ h', merge document map h = Some (tt, h')
    ∧ ∀ e el, h !! e = Some el → e_type el = TEXT →
        content h' e = subst_tags map (e_text el) e 0 tags.
Proof.
  intros Hts Hnd Htags Hplain.
  pose proof (collectTags_sorted _ _ _ _ Hts Hnd Htags) as Hsorted.
  assert (Hfound : ∀ tag, tag ∈ tags →
            tag_wf tag ∧ ∃ pre post, located h tag pre post).
  { intros tag Hin. by eapply collectTags_found. }
  destruct (merge_loop_plain map tags h Hsorted Hfound (length tags) h)
    as (h' & Hloop & _); [done|apply loop_start|done|].
  exists h'. split.
  - unfold merge. erewrite bind_run; [|unfold read; by rewrite Htags]. done.
  - pose proof (merge_loop_states map tags h _ h h' (loop_start _ _ _) Hloop)
      as Hstate.
    destruct (loop_state_subst map tags h Hsorted Hfound Hplain 0 h' Hstate)
      as [_ Hsub].
    intros e el He Hty. by rewrite (Hsub e el He Hty).
Qed.

Lemma merge_substitutes_witness :
  ∃ h', merge body_only abc_map two_par_heap = Some (tt, h')
    ∧ ∀ e el, two_par_heap !! e = Some el → e_type el = TEXT →
        content h' e = subst_tags abc_map (e_text el) e 0 two_par_tags.
Proof.
  apply (merge_substitutes body_only abc_map two_par_heap [2; 4]%nat
           two_par_tags).
  - reflexivity.
  - compute_done.
  - reflexivity.
  - assert (Hplain : ∀ e pg, (e = 2%nat ∧ pg = 1%nat) ∨ (e = 4%nat ∧ pg = 3%nat)
                             → plain_text two_par_heap e).
    { intros e pg Hcase.
      assert (∃ el pgE, two_par_heap !! e = Some el ∧ e_type el = TEXT
                ∧ e_parent el = Some pg ∧ two_par_heap !! pg = Some pgE
                ∧ e_type pgE = PARAGRAPH ∧ e_children pgE = [e]
                ∧ e_parent pgE = Some 0%nat) as (el & pgE & H1 & H2 & H3
                                                   & H4 & H5 & H6 & H7).
      { destruct Hcase as [[-> ->]|[-> ->]]; eexists _, _;
          repeat split; reflexivity. }
      exists el, pg, pgE. repeat split; try done.
      - rewrite H6. constructor; [|done]. by exists el.
      - rewrite H7. split.
        + destruct Hcase as [[_ ->]|[_ ->]]; discriminate.
        + eexists. split; [reflexivity|split; discriminate]. }
    intros tag Hin _. unfold two_par_tags in Hin.
    repeat (apply elem_of_cons in Hin as [->|Hin]);
      try (by apply elem_of_nil in Hin).
    + apply (Hplain 2%nat 1%nat). by left.
    + apply (Hplain 2%nat 1%nat). by left.
    + apply (Hplain 2%nat 1%nat). by left.
    + apply (Hplain 4%nat 3%nat). by right.
Defined.

(** the substitution on the first paragraph of the sample document *)
Example subst_two_par :
  subst_tags abc_map (T "<<A>> and <x<B?>y> or <<D>>") 2%nat 0 two_par_tags
  = T "1 and  or <<D>>".
Proof. vm_compute. reflexivity. Qed.

(** * The values of a data table *)

Section table_values.
Import SpreadsheetApp.

Variables (r : Range) (s : Values).

(** the header, and the row [i], cell by cell *)
Lemma getHeaderAsVector_cells :
  DataTable.getHeaderAsVector r s
  = (fun j => s (getRow r) (getColumn r + j)) <$> seqZ 0 (getNumColumns r).
Proof.
  unfold DataTable.getHeaderAsVector, getValues, DataTable.getHeader, offset3.
  simpl. by rewrite !Z.add_0_r.
Qed.

Lemma getRowAsVector_cells i :
  1 ≤ i ≤ DataTable.getNumRows r →
  DataTable.getRowAsVector r s i
  = Some ((fun j => s (getRow r + i) (getColumn r + j))
            <$> seqZ 0 (getNumColumns r)).
Proof.
  intros Hi. unfold DataTable.getRowAsVector, DataTable.getRows.
  rewrite (proj2 (andb_true_iff _ _)) by (split; apply Z.leb_le; lia).
  unfold getValues, DataTable.getHeader, offset3. simpl.
  by rewrite !Z.add_0_r.
Qed.

Lemma length_header :
  length (DataTable.getHeaderAsVector r s) = Z.to_nat (getNumColumns r).
Proof. by rewrite getHeaderAsVector_cells, length_fmap, length_seqZ. Qed.

End table_values.

Section label_map.

(** the map of label to index of a header: the index, from 1, of the last
    column that has the label *)
Let index_map (vec : list text) : gmap text Z :=
  foldl (fun map p => <[p.2 := p.1 + 1]> map) ∅
    (imap (fun j label => (Z.of_nat j, label)) vec).

Lemma index_map_snoc vec x :
  index_map (vec ++ [x]) = <[x := Z.of_nat (length vec) + 1]> (index_map vec).
Proof.
  unfold index_map. rewrite imap_app, foldl_app. simpl.
  by rewrite Nat.add_0_r.
Qed.

Lemma index_map_lookup vec label j :
  index_map vec !! label = Some j
  ↔ ∃ k, j = Z.of_nat k + 1 ∧ vec !! k = Some label
         ∧ ∀ k', (k < k')%nat → vec !! k' ≠ Some label.
Proof.
  revert j. induction vec as [|x vec IH] using rev_ind; intros j.
  - split; [done|]. by intros (k & _ & Hk & _).
  - rewrite index_map_snoc. destruct (decide (x = label)) as [->|Hne].
    + rewrite lookup_insert_eq. split.
      * intros [= <-]. exists (length vec). split; [done|].
        split; [by rewrite list_lookup_middle|].
        intros k' Hk' Hl. apply lookup_lt_Some in Hl.
        rewrite length_app in Hl. simpl in Hl. lia.
      * intros (k & -> & Hk & Hlast). f_equal.
        destruct (decide (k = length vec)) as [->|Hk']; [done|].
        exfalso. apply (Hlast (length vec)).
        -- apply lookup_lt_Some in Hk. rewrite length_app in Hk.
           simpl in Hk. lia.
        -- by rewrite list_lookup_middle.
    + rewrite lookup_insert_ne by done. rewrite IH. split.
      * intros (k & -> & Hk & Hlast). exists k. split; [done|].
        split; [by apply lookup_app_l_Some|].
        intros k' Hk' Hl. apply lookup_app_Some in Hl as [Hl|[_ Hl]].
        -- by apply (Hlast k').
        -- apply list_lookup_singleton_Some in Hl as [_ ?]. done.
      * intros (k & -> & Hk & Hlast). exists k. split; [done|].
        apply lookup_app_Some in Hk as [Hk|[_ Hk]].
        -- split; [done|]. intros k' Hk' Hl. apply (Hlast k' Hk').
           by apply lookup_app_l_Some.
        -- apply list_lookup_singleton_Some in Hk as [_ ?]. done.
Qed.

Lemma getMap_index_map r s :
  DataTable.getMap r s = index_map (DataTable.getHeaderAsVector r s).
Proof. reflexivity. Qed.

End label_map.

Lemma getMap_facts (r : SpreadsheetApp.Range)
    (s : SpreadsheetApp.Values) (label : text) (j : Z) :
  (DataTable.getMap r s !! label = Some j
   ↔ ∃ k, j = Z.of_nat k + 1
          ∧ DataTable.getHeaderAsVector r s !! k = Some label
          ∧ ∀ k', (k < k')%nat →
                  DataTable.getHeaderAsVector r s !! k' ≠ Some label)
  ∧ (DataTable.has r s label = true
     ↔ label ∈ DataTable.getHeaderAsVector r s)
  ∧ (∀ label', DataTable.getMap r s !! label = Some j →
               DataTable.getMap r s !! label' = Some j → label' = label).
Proof.
  rewrite getMap_index_map. split; [apply index_map_lookup|]. split.
  - unfold DataTable.has. rewrite getMap_index_map.
    rewrite bool_decide_eq_true. split.
    + intros [j' Hj]. apply index_map_lookup in Hj as (k & _ & Hk & _).
      by eapply list_elem_of_lookup_2.
    + intros Hin.
      assert (Hlast : ∃ k, DataTable.getHeaderAsVector r s !! k = Some label
                ∧ ∀ k', (k < k')%nat →
                    DataTable.getHeaderAsVector r s !! k' ≠ Some label).
      { induction (DataTable.getHeaderAsVector r s) as [|x vec IH]
          using rev_ind; [by apply elem_of_nil in Hin|].
        destruct (decide (x = label)) as [->|Hne].
        - exists (length vec). split; [by rewrite list_lookup_middle|].
          intros k' Hk' Hl. apply lookup_lt_Some in Hl.
          rewrite length_app in Hl. simpl in Hl. lia.
        - apply elem_of_app in Hin as [Hin|Hin%list_elem_of_singleton];
            [|done].
          destruct (IH Hin) as (k & Hk & Hlast). exists k.
          split; [by apply lookup_app_l_Some|].
          intros k' Hk' Hl. apply lookup_app_Some in Hl as [Hl|[_ Hl]].
          + by apply (Hlast k').
          + apply list_lookup_singleton_Some in Hl as [_ ?]. done. }
      destruct Hlast as (k & Hk & Hlast). exists (Z.of_nat k + 1).
      apply index_map_lookup. by exists k.
  - intros label' H1 H2.
    apply index_map_lookup in H1 as (k1 & -> & Hk1 & _).
    apply index_map_lookup in H2 as (k2 & Heq & Hk2 & _).
    assert (k2 = k1) as -> by lia. congruence.
Qed.

(** X22. The map of labels of a data table gives to a label the number,
    from 1, of the last column of the header that holds it; so the table
    has a label exactly when the header holds it, and two labels never
    share a column. *)
Theorem getMap_last_column (r : SpreadsheetApp.Range)
    (s : SpreadsheetApp.Values) (label : text) (j : Z) :
  (DataTable.getMap r s !! label = Some j
   ↔ ∃ k, j = Z.of_nat k + 1
          ∧ DataTable.getHeaderAsVector r s !! k = Some label
          ∧ ∀ k', (k < k')%nat →
                  DataTable.getHeaderAsVector r s !! k' ≠ Some label)
  ∧ (DataTable.has r s label = true
     ↔ label ∈ DataTable.getHeaderAsVector r s)
  ∧ (∀ label', DataTable.getMap r s !! label = Some j →
               DataTable.getMap r s !! label' = Some j → label' = label).
Proof. apply getMap_facts. Qed.

Section rows.
Import SpreadsheetApp.

Variables (r : Range) (s : Values).

(** an index of the map of labels is the number of a column of the table *)
Lemma getMap_column label j :
  DataTable.getMap r s !! label = Some j →
  1 ≤ j ≤ getNumColumns r
  ∧ s (getRow r) (getColumn r + j - 1) = label.
Proof.
  intros Hj. apply getMap_facts in Hj as (k & -> & Hk & _).
  pose proof (lookup_lt_Some _ _ _ Hk) as Hlt.
  rewrite length_header in Hlt.
  rewrite getHeaderAsVector_cells, list_lookup_fmap in Hk.
  destruct (seqZ 0 (getNumColumns r) !! k) as [z|] eqn:Hz; [|done].
  apply lookup_seqZ in Hz as [-> _]. simpl in Hk. injection Hk as <-.
  split; [lia|]. f_equal. lia.
Qed.

Lemma getRowAsMap_lookup i label :
  1 ≤ i ≤ DataTable.getNumRows r →
  ∃ m, DataTable.getRowAsMap r s i = Some m
       ∧ m !! label
         = (fun j => Some (s (getRow r + i) (getColumn r + j - 1)))
             <$> DataTable.getMap r s !! label.
Proof.
  intros Hi. unfold DataTable.getRowAsMap.
  rewrite getRowAsVector_cells by done. simpl. eexists. split; [done|].
  rewrite lookup_fmap.
  destruct (DataTable.getMap r s !! label) as [j|] eqn:Hj; [|done].
  simpl. f_equal. apply getMap_column in Hj as [Hj _].
  rewrite list_lookup_fmap.
  rewrite (proj2 (lookup_seqZ 0 (getNumColumns r) (Z.to_nat (j - 1))
                    (0 + Z.of_nat (Z.to_nat (j - 1))))) by lia.
  simpl. do 2 f_equal. lia.
Qed.

End rows.

(** X23. The map of a row: for a row number between 1 and the number of
    data rows, [getRowAsMap] returns a map that has the labels of the header
    and gives to each label the value of the cell of the row in the column
    of the label; for any other row number it raises. *)
Theorem getRowAsMap_values (r : SpreadsheetApp.Range)
    (s : SpreadsheetApp.Values) (i : Z) :
  (1 ≤ i ≤ DataTable.getNumRows r →
   ∃ m, DataTable.getRowAsMap r s i = Some m
        ∧ ∀ label,
            m !! label
            = (fun j => Some (s (SpreadsheetApp.getRow r + i)
                                (SpreadsheetApp.getColumn r + j - 1)))
                <$> DataTable.getMap r s !! label)
  ∧ (i < 1 ∨ DataTable.getNumRows r < i →
     DataTable.getRowAsMap r s i = None).
Proof.
  split.
  - intros Hi. unfold DataTable.getRowAsMap.
    rewrite getRowAsVector_cells by done. simpl. eexists. split; [done|].
    intros label.
    destruct (getRowAsMap_lookup r s i label Hi) as (m & Hm & Hl).
    unfold DataTable.getRowAsMap in Hm.
    rewrite getRowAsVector_cells in Hm by done. simpl in Hm.
    injection Hm as <-. exact Hl.
  - intros Hi. unfold DataTable.getRowAsMap, DataTable.getRowAsVector,
      DataTable.getRows.
    rewrite (proj2 (andb_false_iff _ _)); [done|].
    destruct Hi; [left|right]; apply Z.leb_gt; lia.
Qed.

Section row_update.
Import SpreadsheetApp.

Variables (r : Range) (s : Values) (i : Z).

Hypothesis Hi : 1 ≤ i ≤ DataTable.getNumRows r.

Lemma getCell_label label j :
  DataTable.getMap r s !! label = Some j →
  DataTable.getCell r s i label
  = Some (mkCells (getSheet r) (getRow r + i) (getColumn r + j - 1) 1 1).
Proof.
  intros Hj. unfold DataTable.getCell, DataTable.has.
  rewrite bool_decide_eq_true_2 by eauto.
  unfold DataTable.getRow, DataTable.getRows.
  rewrite (proj2 (andb_true_iff _ _)) by (split; apply Z.leb_le; lia).
  simpl. rewrite Hj. simpl. unfold getCell, DataTable.getHeader, offset3.
  simpl. do 2 f_equal; lia.
Qed.

Lemma setValue_cell sheet row col v (s0 : Values) row' col' :
  setValue (mkCells sheet row col 1 1) v s0 row' col'
  = if bool_decide (row' = row ∧ col' = col) then v else s0 row' col'.
Proof.
  unfold setValue, getLastRow, getLastColumn. simpl.
  case_bool_decide as Hc.
  - destruct Hc as [-> ->].
    by rewrite (proj2 (andb_true_iff _ _))
      by (repeat (split || apply andb_true_iff); apply Z.leb_le; lia).
  - destruct (_ && _) eqn:Hb; [|done]. exfalso. apply Hc.
    repeat (apply andb_true_iff in Hb as [Hb ?]).
    rewrite !Z.leb_le in *. lia.
Qed.

(** the cells after the update of the row [i] from the map [m] *)
Lemma updateRow_cells (updateColor : option text) (m : gmap text text)
    (s0 : Values) :
  ∃ s',
    DataTable.updateRowDataFromMap r s i m updateColor s0 = Some s'
    ∧ (∀ label v j, m !! label = Some v →
         DataTable.getMap r s !! label = Some j →
         s' (getRow r + i) (getColumn r + j - 1) = v)
    ∧ (∀ row col,
         (∀ label v j, m !! label = Some v →
            DataTable.getMap r s !! label = Some j →
            ¬ (row = getRow r + i ∧ col = getColumn r + j - 1)) →
         s' row col = s0 row col).
Proof.
  unfold DataTable.updateRowDataFromMap.
  apply (map_fold_weak_ind
    (fun acc (m : gmap text text) =>
       ∃ s', acc = Some s'
         ∧ (∀ label v j, m !! label = Some v →
              DataTable.getMap r s !! label = Some j →
              s' (getRow r + i) (getColumn r + j - 1) = v)
         ∧ (∀ row col,
              (∀ label v j, m !! label = Some v →
                 DataTable.getMap r s !! label = Some j →
                 ¬ (row = getRow r + i ∧ col = getColumn r + j - 1)) →
              s' row col = s0 row col))).
  - exists s0. split; [done|]. split; [by intros ? ? ? ?%lookup_empty_Some|].
    done.
  - intros k v m' acc Hk (s1 & -> & Hw & Hframe). simpl.
    unfold DataTable.has.
    destruct (DataTable.getMap r s !! k) as [jk|] eqn:Hjk.
    + rewrite bool_decide_eq_true_2 by eauto.
      rewrite (getCell_label k jk Hjk). simpl.
      set (c := mkCells (getSheet r) (getRow r + i) (getColumn r + jk - 1)
                  1 1).
      (* the cells when the value is written *)
      assert (Hdone : ∀ s' : Values,
                (∀ row col, s' row col = setValue c v s1 row col) →
                (∀ label v' j, <[k:=v]> m' !! label = Some v' →
                   DataTable.getMap r s !! label = Some j →
                   s' (getRow r + i) (getColumn r + j - 1) = v')
                ∧ (∀ row col,
                     (∀ label v' j, <[k:=v]> m' !! label = Some v' →
                        DataTable.getMap r s !! label = Some j →
                        ¬ (row = getRow r + i ∧ col = getColumn r + j - 1)) →
                     s' row col = s0 row col)).
      { intros s' Hs'. split.
        - intros label v' j Hl Hj. rewrite Hs'. unfold c.
          rewrite setValue_cell.
          apply lookup_insert_Some in Hl as [[<- <-]|[Hne Hl]].
          + assert (j = jk) as -> by congruence.
            by rewrite bool_decide_eq_true_2.
          + rewrite bool_decide_eq_false_2; [by eapply Hw|].
            intros [_ Hcol]. assert (j = jk) as -> by lia.
            apply Hne.
            by apply (proj2 (proj2 (getMap_facts r s label jk))).
        - intros row col Hfree. rewrite Hs'. unfold c.
          rewrite setValue_cell. rewrite bool_decide_eq_false_2.
          + apply Hframe. intros label v' j Hl Hj.
            apply (Hfree label v' j); [|done].
            apply lookup_insert_Some. right. split; [|done].
            intros ->. congruence.
          + apply (Hfree k v jk); [|done]. by rewrite lookup_insert_eq. }
      destruct updateColor as [color|].
      * case_bool_decide as Hv.
        -- eexists. split; [done|]. by apply Hdone.
        -- exists s1. split; [done|]. apply Hdone.
           intros row col. unfold c. rewrite setValue_cell.
           case_bool_decide as Hc; [|done].
           destruct Hc as [-> ->]. first [exact Hv | symmetry; exact Hv].
      * eexists. split; [done|]. by apply Hdone.
    + rewrite bool_decide_eq_false_2 by (by intros [? ?]).
      exists s1. split; [done|]. split.
      * intros label v' j Hl Hj.
        apply lookup_insert_Some in Hl as [[<- <-]|[Hne Hl]]; [congruence|].
        by eapply Hw.
      * intros row col Hfree. apply Hframe. intros label v' j Hl Hj.
        apply (Hfree label v' j); [|done].
        apply lookup_insert_Some. right. split; [|done].
        intros ->. congruence.
Qed.

End row_update.

Section row_readback.
Import SpreadsheetApp.

Variables (r : Range) (s s' : Values) (i : Z) (m : gmap text text).

Hypothesis Hi : 1 ≤ i ≤ DataTable.getNumRows r.
Hypothesis Hwritten :
  ∀ label v j, m !! label = Some v →
    DataTable.getMap r s !! label = Some j →
    s' (getRow r + i) (getColumn r + j - 1) = v.
Hypothesis Hframe :
  ∀ row col,
    (∀ label v j, m !! label = Some v →
       DataTable.getMap r s !! label = Some j →
       ¬ (row = getRow r + i ∧ col = getColumn r + j - 1)) →
    s' row col = s row col.

Lemma updated_other_row row col : row ≠ getRow r + i → s' row col = s row col.
Proof. intros Hrow. apply Hframe. intros label v j _ _ [? _]. done. Qed.

Lemma updated_header :
  DataTable.getHeaderAsVector r s' = DataTable.getHeaderAsVector r s.
Proof.
  rewrite !getHeaderAsVector_cells. apply list_fmap_ext. intros k j _.
  apply updated_other_row. lia.
Qed.

Lemma updated_getMap : DataTable.getMap r s' = DataTable.getMap r s.
Proof. unfold DataTable.getMap. by rewrite updated_header. Qed.

Lemma updated_rows i' :
  i' ≠ i → DataTable.getRowAsMap r s' i' = DataTable.getRowAsMap r s i'.
Proof.
  intros Hne. unfold DataTable.getRowAsMap. rewrite updated_getMap.
  assert (Hvec : DataTable.getRowAsVector r s' i'
                 = DataTable.getRowAsVector r s i'); [|by rewrite Hvec].
  unfold DataTable.getRowAsVector.
  destruct (DataTable.getRows r i' 1) as [rows|] eqn:Hrows; [|done]. simpl.
  unfold DataTable.getRows in Hrows.
  destruct (_ && _); [|done]. injection Hrows as <-.
  unfold getValues, DataTable.getHeader, offset3. simpl. f_equal.
  apply list_fmap_ext. intros k j _. apply updated_other_row. lia.
Qed.

Lemma updated_read label :
  (DataTable.getRowAsMap r s' i ≫= fun row => row !! label)
  = if DataTable.has r s label then
      match m !! label with
      | Some v => Some (Some v)
      | None => DataTable.getRowAsMap r s i ≫= fun row => row !! label
      end
    else None.
Proof.
  destruct (getRowAsMap_lookup r s' i label Hi) as (m1 & -> & H1).
  destruct (getRowAsMap_lookup r s i label Hi) as (m0 & -> & H0).
  simpl. rewrite H1, H0, updated_getMap. unfold DataTable.has.
  destruct (DataTable.getMap r s !! label) as [j|] eqn:Hj.
  - rewrite bool_decide_eq_true_2 by eauto. simpl.
    destruct (m !! label) as [v|] eqn:Hm.
    + by rewrite (Hwritten label v j).
    + do 2 f_equal. apply Hframe. intros label' v' j' Hm' Hj' [_ Hcol].
      assert (j' = j) as -> by lia.
      assert (label' = label) as ->; [|congruence].
      by apply (proj2 (proj2 (getMap_facts r s label j))).
  - rewrite bool_decide_eq_false_2 by (by intros [? ?]).
    by destruct (m !! label).
Qed.

End row_readback.

(** X24. Writing a row from a map and reading it back: for a row number
    between 1 and the number of data rows, [updateRowDataFromMap] does not
    raise, with or without an update colour; the header is unchanged; the
    row read by [getRowAsMap] then has, for each label of the table, the
    value of the map if the map has the label and the former value
    otherwise (labels of the map that are not in the table are ignored); and
    the other rows are unchanged.  [setRowFromMap] writes the same
    values. *)
Theorem updateRow_readback (r : SpreadsheetApp.Range)
    (s : SpreadsheetApp.Values) (i : Z) (m : gmap text text)
    (updateColor : option text) :
  1 ≤ i ≤ DataTable.getNumRows r →
  ∃ s',
    DataTable.updateRowDataFromMap r s i m updateColor s = Some s'
    ∧ DataTable.getHeaderAsVector r s' = DataTable.getHeaderAsVector r s
    ∧ (∀ label,
         (DataTable.getRowAsMap r s' i ≫= fun row => row !! label)
         = if DataTable.has r s label then
             match m !! label with
             | Some v => Some (Some v)
             | None => DataTable.getRowAsMap r s i ≫= fun row => row !! label
             end
           else None)
    ∧ (∀ i', i' ≠ i →
             DataTable.getRowAsMap r s' i' = DataTable.getRowAsMap r s i')
    ∧ DataTable.setRowFromMap r s i m s
      = DataTable.updateRowDataFromMap r s i m None s.
Proof.
  intros Hi.
  destruct (updateRow_cells r s i Hi updateColor m s)
    as (s' & Hrun & Hw & Hframe).
  exists s'. split; [done|].
  split; [by apply (updated_header r s s' i m)|].
  split; [intros label; by apply (updated_read r s s' i m)|].
  split; [intros i' Hne; by apply (updated_rows r s s' i m)|].
  reflexivity.
Qed.

Lemma updateRow_witness :
  ∃ s',
    DataTable.updateRowDataFromMap people_table people_values 1
      {[ T "Name" := T "Bob"; T "Town" := T "Pau" ]} (Some (T "green"))
      people_values = Some s'
    ∧ DataTable.getHeaderAsVector people_table s'
      = DataTable.getHeaderAsVector people_table people_values
    ∧ (∀ label,
         (DataTable.getRowAsMap people_table s' 1 ≫= fun row => row !! label)
         = if DataTable.has people_table people_values label then
             match ({[ T "Name" := T "Bob"; T "Town" := T "Pau" ]}
                      : gmap text text) !! label with
             | Some v => Some (Some v)
             | None => DataTable.getRowAsMap people_table people_values 1
                         ≫= fun row => row !! label
             end
           else None)
    ∧ (∀ i', i' ≠ 1 →
             DataTable.getRowAsMap people_table s' i'
             = DataTable.getRowAsMap people_table people_values i')
    ∧ DataTable.setRowFromMap people_table people_values 1
        {[ T "Name" := T "Bob"; T "Town" := T "Pau" ]} people_values
      = DataTable.updateRowDataFromMap people_table people_values 1
          {[ T "Name" := T "Bob"; T "Town" := T "Pau" ]} None people_values.
Proof.
  apply (updateRow_readback people_table people_values 1
           {[ T "Name" := T "Bob"; T "Town" := T "Pau" ]} (Some (T "green"))).
  unfold DataTable.getNumRows. simpl. lia.
Defined.

Lemma getRowAsMap_witness :
  ∃ m, DataTable.getRowAsMap people_table people_values 2 = Some m
       ∧ ∀ label,
           m !! label
           = (fun j => Some (people_values
                               (SpreadsheetApp.getRow people_table + 2)
                               (SpreadsheetApp.getColumn people_table + j - 1)))
               <$> DataTable.getMap people_table people_values !! label.
Proof.
  apply (getRowAsMap_values people_table people_values 2).
  unfold DataTable.getNumRows. simpl. lia.
Defined.

(** ** Default values *)

Lemma applyDefaults_lookup (d : gmap text text)
    (row : gmap text (option text)) label :
  DataTable.applyDefaultsToMap (Some d) row !! label
  = match d !! label with
    | Some v => if DataTable.unset (row !! label) then Some (Some v)
                else row !! label
    | None => row !! label
    end.
Proof.
  unfold DataTable.applyDefaultsToMap.
  apply (map_fold_weak_ind
    (fun (acc : gmap text (option text)) (d : gmap text text) =>
       acc !! label
       = match d !! label with
         | Some v => if DataTable.unset (row !! label) then Some (Some v)
                     else row !! label
         | None => row !! label
         end)); [done|].
  intros k v d' acc Hk IH.
  destruct (decide (k = label)) as [->|Hne].
  - rewrite lookup_insert_eq. rewrite Hk in IH. rewrite IH.
    destruct (DataTable.unset (row !! label)); [|done].
    by rewrite lookup_insert_eq.
  - rewrite (lookup_insert_ne d') by done. rewrite <- IH.
    destruct (DataTable.unset (acc !! k)); [|done].
    by rewrite lookup_insert_ne.
Qed.

(** X25. [applyDefaultsToMap] gives its default value to each label that
    has one and whose value in the row is missing, undefined or blank, and
    never changes another value; without defaults it changes nothing; and
    applying the defaults twice is applying them once. *)
Theorem applyDefaults_fills (d : gmap text text)
    (row : gmap text (option text)) (label : text) :
  DataTable.applyDefaultsToMap (Some d) row !! label
  = match d !! label with
    | Some v => if DataTable.unset (row !! label) then Some (Some v)
                else row !! label
    | None => row !! label
    end
  ∧ DataTable.applyDefaultsToMap None row = row
  ∧ DataTable.applyDefaultsToMap (Some d)
      (DataTable.applyDefaultsToMap (Some d) row)
    = DataTable.applyDefaultsToMap (Some d) row.
Proof.
  split; [apply applyDefaults_lookup|]. split; [done|].
  apply map_eq. intros k. rewrite !applyDefaults_lookup.
  destruct (d !! k) as [v|]; [|done].
  destruct (DataTable.unset (row !! k)) eqn:Hu.
  - by destruct (DataTable.unset (Some (Some v))).
  - by rewrite Hu.
Qed.

(** * The rows of a data table, read and written as maps *)

Section row_maps.
Import SpreadsheetApp.

Variables (r : Range) (s : Values).

Let step (m : option (gmap Z (gmap text (option text)))) (k : Z)
    : option (gmap Z (gmap text (option text))) :=
  m ← m;
  row ← DataTable.getRowAsMap r s k;
  Some (<[k := row]> m).

Lemma getRowAsMap_defined k :
  is_Some (DataTable.getRowAsMap r s k) ↔ 1 ≤ k ≤ DataTable.getNumRows r.
Proof.
  split.
  - intros [m Hm]. unfold DataTable.getRowAsMap, DataTable.getRowAsVector,
      DataTable.getRows in Hm.
    destruct (_ && _) eqn:Hb; [|done].
    apply andb_true_iff in Hb as [H1 H2].
    apply Z.leb_le in H1, H2. lia.
  - intros Hk. destruct (getRowAsMap_lookup r s k [] Hk) as (m & Hm & _).
    by exists m.
Qed.

Lemma rows_fold_None l : foldl step None l = None.
Proof. by induction l. Qed.

Lemma rows_fold l : ∀ m0,
  Forall (fun k => 1 ≤ k ≤ DataTable.getNumRows r) l →
  ∃ m, foldl step (Some m0) l = Some m
       ∧ ∀ k, m !! k = if bool_decide (k ∈ l)
                        then DataTable.getRowAsMap r s k else m0 !! k.
Proof.
  induction l as [|x l IH]; intros m0 Hl.
  - exists m0. split; [done|]. intros k.
    rewrite bool_decide_eq_false_2; [done|]. by intros ?%elem_of_nil.
  - apply Forall_cons in Hl as [Hx Hl].
    apply getRowAsMap_defined in Hx as [row Hrow].
    cbn [foldl]. unfold step at 2. simpl. rewrite Hrow. simpl.
    destruct (IH (<[x := row]> m0) Hl) as (m & Hm & Hlook).
    exists m. split; [done|]. intros k. rewrite Hlook.
    destruct (decide (k ∈ l)) as [Hin|Hin].
    + rewrite !bool_decide_eq_true_2; [done| |done].
      by apply elem_of_cons; right.
    + rewrite (bool_decide_eq_false_2 (k ∈ l)) by done.
      destruct (decide (k = x)) as [->|Hne].
      * rewrite lookup_insert_eq, bool_decide_eq_true_2; [done|].
        apply elem_of_cons; by left.
      * rewrite lookup_insert_ne by done.
        rewrite bool_decide_eq_false_2; [done|].
        intros [?|?]%elem_of_cons; done.
Qed.

Lemma rows_fold_fails l : ∀ m0,
  ¬ Forall (fun k => 1 ≤ k ≤ DataTable.getNumRows r) l →
  foldl step m0 l = None.
Proof.
  induction l as [|x l IH]; intros m0 Hl.
  - exfalso. apply Hl. constructor.
  - cbn [foldl]. destruct m0 as [m0|]; [|apply rows_fold_None].
    unfold step at 2. simpl.
    destruct (DataTable.getRowAsMap r s x) as [row|] eqn:Hrow;
      [|apply rows_fold_None].
    simpl. apply IH. intros Hall. apply Hl. constructor; [|done].
    apply getRowAsMap_defined. by exists row.
Qed.

Lemma getRowsAsMaps_fold i nb :
  DataTable.getRowsAsMaps r s i nb = foldl step (Some ∅) (seqZ i nb).
Proof. reflexivity. Qed.

End row_maps.

(** X26. All the rows as maps: [getRowsAsMaps] raises exactly when it is
    asked for at least one row and the rows asked for are not all rows of
    the table; otherwise its result has one entry for each of the row
    numbers [i] to [i + nb - 1], the map of that row.  [getDataAsMaps]
    never raises, also on a table without data rows, and its result gives
    to every row number what [getRowAsMap] gives. *)
Theorem getRowsAsMaps_rows (r : SpreadsheetApp.Range)
    (s : SpreadsheetApp.Values) (i nb : Z) :
  (DataTable.getRowsAsMaps r s i nb = None
   ↔ 0 < nb ∧ (i < 1 ∨ DataTable.getNumRows r < i + nb - 1))
  ∧ (∀ rows, DataTable.getRowsAsMaps r s i nb = Some rows →
       ∀ k, rows !! k = if bool_decide (i ≤ k < i + nb)
                        then DataTable.getRowAsMap r s k else None)
  ∧ ∃ rows, DataTable.getDataAsMaps r s = Some rows
            ∧ ∀ k, rows !! k = DataTable.getRowAsMap r s k.
Proof.
  assert (Hall : ∀ i nb,
    Forall (fun k => 1 ≤ k ≤ DataTable.getNumRows r) (seqZ i nb)
    ↔ ¬ (0 < nb ∧ (i < 1 ∨ DataTable.getNumRows r < i + nb - 1))).
  { intros i' nb'. rewrite Forall_forall. split.
    - intros Hin [Hnb Hout].
      destruct Hout as [Hout|Hout].
      + specialize (Hin i'). rewrite elem_of_seqZ in Hin. lia.
      + specialize (Hin (i' + nb' - 1)). rewrite elem_of_seqZ in Hin. lia.
    - intros Hok k Hk. rewrite elem_of_seqZ in Hk. lia. }
  assert (Hsome : ∀ i nb rows,
    DataTable.getRowsAsMaps r s i nb = Some rows →
    ∀ k, rows !! k = if bool_decide (i ≤ k < i + nb)
                     then DataTable.getRowAsMap r s k else None).
  { intros i' nb' rows Hrows k.
    destruct (decide (Forall (fun k => 1 ≤ k ≤ DataTable.getNumRows r)
                        (seqZ i' nb'))) as [Hf|Hf].
    - destruct (rows_fold r s _ ∅ Hf) as (m & Hm & Hlook).
      rewrite getRowsAsMaps_fold in Hrows. rewrite Hm in Hrows.
      injection Hrows as <-. rewrite Hlook, lookup_empty.
      by rewrite (bool_decide_ext _ _ (elem_of_seqZ i' nb' k)).
    - rewrite getRowsAsMaps_fold, (rows_fold_fails r s _ _ Hf) in Hrows.
      done. }
  split; [|split].
  - split.
    + intros Hnone.
      destruct (decide (0 < nb ∧ (i < 1 ∨ DataTable.getNumRows r < i + nb - 1)))
        as [Hd|Hd]; [done|].
      apply Hall in Hd. destruct (rows_fold r s _ ∅ Hd) as (m & Hm & _).
      rewrite getRowsAsMaps_fold in Hnone. congruence.
    + intros Hout. rewrite getRowsAsMaps_fold. apply rows_fold_fails.
      intros Hf. by apply Hall in Hf.
  - apply Hsome.
  - unfold DataTable.getDataAsMaps.
    assert (Hf : Forall (fun k => 1 ≤ k ≤ DataTable.getNumRows r)
                   (seqZ 1 (DataTable.getNumRows r))).
    { apply Hall. lia. }
    destruct (rows_fold r s _ ∅ Hf) as (m & Hm & Hlook).
    exists m. split; [by rewrite getRowsAsMaps_fold|].
    intros k. rewrite Hlook, lookup_empty.
    case_bool_decide as Hk; [done|].
    rewrite elem_of_seqZ in Hk. symmetry. apply eq_None_not_Some.
    intros Hs. apply getRowAsMap_defined in Hs. lia.
Qed.

(** ** Writing only what changed *)

Section changed_cells.
Import SpreadsheetApp.

Variables (r : Range) (s : Values) (i : Z) (m1 m2 : gmap text text).

Hypothesis Hi : 1 ≤ i ≤ DataTable.getNumRows r.
Hypothesis Hagree :
  ∀ label v, m1 !! label = Some v → m2 !! label = Some v →
    DataTable.has r s label = true →
    (DataTable.getRowAsMap r s i ≫= fun row => row !! label)
    = Some (Some v).

Lemma agree_cell label v j :
  m1 !! label = Some v → m2 !! label = Some v →
  DataTable.getMap r s !! label = Some j →
  s (getRow r + i) (getColumn r + j - 1) = v.
Proof using All.
  intros H1 H2 Hj.
  assert (Hhas : DataTable.has r s label = true).
  { unfold DataTable.has. apply bool_decide_eq_true_2. eauto. }
  pose proof (Hagree label v H1 H2 Hhas) as Hrow.
  destruct (getRowAsMap_lookup r s i label Hi) as (m & Hm & Hl).
  rewrite Hm in Hrow. simpl in Hrow. rewrite Hl, Hj in Hrow. simpl in Hrow.
  congruence.
Qed.

Lemma mapDiff_same_cells (updateColor : option text) :
  ∃ s1 s2,
    DataTable.updateRowDataFromMap r s i (LF.mapDiff m1 m2) updateColor s
    = Some s1
    ∧ DataTable.updateRowDataFromMap r s i m2 updateColor s = Some s2
    ∧ ∀ row col, s1 row col = s2 row col.
Proof using All.
  destruct (updateRow_cells r s i Hi updateColor (LF.mapDiff m1 m2) s)
    as (s1 & Hrun1 & Hw1 & Hf1).
  destruct (updateRow_cells r s i Hi updateColor m2 s)
    as (s2 & Hrun2 & Hw2 & Hf2).
  exists s1, s2. split; [done|]. split; [done|]. intros row col.
  destruct (decide (map_Exists
              (fun label j => row = getRow r + i ∧ col = getColumn r + j - 1
                              ∧ is_Some (m2 !! label))
              (DataTable.getMap r s))) as [Hex|Hex].
  - destruct Hex as (label & j & Hj & -> & -> & [v Hv]).
    rewrite (Hw2 label v j Hv Hj).
    destruct (decide (m1 !! label = Some v)) as [H1|H1].
    + rewrite Hf1; [by apply (agree_cell label)|].
      intros label' v' j' Hd Hj' [_ Hcol].
      assert (j' = j) as -> by lia.
      assert (label' = label) as ->.
      { by apply (proj2 (proj2 (getMap_facts r s label j)) label'). }
      rewrite mapDiff_lookup, Hv, bool_decide_eq_true_2 in Hd by done.
      done.
    + apply (Hw1 label v j); [|done].
      by rewrite mapDiff_lookup, Hv, bool_decide_eq_false_2.
  - assert (Hfree : ∀ label v j, m2 !! label = Some v →
              DataTable.getMap r s !! label = Some j →
              ¬ (row = getRow r + i ∧ col = getColumn r + j - 1)).
    { intros label v j Hv Hj [-> ->]. apply Hex.
      exists label, j. eauto. }
    rewrite Hf1, Hf2; [done|done|].
    intros label v j Hd Hj. apply (Hfree label v j); [|done].
    rewrite mapDiff_lookup in Hd.
    destruct (m2 !! label) as [v2|]; [|done].
    by case_bool_decide.
Qed.

End changed_cells.

(** X27. Writing only what changed: let the map [m1] agree with the row
    [i] of the table wherever it agrees with the map [m2] on a label of the
    table.  Then updating the row from [mapDiff(m1, m2)], as [run] does,
    leaves the sheet with the same values as updating it from [m2]
    itself. *)
Theorem updateRow_mapDiff (r : SpreadsheetApp.Range)
    (s : SpreadsheetApp.Values) (i : Z) (m1 m2 : gmap text text)
    (updateColor : option text) :
  1 ≤ i ≤ DataTable.getNumRows r →
  (∀ label v, m1 !! label = Some v → m2 !! label = Some v →
     DataTable.has r s label = true →
     (DataTable.getRowAsMap r s i ≫= fun row => row !! label)
     = Some (Some v)) →
  ∃ s1 s2,
    DataTable.updateRowDataFromMap r s i (LF.mapDiff m1 m2) updateColor s
    = Some s1
    ∧ DataTable.updateRowDataFromMap r s i m2 updateColor s = Some s2
    ∧ ∀ row col, s1 row col = s2 row col.
Proof.
  intros Hi Hagree. by apply mapDiff_same_cells.
Qed.

Lemma updateRow_mapDiff_witness :
  ∃ s1 s2,
    DataTable.updateRowDataFromMap people_table people_values 1
      (LF.mapDiff {[ T "Name" := [] ]} {[ T "Name" := []; T "Age" := T "7" ]})
      (Some (T "green")) people_values
    = Some s1
    ∧ DataTable.updateRowDataFromMap people_table people_values 1
        {[ T "Name" := []; T "Age" := T "7" ]} (Some (T "green"))
        people_values
      = Some s2
    ∧ ∀ row col, s1 row col = s2 row col.
Proof.
  apply (updateRow_mapDiff people_table people_values 1
           {[ T "Name" := [] ]} {[ T "Name" := []; T "Age" := T "7" ]}
           (Some (T "green"))).
  - unfold DataTable.getNumRows. simpl. lia.
  - intros label v [<- <-]%lookup_singleton_Some _ _. vm_compute.
    reflexivity.
Defined.

(** * Constructs with an empty tag name *)

Section constructs_apart.

Lemma tag_text_app p t o q r :
  tag_text p t o q ++ r
  = "<"%char :: p ++ "<"%char :: (t ++ o) ++ ">"%char :: q ++ ">"%char :: r.
Proof.
  unfold tag_text. simpl. repeat (rewrite <- app_assoc; simpl). done.
Qed.

(** A construct that starts inside another one, behind its first
    character, starts behind its last one: the four brackets of a construct
    follow one another without another bracket between them. *)
Lemma construct_behind u1 u2 u3 r k v1 Z :
  forallb no_angle u1 = true → forallb no_angle u2 = true →
  forallb no_angle u3 = true → forallb no_angle v1 = true →
  k ≠ [] →
  "<"%char :: u1 ++ "<"%char :: u2 ++ ">"%char :: u3 ++ ">"%char :: r
  = k ++ "<"%char :: v1 ++ "<"%char :: Z →
  ∃ k', k = "<"%char :: u1 ++ "<"%char :: u2 ++ ">"%char :: u3
              ++ ">"%char :: k'.
Proof.
  intros H1 H2 H3 Hv Hk Heq.
  destruct k as [|c k]; [done|]. simpl in Heq. injection Heq as <- Heq.
  destruct (peel u1 "<"%char _ _ _ H1 eq_refl Heq)
    as [(_ & _ & Heq1)|(k2 & -> & Heq1)]; clear Heq.
  { apply (run_unique no_angle) in Heq1 as (_ & ? & _); done. }
  destruct (peel u2 ">"%char _ _ _ H2 eq_refl Heq1)
    as [(_ & ? & _)|(k3 & -> & Heq2)]; [done|]. clear Heq1.
  destruct (peel u3 ">"%char _ _ _ H3 eq_refl Heq2)
    as [(_ & ? & _)|(k4 & -> & Heq3)]; [done|]. clear Heq2.
  exists k4. simpl. repeat (rewrite <- app_assoc; simpl). done.
Qed.

(** Two constructs in a text start at the same place or do not overlap. *)
Lemma tag_text_apart p t o q p' t' o' q' a b pre post :
  forallb no_angle p = true → forallb no_angle (t ++ o) = true →
  forallb no_angle q = true →
  forallb no_angle p' = true → forallb no_angle (t' ++ o') = true →
  forallb no_angle q' = true →
  a ++ tag_text p t o q ++ b = pre ++ tag_text p' t' o' q' ++ post →
  a = pre
  ∨ (length pre + length (tag_text p' t' o' q') ≤ length a)%nat
  ∨ (length a + length (tag_text p t o q) ≤ length pre)%nat.
Proof.
  intros Hp Ht Hq Hp' Ht' Hq' Heq.
  apply app_eq_inv in Heq as [(k & Ha & Hk)|(k & Hpre & Hk)].
  - destruct (decide (k = [])) as [->|Hne].
    { left. by rewrite app_nil_r in Ha. }
    right. left. rewrite !tag_text_app in Hk.
    destruct (construct_behind _ _ _ _ _ _ _ Hp' Ht' Hq' Hp Hne Hk)
      as (k' & ->).
    rewrite Ha, <- tag_text_app, !length_app. lia.
  - destruct (decide (k = [])) as [->|Hne].
    { left. by rewrite app_nil_r in Hpre. }
    right. right. rewrite !tag_text_app in Hk.
    destruct (construct_behind _ _ _ _ _ _ _ Hp Ht Hq Hp' Hne Hk)
      as (k' & ->).
    rewrite Hpre, <- tag_text_app, !length_app. lia.
Qed.

(** A tag found in a text does not overlap a construct with an empty name
    of this text. *)
Lemma empty_name_apart p q o tag a b pre post :
  forallb no_angle p = true → forallb no_angle q = true →
  tag_wf tag →
  a ++ tag_text p [] (marker o) q ++ b = pre ++ t_match tag ++ post →
  (length pre + length (t_match tag) ≤ length a)%nat
  ∨ (length a + length (tag_text p [] (marker o) q) ≤ length pre)%nat.
Proof.
  intros Hp Hq (Hparts & Hmatch & _) Heq.
  pose proof Hparts as (Hp' & Ht' & _ & Hq').
  rewrite Hmatch in *.
  destruct (tag_text_apart p [] (marker o) q (t_text1 tag) (t_tag tag)
              (marker (t_opt tag)) (t_text2 tag) a b pre post)
    as [->|Hcase]; try done.
  - apply forallb_marker.
  - rewrite forallb_app. apply andb_true_iff.
    split; [by apply name_char_no_angle | apply forallb_marker].
  - apply app_inv_head in Heq.
    pose proof (longest_tag _ _ (t_opt tag) _ post Hparts) as Hl.
    rewrite <- Heq, empty_name_head in Hl by done. done.
Qed.

(** a tag that is not all the text of its element is not the special case
    of new list items *)
Lemma newItemsCase_partial tag tagValue h pre post isNew :
  located h tag pre post → pre ≠ [] ∨ post ≠ [] →
  newItemsCase tag tagValue h = Some (isNew, h) → isNew = false.
Proof.
  intros (el & Hel & Hty & Htxt & _) Hpart.
  pose proof (lookup_lt_Some _ _ _ Hel) as Hlt.
  unfold newItemsCase.
  erewrite bind_run; cycle 1.
  { unfold getText. apply read_run.
    destruct (length h) as [|n]; [lia|]. simpl. by rewrite Hel, Hty. }
  rewrite (bool_decide_eq_false_2 (t_match tag = e_text el)); cycle 1.
  { rewrite Htxt. intros Heq. apply (f_equal length) in Heq.
    rewrite !length_app in Heq.
    destruct Hpart as [Hne|Hne]; [destruct pre|destruct post];
      try done; simpl in Heq; lia. }
  intros (parent & h1 & _ & Hrun)%bind_Some.
  apply bind_Some in Hrun as (parent' & h2 & _ & Hrun).
  apply bind_Some in Hrun as (parentType & h3 & _ & Hrun).
  injection Hrun as <- _. simpl. by rewrite andb_false_r.
Qed.

Lemma frontier_cases tags e :
  frontier tags e = 0%nat
  ∨ ∃ tag, tag ∈ tags ∧ getElement (t_range tag) = e
           ∧ frontier tags e = upto tag.
Proof.
  induction tags as [|tag tags IH]; simpl; [by left|].
  destruct (bool_decide_reflect (getElement (t_range tag) = e)) as [He|He].
  - right. destruct (Nat.max_spec (upto tag) (frontier tags e))
      as [[Hlt Hm]|[Hle Hm]]; rewrite Hm.
    + destruct IH as [H0|(tag' & Hin & He' & Hf)]; [exfalso; lia|].
      exists tag'. split; [by right | done].
    + exists tag. split; [by left | done].
  - destruct IH as [H0|(tag' & Hin & He' & Hf)]; [by left|].
    right. exists tag'. split; [by right | done].
Qed.

End constructs_apart.

Section empty_name_kept.

Variables (p q : text) (o : bool) (map : gmap text text) (tags : list Tag)
  (h0 : heap) (e : ref) (el0 : Element) (a b : text).

Hypothesis Hp : forallb no_angle p = true.
Hypothesis Hq : forallb no_angle q = true.
Hypothesis Hsorted : sorted_tags tags.
Hypothesis Hfound :
  ∀ tag, tag ∈ tags → tag_wf tag ∧ ∃ pre post, located h0 tag pre post.
Hypothesis He0 : h0 !! e = Some el0.
Hypothesis Hty0 : e_type el0 = TEXT.
Hypothesis Htxt0 : e_text el0 = a ++ tag_text p [] (marker o) q ++ b.

(** the tags of the element stand before the construct or behind it *)
Lemma tag_apart tag :
  tag ∈ tags → getElement (t_range tag) = e →
  (Z.to_nat (getStartOffset (t_range tag)) < upto tag)%nat
  ∧ ((upto tag ≤ length a)%nat
     ∨ (length a + length (tag_text p [] (marker o) q)
        ≤ Z.to_nat (getStartOffset (t_range tag)))%nat).
Proof using All.
  intros Hin He.
  destruct (Hfound tag Hin) as (Hwf & pre & post & el & Hel & _ & Htxt & Hpre).
  rewrite He in Hel. assert (el = el0) as -> by congruence.
  rewrite Htxt0 in Htxt.
  pose proof (empty_name_apart p q o tag a b pre post Hp Hq Hwf Htxt) as Hcase.
  destruct Hwf as (_ & Hmatch & Hstart & Hlast).
  assert (Hlen : (0 < length (t_match tag))%nat).
  { rewrite Hmatch, length_tag_text. lia. }
  unfold upto. rewrite Hlast. unfold JS.len in *. lia.
Qed.

Lemma frontier_apart t :
  (frontier (take t tags) e ≤ length a)%nat
  ∨ (length a + length (tag_text p [] (marker o) q)
     ≤ frontier (take t tags) e)%nat.
Proof using All.
  destruct (frontier_cases (take t tags) e) as [->|(tag & Hin & He & ->)];
    [left; lia|].
  apply elem_of_take in Hin as (i & Hin & _).
  apply list_elem_of_lookup_2 in Hin.
  destruct (tag_apart tag Hin He) as [Hlt [Hc|Hc]]; [by left | right; lia].
Qed.

(** the substitution keeps a construct that stands behind the place it
    starts from *)
Lemma subst_keeps n : ∀ t,
  (length tags - t = n)%nat →
  (frontier (take t tags) e ≤ length a)%nat →
  ∃ x y,
    subst_tags map (e_text el0) e (frontier (take t tags) e) (drop t tags)
    = x ++ tag_text p [] (marker o) q ++ y.
Proof using All.
  induction n as [|n IH]; intros t Hn Hfr.
  - rewrite drop_ge by lia. cbn [subst_tags]. rewrite Htxt0.
    rewrite drop_app_le by done. eauto.
  - destruct (lookup_lt_is_Some_2 tags t) as [tag Htag]; [lia|].
    rewrite (drop_S _ _ _ Htag). cbn [subst_tags].
    pose proof (frontier_take_S tags t tag e Htag) as HS.
    destruct (bool_decide_reflect (getElement (t_range tag) = e)) as [He|He].
    + pose proof (frontier_sorted tags t tag Hsorted Htag) as Hle.
      rewrite He in Hle.
      destruct (tag_apart tag) as [Hlt [Hc|Hc]];
        [by eapply list_elem_of_lookup_2 | done | |].
      * destruct (IH (S t)) as (x & y & Hxy); [lia | rewrite HS; lia |].
        rewrite HS in Hxy.
        replace (Nat.max (frontier (take t tags) e) (upto tag))
          with (upto tag) in Hxy by lia.
        rewrite Hxy. rewrite !app_assoc, <- (app_assoc _ _ y).
        by eexists _, y.
      * assert (Hd : ∃ y,
            take (Z.to_nat (getStartOffset (t_range tag))
                  - frontier (take t tags) e)
              (drop (frontier (take t tags) e) (e_text el0))
            = drop (frontier (take t tags) e) a
              ++ tag_text p [] (marker o) q ++ y).
        { rewrite Htxt0, drop_app_le by done.
          rewrite take_app_ge by (rewrite length_drop; lia).
          rewrite take_app_ge by (rewrite length_drop; lia). eauto. }
        destruct Hd as (y & ->). rewrite <- !app_assoc. by eexists _, _.
    + rewrite Nat.max_0_r in HS.
      destruct (IH (S t)) as (x & y & Hxy); [lia | rewrite HS; lia |].
      rewrite HS in Hxy. eauto.
Qed.

(** The text of the element in a state of the loop: unchanged up to the
    end of the last match of the tags still to process, substituted behind
    it. *)
Lemma loop_state_empty_name t h :
  loop_state map tags h0 t h →
  (length h0 ≤ length h)%nat
  ∧ content h e
    = take (frontier (take t tags) e) (e_text el0)
      ++ subst_tags map (e_text el0) e (frontier (take t tags) e)
           (drop t tags).
Proof using All.
  intros Hstate.
  induction Hstate as [|t tag h h' Hstate [IHlen IH] Htag Hrun].
  - split; [done|]. rewrite drop_all. cbn [subst_tags]. rewrite take_drop.
    unfold content. by rewrite He0.
  - pose proof (loop_state_prefixes _ _ _ _ _ Hsorted Hfound Hstate) as Hkept.
    destruct (prefixes_kept_located _ _ _ _ _ Hfound Hkept Htag)
      as (pre & post & Hloc & Hloc0).
    assert (Hin : tag ∈ tags) by by eapply list_elem_of_lookup_2.
    destruct (Hfound tag Hin) as [Hwf _].
    set (et := getElement (t_range tag)) in *.
    pose proof (processTag_effect _ _ _ _ _ _ Hwf Hloc Hrun) as Heff.
    assert (Hlt : (et < length h)%nat).
    { destruct Hloc as (el & Hel & _). by eapply lookup_lt_Some. }
    assert (Hlen : (length h ≤ length h')%nat).
    { destruct (resolve map tag); [|by subst].
      destruct Heff as (isNew & _ & Hgrows).
      apply grows_length in Hgrows. by rewrite length_set_text in Hgrows. }
    split; [lia|].
    rewrite (drop_S _ _ _ Htag). cbn [subst_tags]. fold et.
    rewrite (frontier_take_S tags t tag e Htag) in IH. fold et in IH.
    destruct (decide (et = e)) as [Heq|Hne].
    + (* the element of the tag *)
      rewrite bool_decide_eq_true_2 by done.
      rewrite bool_decide_eq_true_2 in IH by done.
      pose proof (frontier_sorted tags t tag Hsorted Htag) as Hfr.
      fold et in Hfr. rewrite Heq in Hfr.
      destruct (tag_apart tag Hin Heq) as [Hslt Hcase].
      pose proof Hloc as (el & Hel & _ & Htxt & Hpre).
      destruct Hloc0 as (el0' & Hel0 & _ & Htxt0' & _).
      fold et in Hel, Hel0. rewrite Heq in Hel, Hel0.
      assert (el0' = el0) as -> by congruence.
      assert (Hstart : Z.to_nat (getStartOffset (t_range tag)) = length pre).
      { unfold JS.len in Hpre. lia. }
      assert (Hupto : upto tag = length (pre ++ t_match tag)).
      { destruct Hwf as (_ & _ & ? & Hlast). unfold upto. rewrite Hlast.
        unfold JS.len in *. rewrite length_app. lia. }
      assert (Hmax : Nat.max (frontier (take t tags) e) (upto tag)
                     = upto tag) by lia.
      rewrite Hmax in IH.
      assert (Htake : take (upto tag) (e_text el0) = pre ++ t_match tag).
      { rewrite Htxt0', Hupto, app_assoc. apply take_app_length. }
      assert (Hpost : post = subst_tags map (e_text el0) e (upto tag)
                               (drop (S t) tags)).
      { unfold content in IH. rewrite Hel, Htxt, Htake in IH.
        rewrite <- app_assoc in IH. by do 2 apply app_inv_head in IH. }
      (* the tag is not all the text of its element *)
      assert (Hpart : pre ≠ [] ∨ post ≠ []).
      { destruct Hcase as [Hc|Hc].
        - right. destruct (subst_keeps (length tags - S t) (S t))
            as (x & y & Hxy); [done | |].
          { rewrite (frontier_take_S tags t tag e Htag).
            fold et. rewrite bool_decide_eq_true_2 by done. lia. }
          rewrite (frontier_take_S tags t tag e Htag) in Hxy.
          fold et in Hxy. rewrite bool_decide_eq_true_2 in Hxy by done.
          rewrite Hmax, <- Hpost in Hxy. rewrite Hxy.
          intros Hnil. apply (f_equal length) in Hnil.
          rewrite !length_app, length_tag_text in Hnil. simpl in Hnil. lia.
        - left. rewrite length_tag_text in Hc. intros ->. simpl in *. lia. }
      assert (Het : content h' e = pre ++ written map tag ++ post).
      { unfold written. destruct (resolve map tag) as [v|] eqn:Hres.
        - destruct Heff as (isNew & Hnew & Hgrows).
          rewrite (newItemsCase_partial tag v h pre post isNew Hloc Hpart Hnew)
            in Hgrows.
          simpl in Hgrows. rewrite <- Heq.
          erewrite grows_content; [|done|by rewrite length_set_text].
          by rewrite content_set_text.
        - subst h'. unfold content. by rewrite Hel. }
      rewrite Het.
      rewrite <- Hpost, (app_assoc (take _ _)), take_take_drop, Hstart.
      replace (frontier (take t tags) e
               + (length pre - frontier (take t tags) e))%nat
        with (length pre) by lia.
      by rewrite Htxt0', take_app_length.
    + rewrite bool_decide_eq_false_2 by done.
      rewrite bool_decide_eq_false_2 in IH by done.
      rewrite Nat.max_0_r in IH. rewrite <- IH.
      destruct (resolve map tag) as [v|]; [|by subst].
      destruct Heff as (isNew & _ & Hgrows).
      erewrite grows_content; [|done|].
      * by rewrite content_set_text_ne.
      * rewrite length_set_text. apply lookup_lt_Some in He0. lia.
Qed.

(** the construct stands in the text of the element in every state of the
    loop *)
Lemma loop_state_construct t h :
  loop_state map tags h0 t h →
  ∃ a' b', content h e = a' ++ tag_text p [] (marker o) q ++ b'.
Proof using All.
  intros [_ Hc]%loop_state_empty_name. rewrite Hc.
  destruct (frontier_apart t) as [Hf|Hf].
  - destruct (le_lt_dec t (length tags)) as [Ht|Ht].
    + destruct (subst_keeps (length tags - t) t eq_refl Hf) as (x & y & ->).
      rewrite app_assoc. by eexists _, y.
    + rewrite drop_ge by lia. cbn [subst_tags]. rewrite take_drop, Htxt0.
      eauto.
  - assert (Hd : ∃ y, take (frontier (take t tags) e) (e_text el0)
                      = a ++ tag_text p [] (marker o) q ++ y).
    { rewrite Htxt0. rewrite take_app_ge by lia.
      rewrite take_app_ge by lia. eauto. }
    destruct Hd as (y & ->). rewrite <- !app_assoc. by eexists a, _.
Qed.

End empty_name_kept.

(** C9. A bracketed construct whose tag name is empty, [<p<>q>] or
    [<p<?>q>], standing anywhere in a text element of a document.  The
    scan of the document returns, and the scanner does not recognise the
    construct: the pattern matches at the head of no text that starts with
    it, every tag found has a name that is not empty, and no tag found in
    the element overlaps the construct.  The merge leaves the construct as
    it is: it stands in the text of the element in every state that the
    replacement loop reaches, and when the merge returns the text of the
    element is its former text in which the matches of the tags are
    replaced, the construct standing in it untouched. *)
Theorem C9_empty_name_not_recognized (p q : text) (o : bool)
    (document : Document) (map : gmap text text) (h : heap) (ts : list ref)
    (e : ref) (el : Element) (a b : text) :
  forallb no_angle p = true → forallb no_angle q = true →
  all_text_elements h (getDocumentParts document) = Some ts → NoDup ts →
  h !! e = Some el → e_type el = TEXT →
  e_text el = a ++ tag_text p [] (marker o) q ++ b →
  (∀ rest,
     Regex.longest pattern (tag_text p [] (marker o) q ++ rest) = None)
  ∧ ∃ tags,
      collectTags h (getDocumentParts document) = Some tags
      ∧ (∀ tag, tag ∈ tags →
           t_tag tag ≠ []
           ∧ (getElement (t_range tag) = e →
              getEndOffsetInclusive (t_range tag) < JS.len a
              ∨ JS.len a + JS.len (tag_text p [] (marker o) q)
                ≤ getStartOffset (t_range tag)))
      ∧ (∀ t h1, loop_state map tags h t h1 →
           ∃ a' b', content h1 e = a' ++ tag_text p [] (marker o) q ++ b')
      ∧ (∀ h', merge document map h = Some (tt, h') →
           content h' e = subst_tags map (e_text el) e 0 tags
           ∧ ∃ a' b', content h' e = a' ++ tag_text p [] (marker o) q ++ b').
Proof.
  intros Hp Hq Hts Hnd He Hty Htxt.
  split; [intros rest; by apply empty_name_head|].
  destruct (collectTags_spec _ _ _ Hts Hnd) as (tags & Htags & _).
  exists tags. split; [done|].
  pose proof (collectTags_sorted _ _ _ _ Hts Hnd Htags) as Hsorted.
  assert (Hfound : ∀ tag, tag ∈ tags →
            tag_wf tag ∧ ∃ pre post, located h tag pre post).
  { intros tag Hin. by eapply collectTags_found. }
  split; [|split].
  - intros tag Hin. destruct (Hfound tag Hin) as [Hwf _]. split.
    { apply Hwf. }
    intros Htag.
    destruct (tag_apart p q o map tags h e el a b Hp Hq Hsorted Hfound He
                Hty Htxt tag Hin Htag) as [Hlt Hcase].
    destruct Hwf as (_ & _ & Hstart & Hlast).
    unfold upto, JS.len in *. lia.
  - intros t h1 Hstate.
    by apply (loop_state_construct p q o map tags h e el a b Hp Hq Hsorted
                Hfound He Hty Htxt t h1).
  - intros h' Hrun. unfold merge in Hrun.
    erewrite bind_run in Hrun; [|unfold read; by rewrite Htags].
    pose proof (merge_loop_states map tags h _ h h' (loop_start _ _ _) Hrun)
      as Hstate.
    split; [|by apply (loop_state_construct p q o map tags h e el a b Hp Hq
                         Hsorted Hfound He Hty Htxt 0 h')].
    destruct (loop_state_empty_name p q o map tags h e el a b Hp Hq Hsorted
                Hfound He Hty Htxt 0 h' Hstate) as [_ Hc].
    by rewrite Hc.
Qed.

Lemma C9_witness :
  content beside_heap 2%nat
  = T "<<A>> " ++ tag_text (T "a") [] (marker false) (T "b") ++ T " <<C>>"
  ∧ ∃ tags,
      collectTags beside_heap (getDocumentParts body_only) = Some tags
      ∧ (∀ tag, tag ∈ tags →
           t_tag tag ≠ []
           ∧ (getElement (t_range tag) = 2%nat →
              getEndOffsetInclusive (t_range tag) < JS.len (T "<<A>> ")
              ∨ JS.len (T "<<A>> ")
                + JS.len (tag_text (T "a") [] (marker false) (T "b"))
                ≤ getStartOffset (t_range tag)))
      ∧ ∀ h', merge body_only abc_map beside_heap = Some (tt, h') →
          content h' 2%nat
          = subst_tags abc_map (T "<<A>> <a<>b> <<C>>") 2%nat 0 tags
          ∧ ∃ a' b',
              content h' 2%nat
              = a' ++ tag_text (T "a") [] (marker false) (T "b") ++ b'.
Proof.
  split; [reflexivity|].
  destruct (C9_empty_name_not_recognized (T "a") (T "b") false body_only
              abc_map beside_heap [2%nat] 2%nat
              (text_elem 1 "<<A>> <a<>b> <<C>>") (T "<<A>> ") (T " <<C>>"))
    as (_ & tags & Htags & Hapart & _ & Hmerge).
  - reflexivity.
  - reflexivity.
  - reflexivity.
  - compute_done.
  - reflexivity.
  - reflexivity.
  - reflexivity.
  - exists tags. split; [exact Htags|]. split; [exact Hapart | exact Hmerge].
Defined.

(** the merge of the sample document: the two tags are replaced, the
    construct between them is left *)
Example merge_beside :
  (fun r => content r.2 2%nat) <$> merge body_only abc_map beside_heap
  = Some (T "1 <a<>b> 3").
Proof. vm_compute. reflexivity. Qed.
